(** * compare-mt: the statistical comparison engine, shallow embedding

    A shallow embedding of the parts of [compare_mt] that compute
    statistics: the BLEU and WER scorers (scorers.py), the paired bootstrap
    draw (sign_utils.py), the RIBES Kendall distance (scorers.py), the
    salience extractor (stat_utils.py) and the bucketed word matchers
    (bucketers.py).

    Python exceptions are modelled by the result type [res] below; Python
    dicts (Counter, defaultdict) by stdpp's [gmap] with their default value
    written out at lookup; numpy int arrays by [list Z]; Python floats by
    [Q] where only the four operations are involved and by [R] where
    [math.log] and [math.exp] are. *)

From Stdlib Require Import Ascii String ZArith QArith Qround Lia Sorted.
From Stdlib Require Import Rdefinitions Raxioms RIneq Rbasic_fun Rfunctions Rtrigo_def Exp_prop Rpower Qreals Lra Psatz.
From Stdlib Require Lqa.
From stdpp Require Import base list gmap strings.

Local Open Scope nat_scope.

(** ** Python runtime *)

Inductive exn :=
  | IndexError
  | ZeroDivisionError
  | NotImplementedError (msg : string)
  | ValueError (msg : string)
  | TypeError
  | KeyError
  | AttributeError
  | NameError
  | OverflowError.

(** A computation that returns a value or raises. *)
Inductive res (A : Type) : Type :=
  | Ok (a : A)
  | Raise (e : exn).
Arguments Ok {A} a.
Arguments Raise {A} e.

Global Instance res_ret : MRet res := fun A a => Ok a.
Global Instance res_bind : MBind res := fun A B f m =>
  match m with Ok a => f a | Raise e => Raise e end.

(** [l[i]] for a non-negative index. *)
Definition py_get {A} (l : list A) (i : nat) : res A :=
  match l !! i with Some x => Ok x | None => Raise IndexError end.

(** A [for] loop whose body may raise. *)
Fixpoint foldM {A B} (f : A -> B -> res A) (l : list B) (a : A) : res A :=
  match l with
  | [] => Ok a
  | x :: l' => match f a x with Ok a' => foldM f l' a' | Raise e => Raise e end
  end.

(** [str.lower], on ASCII letters. *)
Definition lower_char (c : ascii) : ascii :=
  let n := nat_of_ascii c in
  if (65 <=? n) && (n <=? 90) then ascii_of_nat (n + 32) else c.

Fixpoint lower (s : string) : string :=
  match s with
  | EmptyString => EmptyString
  | String c s' => String (lower_char c) (lower s')
  end.

Definition sentence := list string.
Definition corpus := list sentence.

(** corpus_utils.lower on a sentence and on a corpus *)
Definition lower_sent (s : sentence) : sentence := map lower s.
Definition lower_corpus (c : corpus) : corpus := map lower_sent c.

(** collections.Counter / defaultdict(lambda: 0) *)
Definition counter (K : Type) `{Countable K} := gmap K nat.
Definition counter_get {K} `{Countable K} (m : gmap K nat) (k : K) : nat :=
  default 0 (m !! k).
Definition counter_add {K} `{Countable K} (m : gmap K nat) (k : K) (v : nat)
  : gmap K nat := <[k := counter_get m k + v]> m.
Definition Counter {K} `{Countable K} (l : list K) : gmap K nat :=
  foldl (fun m x => counter_add m x 1) ∅ l.

(** ** ngram_utils.sent_ngrams_list *)
Definition sent_ngrams_list (words : sentence) (n : nat) : list (list string) :=
  map (fun i => firstn n (skipn i words))
      (seq 0 (Z.to_nat (Z.of_nat (length words) - Z.of_nat n + 1))).

(** ** BleuScorer *)
Module Bleu.

Definition global_scorer_scale : R := 100%R.

Record BleuScorer := mkBleuScorer {
  weights : list R;
  case_insensitive : bool
}.

(** [(len(r), len(o), prec)] *)
Definition stat := (nat * nat * list (nat * nat))%type.

Definition _precision (ref out : sentence) (n : nat) : nat * nat :=
  let out_cnt := Counter (sent_ngrams_list out n) in
  let ref_cnt := Counter (sent_ngrams_list ref n) in
  let '(num, denom) :=
    map_fold (fun ngram o_cnt '(num, denom) =>
                (num + Nat.min o_cnt (counter_get ref_cnt ngram), denom + o_cnt))
             (0, 0) out_cnt in
  (num, Nat.max 1 denom).

Definition sent_stats (self : BleuScorer) (ro : sentence * sentence) : stat :=
  let '(r, o) := ro in
  (length r, length o,
   map (fun n => _precision r o n) (seq 1 (length (weights self)))).

Definition cache_stats (self : BleuScorer) (ref out : corpus) : list stat :=
  let ref := if case_insensitive self then lower_corpus ref else ref in
  let out := if case_insensitive self then lower_corpus out else out in
  map (sent_stats self) (zip ref out).

(** Accumulator of the loop of [score_cached_corpus]:
    [ref_len], [out_len], [num_prec], [denom_prec]. *)
Record acc := mkAcc {
  ref_len : nat;
  out_len : nat;
  num_prec : gmap nat nat;
  denom_prec : gmap nat nat
}.

Definition acc0 : acc := mkAcc 0 0 ∅ ∅.

(** [for n in range(1, len(self.weights) + 1)] on one cached sentence *)
Definition add_prec (prec : list (nat * nat)) (a : acc) (n : nat) : res acc :=
  nd ← py_get prec (n - 1);
  let '(num, denom) := nd in
  Ok (mkAcc (ref_len a) (out_len a)
            (counter_add (num_prec a) n num) (counter_add (denom_prec a) n denom)).

Definition add_stat (self : BleuScorer) (a : acc) (st : stat) : res acc :=
  let '(rl, ol, prec) := st in
  foldM (add_prec prec) (seq 1 (length (weights self)))
        (mkAcc (ref_len a + rl) (out_len a + ol) (num_prec a) (denom_prec a)).

(** the body of [for sent_id in sent_ids] *)
Definition loop_step (self : BleuScorer) (cached_stats : list stat)
    (a : acc) (sent_id : nat) : res acc :=
  st ← py_get cached_stats sent_id;
  add_stat self a st.

Definition log_prec (self : BleuScorer) (a : acc) : R :=
  fold_left
    (fun prec '(i, w) =>
       let d := counter_get (denom_prec a) i in
       let p := if decide (d = 0) then 0%R
                else (INR (counter_get (num_prec a) i) / INR d)%R in
       let p := if Rlt_dec 0 p then ln p else 0%R in
       (prec + p * w)%R)
    (zip (seq 1 (length (weights self))) (weights self)) 0%R.

Definition brevity (a : acc) : R :=
  if decide (out_len a = 0) then 0%R
  else (Rmin 1 (exp (1 - INR (ref_len a) / INR (out_len a))))%R.

(** [math.exp]: [OverflowError] when the result rounds to an infinite
    float, that is when it reaches [2^1024 - 2^970] *)
Definition py_exp (x : R) : res R :=
  if Rle_dec (IZR (2 ^ 1024 - 2 ^ 970)) (exp x) then Raise OverflowError else Ok (exp x).

Definition score_cached_corpus (self : BleuScorer) (sent_ids : list nat)
    (cached_stats : list stat) : res (R * option string) :=
  match cached_stats with
  | [] => Ok (0%R, None)
  | _ =>
    a ← foldM (loop_step self cached_stats) sent_ids acc0;
    if decide (counter_get (num_prec a) 1 = 0) then Ok (0%R, None)
    else py_exp (log_prec self a) ≫= fun e =>
         Ok ((global_scorer_scale * brevity a * e)%R, None)
  end.

Definition score_corpus (self : BleuScorer) (ref out : corpus)
    : res (R * option string) :=
  let cached := cache_stats self ref out in
  score_cached_corpus self (seq 0 (length ref)) cached.

Definition score_sentence (self : BleuScorer) (ref out : sentence)
    : res (R * option string) :=
  Raise (NotImplementedError
    ("Sentence-level calculation is not implemented in BleuScorer as it is usually 0."
     ++ "Consider using SentenceBleuScorer (string sentbleu) instead.")).

End Bleu.

(** ** SacreBleuScorer (its statistics come from the external [sacrebleu]
    package; only [score_sentence] is embedded) *)
Module SacreBleu.

Record SacreBleuScorer := mkSacreBleuScorer {
  smooth_method : string;
  smooth_value : R;
  use_effective_order : bool;
  case_insensitive : bool
}.

Definition score_sentence (self : SacreBleuScorer) (ref out : sentence)
    : res (R * option string) :=
  Raise (NotImplementedError
    ("Sentence-level calculation is not implemented in SacreBleuScorer as it is usually 0."
     ++ "Consider using SentenceBleuScorer (string sentbleu) instead.")).

End SacreBleu.

(** ** sign_utils: the draw of the paired bootstrap *)
Module Sign.

(** Python floats. A finite binary64 value is a rational; [round64 x] is
    the binary64 value nearest to [x] (ties to even, with subnormals), and
    [None] when the rounding overflows to an infinity. *)
Definition pow2 (e : Z) : Q :=
  if (0 <=? e)%Z then inject_Z (2 ^ e) else Qmake 1 (Z.to_pos (2 ^ (- e))).

(** [num / den] rounded to the nearest integer, ties to even *)
Definition round_half_even (num den : Z) : Z :=
  let q := (num / den)%Z in
  match Z.compare (2 * (num mod den)) den with
  | Lt => q
  | Gt => (q + 1)%Z
  | Eq => if Z.even q then q else (q + 1)%Z
  end.

(** rounding of [p / q] for [p, q > 0]: [top] is the exponent of the
    leading bit, [e] the exponent of the last kept bit *)
Definition round_pos (p q : Z) : option Q :=
  let t0 := (Z.log2 p - Z.log2 q)%Z in
  let top := if (0 <=? t0)%Z then (if (q * 2 ^ t0 <=? p)%Z then t0 else (t0 - 1)%Z)
             else (if (q <=? p * 2 ^ (- t0))%Z then t0 else (t0 - 1)%Z) in
  let e := Z.max (top - 52) (-1074) in
  let m := if (0 <=? e)%Z then round_half_even p (q * 2 ^ e)
           else round_half_even (p * 2 ^ (- e)) q in
  let v := (inject_Z m * pow2 e)%Q in
  if Qle_bool (inject_Z (2 ^ 1024)) v then None else Some v.

Definition round64 (x : Q) : option Q :=
  match Qnum x with
  | Z0 => Some 0%Q
  | Zpos p => round_pos (Zpos p) (Zpos (Qden x))
  | Zneg p => option_map Qopp (round_pos (Zpos p) (Zpos (Qden x)))
  end.

(** [float(n)] of an int: [OverflowError] when it is too large *)
Definition py_float_of_int (n : Z) : res Q :=
  match round64 (inject_Z n) with Some x => Ok x | None => Raise OverflowError end.

(** [x * y] on floats; [None] stands for an infinite result *)
Definition py_fmul (x y : Q) : option Q := round64 (x * y)%Q.

(** Python's [int(x)] on a finite float: truncation toward zero. *)
Definition py_int (x : Q) : Z := Z.quot (Qnum x) (Zpos (Qden x)).

(** [int(x)] on a float that may be infinite: [OverflowError] there *)
Definition py_int_float (x : option Q) : res Z :=
  match x with Some v => Ok (py_int v) | None => Raise OverflowError end.

(** [l[:k]] *)
Definition py_prefix {A} (l : list A) (k : Z) : list A :=
  if (0 <=? k)%Z then firstn (Z.to_nat k) l
  else firstn (Z.to_nat (Z.of_nat (length l) + k)) l.

(** [int(len(ids)*sample_ratio)]: the int [len(ids)] is converted to a
    float, multiplied by the float [sample_ratio] (given by its exact
    value), and the product truncated. *)
Definition sample_size (n : nat) (sample_ratio : Q) : res Z :=
  fn ← py_float_of_int (Z.of_nat n);
  py_int_float (py_fmul fn sample_ratio).

(** [reduced_ids = ids[:int(len(ids)*sample_ratio)]], on the list [ids]
    as [np.random.shuffle(ids)] left it. *)
Definition reduced_ids (ids : list nat) (sample_ratio : Q) : res (list nat) :=
  k ← sample_size (length ids) sample_ratio;
  Ok (py_prefix ids k).

(** The rounds of [eval_with_paired_bootstrap]: [bootstrap_draws r k ids ds]
    holds when [k] calls of [sample_and_compare], starting from the shared
    list [ids], can score the id lists [ds] in order. Each call shuffles
    [ids] in place (any permutation of it) and scores its prefix. *)
Inductive bootstrap_draws (sample_ratio : Q)
    : nat -> list nat -> list (list nat) -> Prop :=
  | draws_done ids : bootstrap_draws sample_ratio 0 ids []
  | draws_round k ids ids' d ds :
      Permutation ids ids' ->
      reduced_ids ids' sample_ratio = Ok d ->
      bootstrap_draws sample_ratio k ids' ds ->
      bootstrap_draws sample_ratio (S k) ids (d :: ds).

Definition size_error_msg : string :=
  "Reference and system outputs should have the same size.".

(** The part of [eval_with_paired_bootstrap] before the rounds: the size
    check, then the two caches. *)
Definition eval_with_paired_bootstrap_setup (scorer : Bleu.BleuScorer)
    (gold sys1 sys2 : corpus) : res (list Bleu.stat * list Bleu.stat) :=
  if negb (length gold =? length sys1) || negb (length gold =? length sys2)
  then Raise (ValueError size_error_msg)
  else Ok (Bleu.cache_stats scorer gold sys1, Bleu.cache_stats scorer gold sys2).

(** [eval_with_paired_bootstrap] starts from [ids = list(range(n))]. *)
Definition eval_draws (n : nat) (sample_ratio : Q) (num_samples : nat)
    (ds : list (list nat)) : Prop :=
  bootstrap_draws sample_ratio num_samples (seq 0 n) ds.

End Sign.

(** ** RibesScorer._kendall_tau_distance *)
Module Ribes.

Definition _kendall_tau_distance (alignment : list Z) : Q :=
  let n := length alignment in
  if n <=? 1 then 0%Q
  else
    let dis :=
      fold_left
        (fun dis i =>
           fold_left
             (fun dis j => if (alignment !!! i <? alignment !!! j)%Z then dis + 1 else dis)
             (seq (i + 1) (n - (i + 1))) dis)
        (seq 0 n) 0 in
    (inject_Z (2 * Z.of_nat dis) / inject_Z (Z.of_nat (n * n - n)))%Q.

(** The pairs [(i, j)] with [i < j < n] satisfying [P]. *)
Definition count_pairs (n : nat) (P : nat -> nat -> bool) : nat :=
  length (List.filter (fun ij => (fst ij <? snd ij) && P (fst ij) (snd ij))
                      (list_prod (seq 0 n) (seq 0 n))).

(** The spec's reading: a pair [i < j] is discordant when
    [alignment[j] > alignment[i]] is false. *)
Definition discordant_pairs (alignment : list Z) : nat :=
  count_pairs (length alignment)
    (fun i j => negb (alignment !!! i <? alignment !!! j)%Z).

Definition ascending_pairs (alignment : list Z) : nat :=
  count_pairs (length alignment)
    (fun i j => (alignment !!! i <? alignment !!! j)%Z).

(** The spec's rank correlation: [2 * #discordant / (n^2 - n)], 0 for
    [n <= 1]. *)
Definition spec_rank_correlation (alignment : list Z) : Q :=
  let n := length alignment in
  if n <=? 1 then 0%Q
  else (inject_Z (2 * Z.of_nat (discordant_pairs alignment))
        / inject_Z (Z.of_nat (n * n - n)))%Q.

End Ribes.

(** ** stat_utils.extract_salient_features *)
Module Stat.

(** Python's true division [x / y] on floats. *)
Definition py_div (x y : Q) : res Q :=
  if Qeq_bool y 0 then Raise ZeroDivisionError else Ok (x / y)%Q.

Section Salience.
Context {K : Type} `{Countable K}.

(** The count dictionaries are [defaultdict(lambda: 0)] (ngram_utils):
    a missing key reads as 0. *)
Definition count_q (d : gmap K nat) (k : K) : Q := inject_Z (Z.of_nat (counter_get d k)).

(** [scores[k] = (dict1[k]+alpha) / (dict1[k] + dict2[k] + 2*alpha)] *)
Definition salience_step (dict1 dict2 : gmap K nat) (alpha : Q)
    (scores : gmap K Q) (k : K) : res (gmap K Q) :=
  v ← py_div (count_q dict1 k + alpha) (count_q dict1 k + count_q dict2 k + 2 * alpha)%Q;
  Ok (<[k := v]> scores).

(** the score stored for key [k] when the division succeeds *)
Definition salience_value (dict1 dict2 : gmap K nat) (alpha : Q) (k : K) : Q :=
  ((count_q dict1 k + alpha) / (count_q dict1 k + count_q dict2 k + 2 * alpha))%Q.

Definition extract_salient_features (dict1 dict2 : gmap K nat) (alpha : Q)
    : res (gmap K Q) :=
  let all_keys := dom dict1 ∪ dom dict2 in
  foldM (salience_step dict1 dict2 alpha) (elements all_keys) ∅.

End Salience.

End Stat.

(** ** WERScorer *)
Module WER.

Definition global_scorer_scale : Q := 100%Q.

(** [x < y] on floats *)
Definition Qltb (x y : Q) : bool := negb (Qle_bool y x).

Record WERScorer := mkWERScorer {
  sub_pen : Q;
  ins_pen : Q;
  del_pen : Q;
  case_insensitive : bool
}.

(** [WERScorer.__init__]: the three penalty arguments are not stored. *)
Definition WERScorer_init (sub_pen ins_pen del_pen : Q) (case_insensitive : bool)
    : WERScorer :=
  mkWERScorer 1%Q 1%Q 1%Q case_insensitive.

(** One row of the table: [next_row self r out prev left] computes
    [scores[i+1, j+1]] for [j = 0 .. len(out)-1], given the row
    [prev = scores[i, :]], the token [r = ref[i]] and the value
    [left = scores[i+1, j]] to the left. *)
Fixpoint next_row (self : WERScorer) (r : string) (out : list string)
    (prev : list Q) (left : Q) : list Q :=
  match out, prev with
  | o :: out', p_ij :: ((p_ij1 :: _) as prev') =>
      let my_action := if String.eqb r o then 0%Z else 1%Z in
      let my_score := (p_ij + inject_Z my_action * sub_pen self)%Q in
      let del_score := (p_ij1 + del_pen self)%Q in
      let my_score := if Qltb del_score my_score then del_score else my_score in
      let ins_score := (left + ins_pen self)%Q in
      let my_score := if Qltb ins_score my_score then ins_score else my_score in
      my_score :: next_row self r out' prev' my_score
  | _, _ => []
  end.

(** [for i in range(0, len(ref))]: the rows [1 ..], from row [i]; the
    first column is [scores[:,0] = range(sp1)]. *)
Fixpoint dp_rows (self : WERScorer) (ref : list string) (i : nat)
    (out : list string) (prev : list Q) : list Q :=
  match ref with
  | [] => prev
  | r :: ref' =>
      let left := inject_Z (Z.of_nat (i + 1)) in
      dp_rows self ref' (S i) out (left :: next_row self r out prev left)
  end.

Definition _edit_distance (self : WERScorer) (ref out : sentence) : Q :=
  let ref := if case_insensitive self then lower_sent ref else ref in
  let out := if case_insensitive self then lower_sent out else out in
  let row0 := map (fun j => inject_Z (Z.of_nat j)) (seq 0 (length out + 1)) in
  (* scores[-1,-1] *)
  List.last (dp_rows self ref 0 out row0) 0%Q.

Definition cache_stats (self : WERScorer) (ref out : corpus) : list (nat * Q) :=
  map (fun '(r, o) => (length r, _edit_distance self r o)) (zip ref out).

(** [np.sum(arr[sent_ids])] *)
Definition sum_at {A} (f : A -> Q) (arr : list A) (sent_ids : list nat) : res Q :=
  foldM (fun acc i => x ← py_get arr i; Ok (acc + f x)%Q) sent_ids 0%Q.

Definition score_cached_corpus (self : WERScorer) (sent_ids : list nat)
    (cached_stats : list (nat * Q)) : res (Q * option string) :=
  match cached_stats with
  | [] => Ok (0%Q, None)
  | _ =>
    denom ← sum_at (fun st => inject_Z (Z.of_nat (fst st))) cached_stats sent_ids;
    num ← sum_at snd cached_stats sent_ids;
    let wer := if Qeq_bool denom 0 then 0%Q else (num / denom)%Q in
    Ok ((global_scorer_scale * wer)%Q, None)
  end.

Definition score_corpus (self : WERScorer) (ref out : corpus) : res (Q * option string) :=
  let cached_stats := cache_stats self ref out in
  score_cached_corpus self (seq 0 (length ref)) cached_stats.

Definition score_sentence (self : WERScorer) (ref out : sentence) : res (Q * option string) :=
  score_corpus self [ref] [out].

End WER.

(** ** The recursive edit distance

    The textbook recurrence on prefixes, used to reason about the table of
    [WERScorer._edit_distance] with unit penalties. [lev a b] is the
    distance between [rev a] and [rev b]: the head of each list is the last
    token of the prefix. *)
Module Lev.

Definition min3 (s d i : Z) : Z :=
  let m := s in
  let m := if (d <? m)%Z then d else m in
  if (i <? m)%Z then i else m.

Fixpoint lev (a : list string) : list string -> Z :=
  match a with
  | [] => fun b => Z.of_nat (length b)
  | x :: a' =>
      fix lev_b (b : list string) : Z :=
        match b with
        | [] => Z.of_nat (length a' + 1)
        | y :: b' =>
            min3 (lev a' b' + (if String.eqb x y then 0 else 1))
                 (lev a' (y :: b') + 1)
                 (lev_b b' + 1)
        end
  end%Z.

(** The row recurrence of [WER.next_row] with unit penalties, on [Z]. *)
Fixpoint next_rowZ (r : string) (out : list string) (prev : list Z) (left : Z)
    : list Z :=
  match out, prev with
  | o :: out', p_ij :: ((p_ij1 :: _) as prev') =>
      let v := min3 (p_ij + (if String.eqb r o then 0 else 1)) (p_ij1 + 1) (left + 1) in
      v :: next_rowZ r out' prev' v
  | _, _ => []
  end%Z.

(** The row [i] of the table for the prefix whose reversal is [a]. *)
Definition lev_row (a out : list string) : list Z :=
  map (fun k => lev a (rev (firstn k out))) (seq 0 (length out + 1)).

End Lev.

(** ** The scorer interface: [Scorer.score_sentence] *)
Class Scorer (S : Type) := score_sentence : S -> sentence -> sentence -> res (R * option string).

Global Instance Bleu_Scorer : Scorer Bleu.BleuScorer := Bleu.score_sentence.
Global Instance SacreBleu_Scorer : Scorer SacreBleu.SacreBleuScorer := SacreBleu.score_sentence.
Global Instance WER_Scorer : Scorer WER.WERScorer := fun self ref out =>
  match WER.score_sentence self ref out with
  | Ok (v, aux) => Ok (Q2R v, aux)
  | Raise e => Raise e
  end.

(** ** bucketers.WordBucketer *)
Module Bucket.

(** [calc_bucket] returns an int, or a list of ints for multi-label
    bucketers. *)
Inductive bucket :=
  | BId (b : nat)
  | BList (bs : list nat).

(** A word bucketer: the subclass supplies [bucket_strs] and
    [calc_bucket(word, label)]; [word] and [label] may be [None]. *)
Record WordBucketer := mkWordBucketer {
  bucket_strs : list string;
  calc_bucket : option string -> option string -> res bucket;
  case_insensitive : bool
}.

(** [itertools.zip_longest] of two lists *)
Fixpoint zip_longest {A B} (l1 : list A) (l2 : list B) : list (option A * option B) :=
  match l1 with
  | [] => map (fun y => (None, Some y)) l2
  | x :: l1' =>
      match l2 with
      | [] => map (fun x => (Some x, None)) l1
      | y :: l2' => (Some x, Some y) :: zip_longest l1' l2'
      end
  end.

Fixpoint mapM {A B} (f : A -> res B) (l : list A) : res (list B) :=
  match l with
  | [] => Ok []
  | x :: l' => y ← f x; ys ← mapM f l'; Ok (y :: ys)
  end.

(** numpy int arrays: [np.zeros(n)], [a[b] += 1] (IndexError out of
    range), and [a += b] on arrays of the same shape *)
Definition zeros (n : nat) : list Z := replicate n 0%Z.
Definition zeros2 (m n : nat) : list (list Z) := replicate m (zeros n).

Definition vinc (v : list Z) (b : nat) : res (list Z) :=
  match v !! b with Some x => Ok (<[b := (x + 1)%Z]> v) | None => Raise IndexError end.

Definition minc (m : list (list Z)) (i b : nat) : res (list (list Z)) :=
  match m !! i with
  | Some row => row' ← vinc row b; Ok (<[i := row']> m)
  | None => Raise IndexError
  end.

Definition vadd (v w : list Z) : list Z := zip_with Z.add v w.
Definition madd (m n : list (list Z)) : list (list Z) := zip_with vadd m n.

(** [_calc_trg_matches]: the positions of each reference word *)
Definition ref_positions (ref_sent : sentence) : gmap string (list nat) :=
  foldl (fun m '(ri, w) => <[w := default [] (m !! w) ++ [ri]]> m) ∅
        (zip (seq 0 (length ref_sent)) ref_sent).

(** one output sentence: [out_matches[oai]] (with -1 for unmatched words)
    and [ref_matches[oai]] *)
Definition match_step (ref_pos : gmap string (list nat))
    (st : gmap string nat * list Z * list Z) (oiw : nat * string)
    : gmap string nat * list Z * list Z :=
  let '(cnts, om, rm) := st in
  let '(oi, out_word) := oiw in
  match ref_pos !! out_word with
  | Some ref_poss =>
      if decide (ref_poss = []) then (cnts, om ++ [(-1)%Z], rm)
      else
        let cnt := counter_get cnts out_word in
        if decide (cnt < length ref_poss) then
          (<[out_word := cnt + 1]> cnts, om ++ [Z.of_nat (ref_poss !!! cnt)],
           <[ref_poss !!! cnt := Z.of_nat oi]> rm)
        else (<[out_word := cnt + 1]> cnts, om ++ [(-1)%Z], rm)
  | None => (cnts, om ++ [(-1)%Z], rm)
  end.

Definition match_one (ref_sent : sentence) (out_sent : sentence) : list Z * list Z :=
  let '(_, om, rm) :=
    foldl (match_step (ref_positions ref_sent))
          (∅, [], replicate (length ref_sent) (-1)%Z)
          (zip (seq 0 (length out_sent)) out_sent) in
  (om, rm).

Definition _calc_trg_matches (ref_sent : sentence) (out_sents : list sentence)
    : list (list Z) * list (list Z) :=
  (map (fun o => fst (match_one ref_sent o)) out_sents,
   map (fun o => snd (match_one ref_sent o)) out_sents).

(** [ref_total[b] += 1] (or once per id of a list-valued bucket) *)
Definition add_bucket (v : list Z) (b : bucket) : res (list Z) :=
  match b with
  | BId b => vinc v b
  | BList bs => foldM vinc bs v
  end.

(** The per-sentence tallies [(my_ref_total, my_out_totals,
    my_out_matches)]. *)
Definition tally := (list Z * list (list Z) * list (list Z))%type.

(** [_calc_trg_buckets_and_matches], for one output sentence: the
    buckets of the words, each matched word taking the bucket of its
    reference word, then the totals. *)
Definition out_bucket (self : WordBucketer) (ref_buckets : list bucket)
    (wlm : option string * option string * option Z) : res (bucket * Z) :=
  match wlm with
  | (w, l, Some m) =>
      if (m <? 0)%Z then b ← calc_bucket self w l; Ok (b, m)
      else b ← py_get ref_buckets (Z.to_nat m); Ok (b, m)
  | (_, _, None) => Raise TypeError   (* [None < 0] *)
  end.

Definition zip_longest3 (ws : list string) (ls : list string) (ms : list Z)
    : list (option string * option string * option Z) :=
  map (fun '(wm, l) =>
         match wm with
         | Some (w, m) => (Some w, l, Some m)
         | None => (None, l, None)
         end)
      (zip_longest (zip ws ms) ls).

Definition add_out (oi : nat) (mt : list (list Z) * list (list Z)) (bm : bucket * Z)
    : res (list (list Z) * list (list Z)) :=
  let '(tot, mat) := mt in
  let '(b, m) := bm in
  let bis := match b with BId b => [b] | BList bs => bs end in
  foldM (fun '(tot, mat) bi =>
           tot' ← minc tot oi bi;
           mat' ← (if (0 <=? m)%Z then minc mat oi bi else Ok mat);
           Ok (tot', mat'))
        bis (tot, mat).

Definition _calc_trg_buckets_and_matches (self : WordBucketer) (ref_sent : sentence)
    (ref_label : option (list string)) (out_sents : list sentence)
    (out_labels : option (list (list string))) : res tally :=
  let ref_sent := if case_insensitive self then lower_sent ref_sent else ref_sent in
  let out_sents := if case_insensitive self then map lower_sent out_sents else out_sents in
  let '(ref_label, out_labels) :=
    match ref_label with
    | None | Some [] => ([], Some (map (fun _ => []) out_sents))
    | Some rl => (rl, out_labels)
    end in
  let out_matches := fst (_calc_trg_matches ref_sent out_sents) in
  ref_buckets ← mapM (fun '(w, l) => calc_bucket self w l) (zip_longest ref_sent ref_label);
  out_labels ← (match out_labels with Some ol => Ok ol | None => Raise TypeError end);
  out_buckets ← mapM (fun '(om, ol) =>
                        match om, ol with
                        | Some (o, m), Some ol => mapM (out_bucket self ref_buckets) (zip_longest3 o ol m)
                        | _, _ => Raise TypeError
                        end)
                     (zip_longest (zip out_sents out_matches) out_labels);
  let num_buckets := length (bucket_strs self) in
  let num_outs := length out_sents in
  my_ref_total ← foldM add_bucket ref_buckets (zeros num_buckets);
  om ← foldM (fun mt '(oi, obs) => foldM (add_out oi) obs mt)
             (zip (seq 0 num_outs) out_buckets)
             (zeros2 num_outs num_buckets, zeros2 num_outs num_buckets);
  Ok (my_ref_total, fst om, snd om).

(** [_calc_src_buckets_and_matches]: [a[idx] += 1] with a list [idx] is
    numpy fancy indexing, which adds 1 once per distinct index. *)
Definition fancy_inc (v : list Z) (b : bucket) : res (list Z) :=
  match b with
  | BId b => vinc v b
  | BList bs => foldM vinc (remove_dups bs) v
  end.

Definition fancy_minc (m : list (list Z)) (i : nat) (b : bucket) : res (list (list Z)) :=
  match m !! i with
  | Some row => row' ← fancy_inc row b; Ok (<[i := row']> m)
  | None => Raise IndexError
  end.

(** [src_aligns[src].append(trg)] *)
Definition add_align (sa : list (list nat)) (st : nat * nat) : res (list (list nat)) :=
  let '(src, trg) := st in
  match sa !! src with
  | Some l => Ok (<[src := l ++ [trg]]> sa)
  | None => Raise IndexError
  end.

(** [all([ref_match[x] >= 0 for x in src_align])] *)
Definition all_matched (ref_match : list Z) (src_align : list nat) : res bool :=
  bs ← mapM (fun x => v ← py_get ref_match x; Ok (0 <=? v)%Z) src_align;
  Ok (forallb id bs).

Definition _calc_src_buckets_and_matches (self : WordBucketer) (src_sent : sentence)
    (src_label : option (list string)) (ref_sent : sentence) (ref_aligns : list (nat * nat))
    (out_sents : list sentence) : res tally :=
  let src_sent := if case_insensitive self then lower_sent src_sent else src_sent in
  let ref_sent := if case_insensitive self then lower_sent ref_sent else ref_sent in
  let out_sents := if case_insensitive self then map lower_sent out_sents else out_sents in
  let src_label := match src_label with None => [] | Some l => l end in
  let ref_matches := snd (_calc_trg_matches ref_sent out_sents) in
  src_buckets ← mapM (fun '(w, l) => calc_bucket self w l) (zip_longest src_sent src_label);
  src_aligns ← foldM add_align ref_aligns (replicate (length src_sent) []);
  let num_buckets := length (bucket_strs self) in
  let num_outs := length out_sents in
  my_ref_total ← foldM fancy_inc src_buckets (zeros num_buckets);
  let my_out_totals := replicate num_outs my_ref_total in
  my_out_matches ←
    foldM (fun mom '(oai, ref_match) =>
             foldM (fun mom '(src_bucket, src_align) =>
                      if decide (length src_align <> 0) then
                        matched ← all_matched ref_match src_align;
                        if (matched : bool) then fancy_minc mom oai src_bucket else Ok mom
                      else Ok mom)
                   (zip src_buckets src_aligns) mom)
          (zip (seq 0 num_outs) ref_matches) (zeros2 num_outs num_buckets);
  Ok (my_ref_total, my_out_totals, my_out_matches).

(** The arguments of [calc_statistics] *)
Record stat_input := mkStatInput {
  ref : corpus;
  outs : list corpus;
  src : option corpus;
  ref_labels : option (list (list string));
  out_labels : option (list (list (list string)));
  ref_aligns : option (list (list (nat * nat)));
  src_labels : option (list (list string))
}.

(** Python's [x if x else None] on an optional list *)
Definition truthy {A} (o : option (list A)) : option (list A) :=
  match o with Some (_ :: _) => o | _ => None end.

Definition unwrap {A} (o : option A) : res A :=
  match o with Some x => Ok x | None => Raise TypeError end.

(** One iteration of the sentence loop of [calc_statistics]: the
    arguments are evaluated in order, then the per-sentence tallies are
    computed by the source-side or the target-side matcher. *)
Definition sentence_tally (self : WordBucketer) (inp : stat_input) (rsi : nat)
    (ref_sent : option sentence) (ref_label : option (list string)) : res tally :=
  match truthy (src inp) with
  | Some src =>
      src_sent ← py_get src rsi;
      src_label ← (match truthy (src_labels inp) with
                   | Some sl => l ← py_get sl rsi; Ok (Some l)
                   | None => Ok None
                   end);
      ras ← unwrap (ref_aligns inp);
      ra ← py_get ras rsi;
      out_sents ← mapM (fun x => py_get x rsi) (outs inp);
      ref_sent ← unwrap ref_sent;
      _calc_src_buckets_and_matches self src_sent src_label ref_sent ra out_sents
  | None =>
      out_sents ← mapM (fun x => py_get x rsi) (outs inp);
      out_labels ← (match truthy (out_labels inp) with
                    | Some ol => l ← mapM (fun x => py_get x rsi) ol; Ok (Some l)
                    | None => Ok None
                    end);
      ref_sent ← unwrap ref_sent;
      _calc_trg_buckets_and_matches self ref_sent ref_label out_sents out_labels
  end.

Definition zero_tally (num_buckets num_outs : nat) : tally :=
  (zeros num_buckets, zeros2 num_outs num_buckets, zeros2 num_outs num_buckets).

(** [ref_total += my_ref_total] and so on *)
Definition tally_add (t u : tally) : tally :=
  let '(rt, ot, om) := t in
  let '(rt', ot', om') := u in
  (vadd rt rt', madd ot ot', madd om om').

Definition enumerate {A} (l : list A) : list (nat * A) := zip (seq 0 (length l)) l.

(** [calc_statistics]: the summed tallies [(ref_total, out_totals,
    out_matches)] and the per-sentence tallies ([my_ref_total_list] and
    so on, one triple per sentence).  The final recall, precision and F1
    are numpy float divisions and are not part of this model. *)
Definition calc_statistics (self : WordBucketer) (inp : stat_input) : res (tally * list tally) :=
  let num_buckets := length (bucket_strs self) in
  let num_outs := length (outs inp) in
  foldM (fun '(tot, ts) '(rsi, (ref_sent, ref_label)) =>
           my ← sentence_tally self inp rsi ref_sent ref_label;
           Ok (tally_add tot my, ts ++ [my]))
        (enumerate (zip_longest (ref inp) (default [] (truthy (ref_labels inp)))))
        (zero_tally num_buckets num_outs, []).

(** [calc_source_bucketed_matches]: [itertools.zip_longest] of six lists *)
Definition zip_longest6 {A B C D E F} (a : list A) (b : list B) (c : list C)
    (d : list D) (e : list E) (f : list F) :=
  map (fun i => (a !! i, b !! i, c !! i, d !! i, e !! i, f !! i))
      (seq 0 (max (length a) (max (length b) (max (length c)
                  (max (length d) (max (length e) (length f))))))).

(** [matches[bucket][j] += 1]; a list-valued bucket is not a valid list
    index *)
Definition int_bucket (b : bucket) : res nat :=
  match b with BId b => Ok b | BList _ => Raise TypeError end.

Definition src_word_of (src_sent : option sentence) (src_index : nat) : res string :=
  src_sent ← unwrap src_sent;
  py_get src_sent src_index.

Definition src_bucket_of (self : WordBucketer) (src_word : string)
    (src_lab : option (list string)) (src_index : nat) : res nat :=
  label ← (match truthy src_lab with
           | Some sl => l ← py_get sl src_index; Ok (Some l)
           | None => Ok None
           end);
  b ← calc_bucket self (Some src_word) label;
  int_bucket b.

(** One edge of [out_align]: [ref_cnt] is the running multiset of the
    reference words. *)
Definition out_edge_step (self : WordBucketer) (src_sent out_sent : option sentence)
    (src_lab : option (list string)) (st : gmap string nat * list (list Z))
    (edge : nat * nat) : res (gmap string nat * list (list Z)) :=
  let '(ref_cnt, matches) := st in
  let '(src_index, trg_index) := edge in
  src_word ← src_word_of src_sent src_index;
  out_sent ← unwrap out_sent;
  word ← py_get out_sent trg_index;
  let word := if case_insensitive self then lower word else word in
  b ← src_bucket_of self src_word src_lab src_index;
  if decide (0 < counter_get ref_cnt word) then
    m ← minc matches b 0; m ← minc m b 2;
    Ok (<[word := counter_get ref_cnt word - 1]> ref_cnt, m)
  else m ← minc matches b 2; Ok (ref_cnt, m).

(** One edge of [ref_align] *)
Definition ref_edge_step (self : WordBucketer) (src_sent : option sentence)
    (src_lab : option (list string)) (matches : list (list Z)) (edge : nat * nat)
    : res (list (list Z)) :=
  let '(src_index, _) := edge in
  src_word ← src_word_of src_sent src_index;
  b ← src_bucket_of self src_word src_lab src_index;
  minc matches b 1.

Definition source_sentence_step (self : WordBucketer) (matches : list (list Z))
    (item : option sentence * option sentence * option sentence *
            option (list (nat * nat)) * option (list (nat * nat)) * option (list string))
    : res (list (list Z)) :=
  let '(src_sent, ref_sent, out_sent, ref_align, out_align, src_lab) := item in
  let low w := if case_insensitive self then lower w else w in
  ref_sent ← unwrap ref_sent;
  let ref_cnt := foldl (fun c w => counter_add c (low w) 1) (∅ : gmap string nat) ref_sent in
  out_align ← unwrap out_align;
  cm ← foldM (out_edge_step self src_sent out_sent src_lab) out_align (ref_cnt, matches);
  ref_align ← unwrap ref_align;
  foldM (ref_edge_step self src_sent src_lab) ref_align cm.2.

(** The counting loop of [calc_source_bucketed_matches]: one row
    [[both_tot, ref_tot, out_tot]] per bucket. *)
Definition source_match_counts (self : WordBucketer) (src ref out : corpus)
    (ref_aligns out_aligns : list (list (nat * nat)))
    (src_labels : option (list (list string))) : res (list (list Z)) :=
  let src_labels := default [] (truthy src_labels) in
  foldM (source_sentence_step self)
        (zip_longest6 src ref out ref_aligns out_aligns src_labels)
        (replicate (length (bucket_strs self)) [0; 0; 0]%Z).

(** The tuple yielded for one bucket *)
Definition bucket_result (row : list Z) : res (Z * Z * Z * Q * Q * Q) :=
  match row with
  | [both_tot; ref_tot; out_tot] =>
      if (both_tot =? 0)%Z then Ok (both_tot, ref_tot, out_tot, 0, 0, 0)%Q
      else
        rec ← Stat.py_div (inject_Z both_tot) (inject_Z ref_tot);
        prec ← Stat.py_div (inject_Z both_tot) (inject_Z out_tot);
        fmeas ← Stat.py_div (2 * prec * rec) (prec + rec);
        Ok (both_tot, ref_tot, out_tot, rec, prec, fmeas)
  | _ => Raise (ValueError "not enough values to unpack")
  end.

(** [calc_source_bucketed_matches], its generator consumed in full *)
Definition calc_source_bucketed_matches (self : WordBucketer) (src ref out : corpus)
    (ref_aligns out_aligns : list (list (nat * nat)))
    (src_labels : option (list (list string))) : res (list (Z * Z * Z * Q * Q * Q)) :=
  matches ← source_match_counts self src ref out ref_aligns out_aligns src_labels;
  mapM bucket_result matches.

(** [str] of an int *)
Fixpoint digits (fuel n : nat) (acc : string) : string :=
  match fuel with
  | 0 => acc
  | S f =>
      let acc := String (ascii_of_nat (48 + n mod 10)) acc in
      if n <? 10 then acc else digits f (n / 10) acc
  end.
Definition str_of_nat (n : nat) : string := digits (S n) n "".

(** [Bucketer.set_bucket_cutoffs] with [num_type='int'], on int cutoffs
    [>= 0] (a frequency bucketer's); on no cutoffs the final [f'>={x}']
    reads the unbound loop variable: [UnboundLocalError], a [NameError]. *)
Definition bucket_strs_of_cutoffs (bucket_cutoffs : list nat) : res (list string) :=
  match bucket_cutoffs with
  | [] => Raise NameError
  | c0 :: _ =>
      Ok (map (fun '(i, x) =>
             if i =? 0 then "<" +:+ str_of_nat x
             else if (Z.of_nat x - 1 =? Z.of_nat (bucket_cutoffs !!! (i - 1)%nat))%Z
             then str_of_nat (x - 1)
             else "[" +:+ str_of_nat (bucket_cutoffs !!! (i - 1)) +:+ "," +:+ str_of_nat x +:+ ")")
          (enumerate bucket_cutoffs)
      ++ [">=" +:+ str_of_nat (List.last bucket_cutoffs c0)])
  end.

(** [Bucketer.cutoff_into_bucket]; [lt] is Python's [<] on the numbers a
    bucketer uses (ints, negative ones included, and floats) *)
Fixpoint cutoff_into_bucket {A} (lt : A -> A -> bool) (bucket_cutoffs : list A) (value : A) : nat :=
  match bucket_cutoffs with
  | [] => 0
  | v :: cs => if lt value v then 0 else S (cutoff_into_bucket lt cs value)
  end.

(** Python's [<] between ints and floats, which compares exact values *)
Definition py_lt (x y : Q) : bool := negb (Qle_bool y x).

(** [FreqWordBucketer(freq_counts, freq_data=..., bucket_cutoffs, case_insensitive)];
    the two file sources are not modelled. *)
Definition FreqWordBucketer (freq_counts : option (gmap string nat))
    (freq_data : option corpus) (bucket_cutoffs : option (list nat))
    (ci : bool) : res WordBucketer :=
  let low w := if ci then lower w else w in
  let freq_counts := match freq_counts with
                     | Some fc => if decide (fc = ∅) then None else Some fc
                     | None => None
                     end in
  fc ← (match freq_counts, truthy freq_data with
        | Some fc, _ => Ok fc
        | None, Some d => Ok (Counter (map low (concat d)))
        | None, None => Raise (ValueError "Must have at least one source of frequency counts for FreqWordBucketer")
        end);
  let cutoffs := default [1; 2; 3; 4; 5; 10; 100; 1000] bucket_cutoffs in
  strs ← bucket_strs_of_cutoffs cutoffs;
  Ok (mkWordBucketer strs
        (fun w _ =>
           match w with
           | Some w => Ok (BId (cutoff_into_bucket Nat.ltb cutoffs (counter_get fc (low w))))
           | None => if ci then Raise TypeError else Ok (BId (cutoff_into_bucket Nat.ltb cutoffs 0))
           end)
        ci).

(** Sentence ranges of the arguments of [calc_statistics]: [[0..k)] and
    [[k..n)] of every parallel corpus. *)
Definition take_input (k : nat) (inp : stat_input) : stat_input :=
  mkStatInput (take k (ref inp)) (map (take k) (outs inp)) (take k <$> src inp)
    (take k <$> ref_labels inp) (map (take k) <$> out_labels inp)
    (take k <$> ref_aligns inp) (take k <$> src_labels inp).

Definition drop_input (k : nat) (inp : stat_input) : stat_input :=
  mkStatInput (drop k (ref inp)) (map (drop k) (outs inp)) (drop k <$> src inp)
    (drop k <$> ref_labels inp) (map (drop k) <$> out_labels inp)
    (drop k <$> ref_aligns inp) (drop k <$> src_labels inp).

(** Every given corpus has one entry per reference sentence. *)
Definition opt_len_ok {A} (n : nat) (o : option (list A)) : bool :=
  match o with Some l => length l =? n | None => true end.

Definition stat_input_wf (inp : stat_input) : bool :=
  let n := length (ref inp) in
  forallb (fun o => length o =? n) (outs inp) &&
  opt_len_ok n (src inp) && opt_len_ok n (ref_labels inp) &&
  match out_labels inp with
  | Some ol => forallb (fun o => length o =? n) ol
  | None => true
  end &&
  opt_len_ok n (ref_aligns inp) && opt_len_ok n (src_labels inp).

(** The body of the sentence loop of [calc_statistics], by sentence
    index *)
Definition stat_step (self : WordBucketer) (inp : stat_input)
    (acc : tally * list tally) (rsi : nat) : res (tally * list tally) :=
  my ← sentence_tally self inp rsi ((ref inp : list sentence) !! rsi)
                      (default [] (truthy (ref_labels inp)) !! rsi);
  Ok (tally_add acc.1 my, acc.2 ++ [my]).

(** A tally of [num_buckets] buckets for [num_outs] outputs *)
Definition tally_shape (num_buckets num_outs : nat) (t : tally) : Prop :=
  let '(rt, ot, om) := t in
  length rt = num_buckets /\
  length ot = num_outs /\ Forall (fun r => length r = num_buckets) ot /\
  length om = num_outs /\ Forall (fun r => length r = num_buckets) om.

End Bucket.

(** ** ngram_utils: iterate_sent_ngrams and compare_ngrams *)
Module Ngram.

(** [l[a:b]]: a negative bound counts from the end, then both bounds are
    clamped to [[0, len(l)]]. *)
Definition py_slice {A} (l : list A) (a b : Z) : list A :=
  let n := Z.of_nat (length l) in
  let norm x := if (x <? 0)%Z then Z.max 0 (x + n) else Z.min x n in
  firstn (Z.to_nat (norm b - norm a)) (skipn (Z.to_nat (norm a)) l).

(** [range(a, b)] *)
Definition py_range (a b : Z) : list Z :=
  map (fun k => a + Z.of_nat k)%Z (seq 0 (Z.to_nat (b - a))).

(** An n-gram tuple *)
Definition ngram := list string.

(** [if labels is not None and len(labels) != len(words): raise ...]
    (message abbreviated); [len(None)] is a TypeError. *)
Definition label_check (words labels : option sentence) : res unit :=
  match labels with
  | None => Ok tt
  | Some l =>
      w ← Bucket.unwrap words;
      if length l =? length w then Ok tt
      else Raise (ValueError "length of labels and sentence must be the same")
  end.

(** [iterate_sent_ngrams], its generator consumed in full: every error
    it can raise is raised before its first n-gram. *)
Definition iterate_sent_ngrams (words labels : option sentence)
    (min_length max_length : Z) : res (list (ngram * ngram)) :=
  _ ← label_check words labels;
  per_n ← Bucket.mapM
            (fun n =>
               w ← Bucket.unwrap words;
               Ok (map (fun i =>
                          let word_ngram := py_slice w i (i + n + 1) in
                          let label_ngram :=
                            match labels with
                            | Some l => py_slice l i (i + n + 1)
                            | None => word_ngram
                            end in
                          (word_ngram, label_ngram))
                       (py_range 0 (Z.of_nat (length w) - n))))
            (py_range (min_length - 1) max_length);
  Ok (concat per_n).

(** [defaultdict(lambda: 0)] keyed by n-grams *)
Definition ngram_counter := gmap ngram nat.

(** [d[w] -= 1] *)
Definition dec (cnt : ngram_counter) (w : ngram) : ngram_counter :=
  <[w := counter_get cnt w - 1]> cnt.

(** The body of the loop over the output n-grams: [total], [match],
    [over] and [ref_word_counts]. *)
Definition out_step (st : ngram_counter * ngram_counter * ngram_counter * ngram_counter)
    (wl : ngram * ngram) : ngram_counter * ngram_counter * ngram_counter * ngram_counter :=
  let '(total, match_, over, cnt) := st in
  let '(out_w, out_l) := wl in
  let total := counter_add total out_l 1 in
  if 0 <? counter_get cnt out_w
  then (total, counter_add match_ out_l 1, over, dec cnt out_w)
  else (total, match_, counter_add over out_l 1, cnt).

(** The body of the loop over the reversed reference n-grams: [under]
    and [ref_word_counts]. *)
Definition under_step (st : ngram_counter * ngram_counter) (wl : ngram * ngram)
    : ngram_counter * ngram_counter :=
  let '(under, cnt) := st in
  let '(ref_w, ref_l) := wl in
  if 0 <? counter_get cnt ref_w then (counter_add under ref_l 1, dec cnt ref_w)
  else (under, cnt).

(** [total], [match], [over], [under] *)
Definition ngram_dicts := (ngram_counter * ngram_counter * ngram_counter * ngram_counter)%type.

(** One iteration of the sentence loop of [compare_ngrams] *)
Definition compare_step (min_length max_length : Z) (d : ngram_dicts)
    (x : option sentence * option sentence * option sentence * option sentence)
    : res ngram_dicts :=
  let '(total, match_, over, under) := d in
  let '(ref_sent, out_sent, ref_lab, out_lab) := x in
  ref_ngrams ← iterate_sent_ngrams ref_sent ref_lab min_length max_length;
  let ref_word_counts := Counter (map fst ref_ngrams) in
  out_ngrams ← iterate_sent_ngrams out_sent out_lab min_length max_length;
  let '(total, match_, over, ref_word_counts) :=
    foldl out_step (total, match_, over, ref_word_counts) out_ngrams in
  let '(under, _) := foldl under_step (under, ref_word_counts) (reverse ref_ngrams) in
  Ok (total, match_, over, under).

(** [itertools.zip_longest] of four lists *)
Definition zip_longest4 {A B C D} (a : list A) (b : list B) (c : list C) (d : list D) :=
  map (fun i => (a !! i, b !! i, c !! i, d !! i))
      (seq 0 (max (length a) (max (length b) (max (length c) (length d))))).

Definition is_none {A} (o : option A) : bool :=
  match o with None => true | Some _ => false end.

Definition compare_ngrams (ref out : corpus) (ref_labels out_labels : option corpus)
    (min_length max_length : Z) : res ngram_dicts :=
  if negb (Bool.eqb (is_none ref_labels) (is_none out_labels))
  then Raise (ValueError "ref_labels or out_labels must both be either None or not None")
  else
    let ref_labels := default [] ref_labels in
    let out_labels := default [] out_labels in
    foldM (compare_step min_length max_length)
          (zip_longest4 ref out ref_labels out_labels) (∅, ∅, ∅, ∅).

(** [sum(d.values())] *)
Definition dict_sum {K} `{Countable K} (m : gmap K nat) : nat :=
  map_fold (fun _ v acc => v + acc) 0 m.

End Ngram.

(** ** align_utils and RibesScorer.score_sentence *)
Module Align.
Import Ngram.
Local Open Scope Z_scope.

(** [defaultdict(lambda: [])] keyed by space-joined n-grams *)
Abbreviation pos_dict := (gmap string (list Z)).

(** [gram_pos]: a plain dict from n-gram orders to position tables *)
Abbreviation gram_table := (gmap Z pos_dict).

(** [d[w]] on a [defaultdict(lambda: [])]; the inserted empty list is
    never observed, so the lookup is modelled without it. *)
Definition dd_get (d : pos_dict) (w : string) : list Z := default [] (d !! w).

(** [gram_pos[k]] on a plain dict *)
Definition dict_get {V} (m : gmap Z V) (k : Z) : res V :=
  match m !! k with Some v => Ok v | None => Raise KeyError end.

(** [l[k]] for any integer [k]: a negative index counts from the end. *)
Definition py_index {A} (l : list A) (k : Z) : res A :=
  let k' := if (k <? 0)%Z then (k + Z.of_nat (length l))%Z else k in
  if (k' <? 0)%Z then Raise IndexError else py_get l (Z.to_nat k').

(** [enumerate(l)] *)
Definition enumerate_z {A} (l : list A) : list (Z * A) := imap (fun i w => (Z.of_nat i, w)) l.

(** [a + ' ' + b] *)
Definition join_sp (a b : string) : string := String.append a (String.append " " b).

(** The inner loop of [_count_ngram] for the word at position [i] *)
Definition count_inner (sent : sentence) (i : Z) (st : gram_table * string) (j : Z)
    : res (gram_table * string) :=
  let '(gram_pos, word) := st in
  d ← dict_get gram_pos (j + 1);
  let gram_pos := <[j + 1 := <[word := dd_get d word ++ [i - j]]> d]> gram_pos in
  prev ← py_index sent (i - j - 1);
  Ok (gram_pos, join_sp prev word).

Definition _count_ngram (sent : sentence) (order : Z) : res gram_table :=
  let gram_pos := foldl (fun gp i => <[(i + 1)%Z := ∅]> gp) ∅ (py_range 0 order) in
  foldM (fun gram_pos '(i, word) =>
           st ← foldM (count_inner sent i) (py_range 0 (Z.min (i + 1) order)) (gram_pos, word);
           Ok st.1)
        (enumerate_z sent) gram_pos.

(** [len(ref_gram_pos[k][w]) == len(out_gram_pos[k][w]) == 1], and if
    so [ref_gram_pos[k][w][0]] *)
Definition probe (ref_gram_pos out_gram_pos : gram_table) (k : Z) (w : string)
    : res (option Z) :=
  rd ← dict_get ref_gram_pos k;
  od ← dict_get out_gram_pos k;
  let r := dd_get rd w in
  let o := dd_get od w in
  if Nat.eqb (length r) (length o) && Nat.eqb (length o) 1 then p ← py_get r 0; Ok (Some p)
  else Ok None.

(** The loop [for j in range(1, order)] with its two [break]s: the value
    appended to [worder], if any. *)
Fixpoint search (ref_gram_pos out_gram_pos : gram_table) (out : sentence) (i : Z)
    (js : list Z) (word_forward word_backward : string) : res (option Z) :=
  match js with
  | [] => Ok None
  | j :: js' =>
      b ← (if (0 <=? i - j)%Z then
             o ← py_index out (i - j);
             let word_backward := join_sp o word_backward in
             p ← probe ref_gram_pos out_gram_pos (j + 1) word_backward;
             Ok (match p with Some p => inl (p + j)%Z | None => inr word_backward end)
           else Ok (inr word_backward));
      match b with
      | inl v => Ok (Some v)
      | inr word_backward =>
          f ← (if (i + j <? Z.of_nat (length out))%Z then
                 o ← py_index out (i + j);
                 let word_forward := join_sp word_forward o in
                 p ← probe ref_gram_pos out_gram_pos (j + 1) word_forward;
                 Ok (match p with Some p => inl p | None => inr word_forward end)
               else Ok (inr word_forward));
          match f with
          | inl v => Ok (Some v)
          | inr word_forward => search ref_gram_pos out_gram_pos out i js' word_forward word_backward
          end
      end
  end.

(** One iteration of the loop over [enumerate(out)] *)
Definition align_step (ref_gram_pos out_gram_pos : gram_table) (out : sentence) (order : Z)
    (worder : list Z) (iw : Z * string) : res (list Z) :=
  let '(i, word) := iw in
  r1 ← dict_get ref_gram_pos 1;
  if Nat.eqb (length (dd_get r1 word)) 0 then Ok worder
  else
    p ← probe ref_gram_pos out_gram_pos 1 word;
    match p with
    | Some p => Ok (worder ++ [p])
    | None =>
        v ← search ref_gram_pos out_gram_pos out i (py_range 1 order) word word;
        match v with Some v => Ok (worder ++ [v]) | None => Ok worder end
    end.

Definition ngram_context_align (ref out : sentence) (order : Z) (case_insensitive : bool)
    : res (list Z) :=
  let ref := if case_insensitive then lower_sent ref else ref in
  let out := if case_insensitive then lower_sent out else out in
  let order := if (order =? -1)%Z then Z.of_nat (length ref) else order in
  ref_gram_pos ← _count_ngram ref order;
  out_gram_pos ← _count_ngram out order;
  foldM (align_step ref_gram_pos out_gram_pos out order) (enumerate_z out) [].

Record RibesScorer := mkRibesScorer {
  order : Z;
  alpha : R;
  beta : R;
  case_insensitive : bool
}.

(** [x ** y] on a non-negative float: [0.0 ** y] is [0.0] for [y > 0],
    [1.0] for [y = 0] and raises ZeroDivisionError for [y < 0]. *)
Definition py_pow (x y : R) : res R :=
  if Rlt_dec 0 x then Ok (Rpower x y)
  else if Rlt_dec 0 y then Ok 0%R
  else if Req_EM_T y 0 then Ok 1%R
  else Raise ZeroDivisionError.

Definition score_sentence (self : RibesScorer) (ref out : sentence) : res (R * option string) :=
  alignment ← ngram_context_align ref out (order self) (case_insensitive self);
  let kt_dis := Q2R (Ribes._kendall_tau_distance alignment) in
  let prec := if decide (length out = 0%nat) then 0%R
              else (INR (length alignment) / INR (length out))%R in
  let bp := if decide (length out = 0%nat) then 0%R
            else Rmin 1 (exp (1 - INR (length ref) / INR (length out))) in
  pa ← py_pow prec (alpha self);
  pb ← py_pow bp (beta self);
  Ok ((Bleu.global_scorer_scale * kt_dis * pa * pb)%R, None).

End Align.

Global Instance Ribes_Scorer : Scorer Align.RibesScorer := Align.score_sentence.


(** * Proofs *)

Section PyRuntime.

Lemma py_get_lt {A} `{Inhabited A} (l : list A) (i : nat) :
  i < length l -> py_get l i = Ok (l !!! i).
Proof.
  intros Hi. unfold py_get.
  rewrite (list_lookup_lookup_total_lt l i Hi). reflexivity.
Qed.

Lemma map_lookup_total_seq {A} `{Inhabited A} (l : list A) :
  map (fun j => l !!! j) (seq 0 (length l)) = l.
Proof.
  induction l as [|x l IH]; [reflexivity|].
  cbn [length]. rewrite <- cons_seq, map_cons. f_equal.
  rewrite <- seq_shift, map_map. exact IH.
Qed.

End PyRuntime.

Module BleuProofs.
Import Bleu.

Lemma foldM_loop_step (self : BleuScorer) (c : list stat) (ids : list nat) (a : acc) :
  Forall (fun i => i < length c) ids ->
  foldM (loop_step self c) ids a = foldM (add_stat self) (map (fun i => c !!! i) ids) a.
Proof.
  revert a. induction ids as [|i ids IH]; intros a Hall; [reflexivity|].
  apply Forall_cons in Hall as [Hi Hall].
  cbn [foldM map]. unfold loop_step. rewrite (py_get_lt c i Hi). cbn.
  destruct (add_stat self a (c !!! i)); [apply IH; exact Hall|reflexivity].
Qed.

Lemma cache_stats_length (self : BleuScorer) (ref out : corpus) :
  length ref = length out -> length (cache_stats self ref out) = length ref.
Proof.
  intros Hl. unfold cache_stats. rewrite length_map, length_zip_with.
  destruct (case_insensitive self); unfold lower_corpus;
    rewrite ?length_map; lia.
Qed.

Lemma cache_stats_lookup (self : BleuScorer) (ref out : corpus) (i : nat) :
  i < length ref -> i < length out ->
  cache_stats self ref out !! i =
    Some (sent_stats self
      (if case_insensitive self then lower_sent (ref !!! i) else ref !!! i,
       if case_insensitive self then lower_sent (out !!! i) else out !!! i)).
Proof.
  revert out i. induction ref as [|r ref IH]; intros out i Hr Ho;
    [simpl in Hr; lia|].
  destruct out as [|o out]; [simpl in Ho; lia|].
  destruct i as [|i].
  - unfold cache_stats. destruct (case_insensitive self); reflexivity.
  - cbn [length] in Hr, Ho.
    specialize (IH out i ltac:(lia) ltac:(lia)).
    unfold cache_stats in *. destruct (case_insensitive self); exact IH.
Qed.

Lemma cache_stats_cons (self : BleuScorer) r o ref out :
  cache_stats self (r :: ref) (o :: out) =
    sent_stats self
      (if case_insensitive self then lower_sent r else r,
       if case_insensitive self then lower_sent o else o)
    :: cache_stats self ref out.
Proof. unfold cache_stats. destruct (case_insensitive self); reflexivity. Qed.

(** The statistics cached for a sub-corpus are the statistics of the
    full corpus at the chosen indices. *)
Lemma cache_stats_sub (self : BleuScorer) (ref out : corpus) (S : list nat) :
  length ref = length out -> Forall (fun i => i < length ref) S ->
  cache_stats self (map (fun i => ref !!! i) S) (map (fun i => out !!! i) S)
  = map (fun i => cache_stats self ref out !!! i) S.
Proof.
  intros Hl. induction S as [|i S IH]; intros Hall.
  { unfold cache_stats. destruct (case_insensitive self); reflexivity. }
  apply Forall_cons in Hall as [Hi Hall].
  cbn [map]. rewrite cache_stats_cons, IH by exact Hall. f_equal.
  symmetry. apply list_lookup_total_correct.
  apply cache_stats_lookup; lia.
Qed.

Lemma score_cached_corpus_cons (self : BleuScorer) ids (c : list stat) :
  c <> [] ->
  score_cached_corpus self ids c =
    (a ← foldM (loop_step self c) ids acc0;
     if decide (counter_get (num_prec a) 1 = 0) then Ok (0%R, None)
     else py_exp (log_prec self a) ≫= fun e =>
          Ok ((global_scorer_scale * brevity a * e)%R, None)).
Proof. destruct c; [congruence|reflexivity]. Qed.

(** C1: for equal-length corpora [ref] and [out] and any list [S] of
    in-range sentence indices, [BleuScorer.score_cached_corpus(S,
    cache_stats(ref, out))] is exactly [score_corpus] on the sub-corpora
    [[ref[i] for i in S]] and [[out[i] for i in S]]; and over all indices it
    is [score_corpus(ref, out)] (the empty corpus included). *)
Theorem bleu_cache_replay_exact (self : BleuScorer) (ref out : corpus) (S : list nat)
  (Hlen : length ref = length out)
  (HS : Forall (fun i => i < length ref) S) :
  score_cached_corpus self S (cache_stats self ref out)
    = score_corpus self (map (fun i => ref !!! i) S) (map (fun i => out !!! i) S)
  /\ score_cached_corpus self (seq 0 (length ref)) (cache_stats self ref out)
    = score_corpus self ref out.
Proof.
  split; [|reflexivity].
  unfold score_corpus. rewrite length_map, (cache_stats_sub self ref out S Hlen HS).
  set (c := cache_stats self ref out).
  assert (Hc : length c = length ref) by (apply cache_stats_length; exact Hlen).
  destruct S as [|i S'].
  - destruct c; reflexivity.
  - assert (Hne : c <> []).
    { intros E. apply Forall_cons in HS as [Hi _].
      rewrite E in Hc. simpl in Hc. lia. }
    set (c' := map (fun j => c !!! j) (i :: S')).
    rewrite (score_cached_corpus_cons self _ c Hne).
    rewrite (score_cached_corpus_cons self _ c') by (unfold c'; discriminate).
    rewrite (foldM_loop_step self c (i :: S')).
    2:{ eapply Forall_impl; [exact HS|]. intros j Hj; cbv beta in *; lia. }
    fold c'.
    replace (length (i :: S')) with (length c') by (unfold c'; apply length_map).
    rewrite foldM_loop_step.
    2:{ apply Forall_forall. intros j Hj. apply elem_of_seq in Hj. lia. }
    rewrite map_lookup_total_seq. reflexivity.
Qed.

Lemma bleu_cache_replay_exact_witness :
  let self := mkBleuScorer [0.25%R; 0.25%R; 0.25%R; 0.25%R] false in
  let ref : corpus := [["a"; "b"; "c"]; []; ["d"]] in
  let out : corpus := [["a"; "b"; "d"]; ["x"]; ["d"]] in
  length ref = length out /\
  score_cached_corpus self [2; 0; 2] (cache_stats self ref out)
    = score_corpus self (map (fun i => ref !!! i) [2; 0; 2])
                        (map (fun i => out !!! i) [2; 0; 2]).
Proof.
  intros self ref out. split; [reflexivity|].
  refine (proj1 (bleu_cache_replay_exact self ref out [2; 0; 2] eq_refl _)).
  repeat constructor.
Defined.

Lemma py_exp_nonpos (x : R) : (x <= 0)%R -> py_exp x = Ok (exp x).
Proof.
  intros Hx. unfold py_exp. destruct (Rle_dec _ _) as [H|H]; [|reflexivity].
  exfalso. assert (Hb : (1 < IZR (2 ^ 1024 - 2 ^ 970))%R) by (apply IZR_lt; vm_compute; reflexivity).
  assert (He : (exp x <= 1)%R).
  { rewrite <- exp_0. destruct (Req_dec x 0) as [->|Hne]; [apply Rle_refl|].
    apply Rlt_le, exp_increasing. lra. }
  lra.
Qed.

End BleuProofs.

Module SignProofs.
Import Sign.

Lemma py_int_nonneg (x : Q) : (0 <= x)%Q -> (0 <= py_int x)%Z.
Proof.
  intros Hx. unfold py_int. unfold Qle in Hx. simpl in Hx.
  apply Z.quot_pos; lia.
Qed.

Lemma round_half_even_nonneg (num den : Z) :
  (0 <= num)%Z -> (0 < den)%Z -> (0 <= round_half_even num den)%Z.
Proof.
  intros Hn Hd. unfold round_half_even.
  pose proof (Z.div_pos num den Hn Hd).
  destruct (Z.compare _ _); [destruct (Z.even _)|..]; lia.
Qed.

Lemma pow2_pos (e : Z) : (0 < pow2 e)%Q.
Proof.
  unfold pow2. destruct (Z.leb_spec 0 e).
  - unfold Qlt; cbn. pose proof (Z.pow_pos_nonneg 2 e ltac:(lia) H). lia.
  - unfold Qlt; cbn. lia.
Qed.

Lemma round_pos_nonneg (p q : Z) (v : Q) :
  (0 <= p)%Z -> (0 < q)%Z -> round_pos p q = Some v -> (0 <= v)%Q.
Proof.
  intros Hp Hq. unfold round_pos.
  set (t0 := (Z.log2 p - Z.log2 q)%Z).
  set (top := if (0 <=? t0)%Z then _ else _).
  set (e := Z.max (top - 52) (-1074)).
  assert (Hm : (0 <= (if (0 <=? e)%Z then round_half_even p (q * 2 ^ e)
                      else round_half_even (p * 2 ^ (- e)) q))%Z).
  { destruct (Z.leb_spec 0 e).
    - apply round_half_even_nonneg; [lia|].
      pose proof (Z.pow_pos_nonneg 2 e ltac:(lia) H). lia.
    - apply round_half_even_nonneg; [|lia].
      pose proof (Z.pow_pos_nonneg 2 (- e) ltac:(lia) ltac:(lia)). lia. }
  set (m := if (0 <=? e)%Z then _ else _) in *.
  destruct (Qle_bool _ _); [discriminate|].
  intros Hv. injection Hv as <-.
  apply Qmult_le_0_compat; [|apply Qlt_le_weak, pow2_pos].
  unfold Qle; cbn. lia.
Qed.

Lemma round64_nonneg (x v : Q) : (0 <= x)%Q -> round64 x = Some v -> (0 <= v)%Q.
Proof.
  intros Hx. unfold round64.
  destruct (Qnum x) as [|p|p] eqn:E.
  - intros Hv. injection Hv as <-. apply Qle_refl.
  - apply round_pos_nonneg; lia.
  - unfold Qle in Hx. cbn in Hx. rewrite E in Hx. lia.
Qed.

Lemma sample_size_nonneg (n : nat) (r : Q) (k : Z) :
  (0 <= r)%Q -> sample_size n r = Ok k -> (0 <= k)%Z.
Proof.
  intros Hr. unfold sample_size, py_float_of_int.
  destruct (round64 (inject_Z (Z.of_nat n))) as [fn|] eqn:Efn; [|discriminate].
  cbn [mbind res_bind]. unfold py_int_float, py_fmul.
  destruct (round64 (fn * r)%Q) as [x|] eqn:Ex; [|discriminate].
  intros Hk. injection Hk as <-. apply py_int_nonneg.
  apply (round64_nonneg (fn * r)%Q); [|exact Ex].
  apply Qmult_le_0_compat; [|exact Hr].
  apply (round64_nonneg (inject_Z (Z.of_nat n))); [|exact Efn].
  unfold Qle; cbn. lia.
Qed.

Lemma reduced_ids_ok (ids : list nat) (r : Q) (d : list nat) :
  reduced_ids ids r = Ok d ->
  exists k, sample_size (length ids) r = Ok k /\ d = py_prefix ids k.
Proof.
  unfold reduced_ids. destruct (sample_size (length ids) r) as [k|e]; [|discriminate].
  cbn. intros H. injection H as <-. exists k. split; reflexivity.
Qed.

Lemma py_prefix_firstn {A} (l : list A) (k : Z) : exists j, py_prefix l k = firstn j l.
Proof. unfold py_prefix. destruct (0 <=? k)%Z; eexists; reflexivity. Qed.

Lemma reduced_ids_props (n : nat) (ids : list nat) (r : Q) (d : list nat) :
  Permutation (seq 0 n) ids -> reduced_ids ids r = Ok d ->
  NoDup d /\ Forall (fun i => i < n) d.
Proof.
  intros Hp Hd. apply reduced_ids_ok in Hd as (k & _ & ->).
  destruct (py_prefix_firstn ids k) as [j ->].
  assert (Hnd : NoDup ids) by (rewrite <- Hp; apply NoDup_seq).
  split.
  - rewrite <- (take_drop j ids) in Hnd. apply NoDup_app in Hnd. tauto.
  - apply Forall_take. apply Forall_forall. intros i Hi.
    rewrite <- Hp in Hi. apply elem_of_seq in Hi. lia.
Qed.

Lemma bootstrap_draws_props (n : nat) (r : Q) (k : nat) (ids : list nat)
    (ds : list (list nat)) :
  bootstrap_draws r k ids ds -> Permutation (seq 0 n) ids ->
  length ds = k
  /\ Forall (fun d => NoDup d /\ Forall (fun i => i < n) d) ds.
Proof.
  intros Hd. induction Hd as [ids|k ids ids' d ds Hperm Hr Hd IH]; intros Hp.
  - split; [reflexivity|constructor].
  - assert (Hp' : Permutation (seq 0 n) ids') by (etransitivity; eassumption).
    destruct (IH Hp') as [IHl IHf]. split; [simpl; lia|].
    constructor; [|exact IHf].
    exact (reduced_ids_props n ids' r d Hp' Hr).
Qed.

Lemma bootstrap_draws_size (n : nat) (r : Q) (k : nat) (ids : list nat)
    (ds : list (list nat)) :
  (0 <= r)%Q -> bootstrap_draws r k ids ds -> Permutation (seq 0 n) ids ->
  Forall (fun d => exists m, sample_size n r = Ok m /\ length d = Nat.min (Z.to_nat m) n) ds.
Proof.
  intros Hr Hd. induction Hd as [ids|k ids ids' d ds Hperm Hrd Hd IH]; intros Hp.
  - constructor.
  - assert (Hp' : Permutation (seq 0 n) ids') by (etransitivity; eassumption).
    constructor; [|exact (IH Hp')].
    assert (Hlen : length ids' = n) by (rewrite <- (Permutation_length Hp'); apply length_seq).
    apply reduced_ids_ok in Hrd as (m & Hm & ->). rewrite Hlen in Hm.
    exists m. split; [exact Hm|].
    pose proof (sample_size_nonneg n r m Hr Hm) as Hm0.
    unfold py_prefix. destruct (Z.leb_spec 0 m); [|lia].
    rewrite length_firstn, Hlen. lia.
Qed.

Lemma reduced_ids_three_half (ids : list nat) :
  length ids = 3 -> reduced_ids ids (1#2) = Ok (firstn 1 ids).
Proof.
  intros Hl. unfold reduced_ids. rewrite Hl. vm_compute (sample_size 3 (1#2)).
  reflexivity.
Qed.

Lemma eval_draws_three_half (ds : list (list nat)) :
  eval_draws 3 (1#2) 1 ds -> Forall (fun d => length d = 1) ds.
Proof.
  unfold eval_draws. intros Hd. inversion Hd as [|k ids ids' d ds' Hp Hr Hd' Hk Hids Hds].
  subst. inversion Hd'; subst. constructor; [|constructor].
  assert (Hl : length ids' = 3) by (rewrite <- (Permutation_length Hp); reflexivity).
  rewrite reduced_ids_three_half in Hr by exact Hl. injection Hr as <-.
  rewrite length_firstn, Hl. reflexivity.
Qed.

Lemma eval_draws_three_half_example : eval_draws 3 (1#2) 1 [[0]].
Proof.
  unfold eval_draws.
  apply (draws_round _ 0 (seq 0 3) (seq 0 3) [0] []); [reflexivity|vm_compute; reflexivity|constructor].
Qed.

(** C2 (code bug): the rounds of [eval_with_paired_bootstrap] do not
    resample with replacement. Each round scores a prefix of the shuffled
    shared [ids], so no round ever holds a repeated id; and for [n = 3],
    [sample_ratio = 0.5] a round scores [int(3 * 0.5) = 1] id, not
    [ceil(3 * 0.5) = 2]. *)
Theorem bootstrap_draw_not_with_replacement :
  (forall n r k ds, eval_draws n r k ds ->
     length ds = k /\ Forall (fun d => NoDup d /\ Forall (fun i => i < n) d) ds)
  /\ eval_draws 3 (1#2) 1 [[0]]
  /\ (forall ds, eval_draws 3 (1#2) 1 ds -> Forall (fun d => length d = 1) ds)
  /\ Z.to_nat (Qceiling (inject_Z (Z.of_nat 3) * (1#2))) = 2.
Proof.
  split; [|split; [exact eval_draws_three_half_example|split]].
  - intros n r k ds Hd. exact (bootstrap_draws_props n r k (seq 0 n) ds Hd (Permutation_refl _)).
  - exact eval_draws_three_half.
  - vm_compute. reflexivity.
Qed.

(** For a non-negative [sample_ratio], every round of
    [eval_with_paired_bootstrap] scores [min(int(float(n) * sample_ratio), n)]
    ids, the product rounded as a binary64 float. *)
Theorem bootstrap_draw_size (n : nat) (r : Q) (k : nat) (ds : list (list nat)) :
  (0 <= r)%Q -> eval_draws n r k ds ->
  Forall (fun d => exists m, sample_size n r = Ok m /\ length d = Nat.min (Z.to_nat m) n) ds.
Proof.
  intros Hr Hd. exact (bootstrap_draws_size n r k (seq 0 n) ds Hr Hd (Permutation_refl _)).
Qed.

Lemma bootstrap_draw_size_witness :
  (0 <= 3152519739159347 # 4503599627370496)%Q /\
  eval_draws 10 (3152519739159347 # 4503599627370496) 1 [seq 0 7] /\
  Forall (fun d => exists m, sample_size 10 (3152519739159347 # 4503599627370496) = Ok m
                             /\ length d = Nat.min (Z.to_nat m) 10) [seq 0 7].
Proof.
  assert (Hr : (0 <= 3152519739159347 # 4503599627370496)%Q) by (unfold Qle; cbn; lia).
  assert (Hd : eval_draws 10 (3152519739159347 # 4503599627370496) 1 [seq 0 7]).
  { unfold eval_draws.
    apply (draws_round _ 0 (seq 0 10) (seq 0 10) (seq 0 7) []);
      [reflexivity|vm_compute; reflexivity|constructor]. }
  split; [exact Hr|]. split; [exact Hd|].
  exact (bootstrap_draw_size 10 _ 1 [seq 0 7] Hr Hd).
Defined.

End SignProofs.

Module RibesProofs.
Import Ribes.

Lemma fold_count (f : nat -> bool) (l : list nat) (d : nat) :
  fold_left (fun d j => if f j then d + 1 else d) l d = d + length (List.filter f l).
Proof.
  revert d. induction l as [|j l IH]; intros d; simpl; [lia|].
  destruct (f j); rewrite IH; simpl; lia.
Qed.

Lemma filter_pairs_above (P : nat -> nat -> bool) (i : nat) (l : list nat) :
  Forall (fun j => i < j) l ->
  length (List.filter (fun ij => (fst ij <? snd ij) && P (fst ij) (snd ij))
                      (map (pair i) l))
  = length (List.filter (P i) l).
Proof.
  induction l as [|j l IH]; intros Hl; [reflexivity|].
  apply Forall_cons in Hl as [Hj Hl]. simpl.
  destruct (Nat.ltb_spec i j); [|lia]. simpl.
  destruct (P i j); simpl; rewrite IH by exact Hl; reflexivity.
Qed.

Lemma filter_pairs_row (P : nat -> nat -> bool) (n i : nat) :
  i < n ->
  length (List.filter (fun ij => (fst ij <? snd ij) && P (fst ij) (snd ij))
                      (map (pair i) (seq 0 n)))
  = length (List.filter (P i) (seq (i + 1) (n - (i + 1)))).
Proof.
  intros Hi.
  replace (seq 0 n) with (seq 0 (i + 1) ++ seq (0 + (i + 1)) (n - (i + 1)))
    by (rewrite <- seq_app; f_equal; lia).
  rewrite map_app, List.filter_app, length_app.
  assert (H0 : List.filter (fun ij => (fst ij <? snd ij) && P (fst ij) (snd ij))
                 (map (pair i) (seq 0 (i + 1))) = []).
  { assert (Hle : Forall (fun j => j <= i) (seq 0 (i + 1))).
    { apply Forall_forall. intros j Hj. apply elem_of_seq in Hj. lia. }
    induction (seq 0 (i + 1)) as [|j l IH]; [reflexivity|].
    apply Forall_cons in Hle as [Hj Hle]. simpl.
    destruct (Nat.ltb_spec i j); [lia|]. exact (IH Hle). }
  rewrite H0. simpl.
  apply filter_pairs_above. apply Forall_forall. intros j Hj.
  apply elem_of_seq in Hj. lia.
Qed.

(** The double loop of [_kendall_tau_distance] counts the pairs [i < j]
    with [P i j]. *)
Lemma double_loop_count (P : nat -> nat -> bool) (n : nat) (l : list nat) (d : nat) :
  Forall (fun i => i < n) l ->
  fold_left
    (fun dis i =>
       fold_left (fun dis j => if P i j then dis + 1 else dis)
                 (seq (i + 1) (n - (i + 1))) dis) l d
  = d + length (List.filter (fun ij => (fst ij <? snd ij) && P (fst ij) (snd ij))
                            (list_prod l (seq 0 n))).
Proof.
  revert d. induction l as [|i l IH]; intros d Hl; [simpl; lia|].
  apply Forall_cons in Hl as [Hi Hl].
  cbn [fold_left list_prod].
  rewrite (fold_count (P i)), IH by exact Hl.
  change (map (fun y => (i, y)) (seq 0 n)) with (map (pair i) (seq 0 n)).
  rewrite List.filter_app, length_app, filter_pairs_row by exact Hi. lia.
Qed.

(** C3 (as the code does it): [_kendall_tau_distance] is 0 for an
    alignment of length [n <= 1], and for [n >= 2] it is
    [2 * #(pairs i < j with alignment[j] > alignment[i]) / (n^2 - n)]:
    the pairs it counts are the ascending (concordant) ones. *)
Theorem kendall_counts_ascending_pairs (alignment : list Z) :
  _kendall_tau_distance alignment =
    (let n := length alignment in
     if n <=? 1 then 0%Q
     else (inject_Z (2 * Z.of_nat (ascending_pairs alignment))
           / inject_Z (Z.of_nat (n * n - n)))%Q).
Proof.
  unfold _kendall_tau_distance, ascending_pairs, count_pairs. cbv zeta.
  destruct (length alignment <=? 1); [reflexivity|].
  rewrite (double_loop_count (fun i j => (alignment !!! i <? alignment !!! j)%Z)).
  - reflexivity.
  - apply Forall_forall. intros i Hi. apply elem_of_seq in Hi. lia.
Qed.

(** C3 as stated fails: on the ascending alignment [[0; 1]] the code
    returns [1], while [2 * #discordant / (n^2 - n)] is [0]. *)
Lemma kendall_discordant_counterexample :
  _kendall_tau_distance [0%Z; 1%Z] == 1%Q
  /\ spec_rank_correlation [0%Z; 1%Z] == 0%Q
  /\ ~ (_kendall_tau_distance [0%Z; 1%Z] == spec_rank_correlation [0%Z; 1%Z]).
Proof.
  split; [|split].
  - vm_compute. reflexivity.
  - vm_compute. reflexivity.
  - vm_compute. discriminate.
Qed.

End RibesProofs.

Module StatProofs.
Import Stat.

Section SalienceProofs.
Context {K : Type} `{Countable K}.

Lemma count_q_nonneg (d : gmap K nat) (k : K) : (0 <= count_q d k)%Q.
Proof. unfold count_q, Qle. simpl. lia. Qed.

Lemma salience_denominator_pos (dict1 dict2 : gmap K nat) (alpha : Q) (k : K) :
  (0 < alpha)%Q -> (0 < count_q dict1 k + count_q dict2 k + 2 * alpha)%Q.
Proof.
  intros Ha. pose proof (count_q_nonneg dict1 k). pose proof (count_q_nonneg dict2 k).
  apply (Qlt_le_trans _ (2 * alpha)).
  - apply (Qmult_lt_l 0 alpha 2) in Ha; [|reflexivity]. rewrite Qmult_0_r in Ha. exact Ha.
  - rewrite <- (Qplus_0_l (2 * alpha)) at 1. apply Qplus_le_compat; [|apply Qle_refl].
    rewrite <- (Qplus_0_l 0). apply Qplus_le_compat; assumption.
Qed.

Lemma foldM_salience (dict1 dict2 : gmap K nat) (alpha : Q) (l : list K)
    (m : gmap K Q) :
  (0 < alpha)%Q ->
  exists m', foldM (salience_step dict1 dict2 alpha) l m = Ok m'
    /\ forall k, (k ∈ l -> m' !! k = Some (salience_value dict1 dict2 alpha k))
           /\ (k ∉ l -> m' !! k = m !! k).
Proof.
  intros Ha. revert m. induction l as [|x l IH]; intros m.
  - exists m. split; [reflexivity|]. intros k. split; [intros Hk; inversion Hk|reflexivity].
  - cbn [foldM]. unfold salience_step, py_div.
    pose proof (salience_denominator_pos dict1 dict2 alpha x Ha) as Hd.
    destruct (Qeq_bool _ 0) eqn:E.
    { apply Qeq_bool_eq in E. rewrite E in Hd. discriminate. }
    cbn. destruct (IH (<[x := salience_value dict1 dict2 alpha x]> m)) as [m' [Hm' Hk]].
    exists m'. split; [exact Hm'|]. intros k. split.
    + intros Hin. apply elem_of_cons in Hin.
      destruct (decide (k ∈ l)) as [Hl|Hl]; [apply Hk; exact Hl|].
      destruct Hin as [->|Hin]; [|contradiction].
      rewrite (proj2 (Hk x) Hl). apply lookup_insert_eq.
    + intros Hnin. apply not_elem_of_cons in Hnin as [Hne Hnl].
      rewrite (proj2 (Hk k) Hnl). apply lookup_insert_ne. congruence.
Qed.

(** C4: for count dictionaries [A], [B], a smoothing constant
    [alpha > 0] and a key [k] present in both, both calls of
    [extract_salient_features] succeed, the score of [k] is
    [(A[k] + alpha) / (A[k] + B[k] + 2*alpha)], and the scores of [k] in
    [extract_salient_features(A, B, alpha)] and
    [extract_salient_features(B, A, alpha)] sum to exactly 1. *)
Theorem salience_swap_sums_to_one (A B : gmap K nat) (alpha : Q) (k : K)
    (Ha : (0 < alpha)%Q) (HA : k ∈ dom A) (HB : k ∈ dom B) :
  exists s1 s2 x y,
    extract_salient_features A B alpha = Ok s1
    /\ extract_salient_features B A alpha = Ok s2
    /\ s1 !! k = Some x /\ s2 !! k = Some y
    /\ (x + y == 1)%Q
    /\ (x == (count_q A k + alpha) / (count_q A k + count_q B k + 2 * alpha))%Q.
Proof.
  unfold extract_salient_features.
  destruct (foldM_salience A B alpha (elements (dom A ∪ dom B)) ∅ Ha) as [s1 [E1 H1]].
  destruct (foldM_salience B A alpha (elements (dom B ∪ dom A)) ∅ Ha) as [s2 [E2 H2]].
  exists s1, s2, (salience_value A B alpha k), (salience_value B A alpha k).
  assert (Hk1 : k ∈ elements (dom A ∪ dom B)) by (apply elem_of_elements; set_solver).
  assert (Hk2 : k ∈ elements (dom B ∪ dom A)) by (apply elem_of_elements; set_solver).
  split; [exact E1|]. split; [exact E2|].
  split; [apply (proj1 (H1 k) Hk1)|]. split; [apply (proj1 (H2 k) Hk2)|].
  split; [|reflexivity].
  unfold salience_value.
  pose proof (salience_denominator_pos A B alpha k Ha) as D1.
  pose proof (salience_denominator_pos B A alpha k Ha) as D2.
  field. intros E. apply (Qlt_not_eq _ _ D2). symmetry. exact E.
Qed.

End SalienceProofs.

Lemma salience_swap_sums_to_one_witness :
  let A : gmap (list string) nat := {[ ["x"] := 5; ["y"] := 2 ]} in
  let B : gmap (list string) nat := {[ ["x"] := 1 ]} in
  (0 < 1)%Q /\ ["x"] ∈ dom A /\ ["x"] ∈ dom B /\
  exists s1 s2 x y,
    extract_salient_features A B 1 = Ok s1
    /\ extract_salient_features B A 1 = Ok s2
    /\ s1 !! ["x"] = Some x /\ s2 !! ["x"] = Some y
    /\ (x + y == 1)%Q
    /\ (x == (count_q A ["x"] + 1) / (count_q A ["x"] + count_q B ["x"] + 2 * 1))%Q.
Proof.
  intros A B.
  assert (H1 : (0 < 1)%Q) by reflexivity.
  assert (HA : ["x"] ∈ dom A) by (apply elem_of_dom; eexists; reflexivity).
  assert (HB : ["x"] ∈ dom B) by (apply elem_of_dom; eexists; reflexivity).
  split; [exact H1|]. split; [exact HA|]. split; [exact HB|].
  exact (salience_swap_sums_to_one A B 1 ["x"] H1 HA HB).
Defined.

End StatProofs.

Module WERProofs.
Import WER Lev.

Lemma min3_min (s d i : Z) : min3 s d i = Z.min (Z.min s d) i.
Proof.
  unfold min3. destruct (Z.ltb_spec d s).
  - destruct (Z.ltb_spec i d); lia.
  - destruct (Z.ltb_spec i s); lia.
Qed.

Lemma lev_cons_cons (x : string) (a : list string) (y : string) (b : list string) :
  lev (x :: a) (y :: b)
  = min3 (lev a b + (if String.eqb x y then 0 else 1)) (lev a (y :: b) + 1)
         (lev (x :: a) b + 1).
Proof. reflexivity. Qed.

Lemma lev_nonneg (a b : list string) : (0 <= lev a b)%Z.
Proof.
  revert b. induction a as [|x a IHa]; intros b; [simpl; lia|].
  induction b as [|y b IHb]; [simpl; lia|].
  rewrite lev_cons_cons, min3_min.
  specialize (IHa b) as H1. specialize (IHa (y :: b)) as H2.
  destruct (String.eqb x y); lia.
Qed.

Lemma lev_sym (a b : list string) : lev a b = lev b a.
Proof.
  revert b. induction a as [|x a IHa]; intros b.
  - destruct b as [|y b]; [reflexivity|]. simpl. lia.
  - induction b as [|y b IHb].
    + simpl. lia.
    + rewrite !lev_cons_cons, !min3_min, (IHa b), (IHa (y :: b)), IHb, String.eqb_sym. lia.
Qed.

Lemma lev_refl (a : list string) : lev a a = 0%Z.
Proof.
  induction a as [|x a IHa]; [reflexivity|].
  rewrite lev_cons_cons, min3_min, IHa, String.eqb_refl.
  pose proof (lev_nonneg a (x :: a)). pose proof (lev_nonneg (x :: a) a). lia.
Qed.

(** Unit-penalty arithmetic on integral floats is integer arithmetic. *)
Lemma Qplus_inject_Z (a b : Z) : (inject_Z a + inject_Z b)%Q = inject_Z (a + b).
Proof. unfold Qplus, inject_Z. simpl. f_equal. ring. Qed.

Lemma Qmult_inject_Z_1 (a : Z) : (inject_Z a * 1)%Q = inject_Z a.
Proof. unfold Qmult, inject_Z. simpl. f_equal. ring. Qed.

Lemma Qltb_inject_Z (a b : Z) : Qltb (inject_Z a) (inject_Z b) = (a <? b)%Z.
Proof.
  unfold Qltb, Qle_bool, inject_Z. simpl. rewrite !Z.mul_1_r.
  rewrite Z.leb_antisym. apply negb_involutive.
Qed.

Lemma next_row_unit (ci : bool) (r : string) (out : list string) (prev : list Z) (left : Z) :
  next_row (mkWERScorer 1 1 1 ci) r out (map inject_Z prev) (inject_Z left)
  = map inject_Z (next_rowZ r out prev left).
Proof.
  revert prev left. induction out as [|o out IH]; intros prev left; [reflexivity|].
  destruct prev as [|p0 [|p1 prev]]; [reflexivity|reflexivity|].
  cbn [next_row next_rowZ map sub_pen del_pen ins_pen].
  change 1%Q with (inject_Z 1).
  rewrite Qmult_inject_Z_1.
  replace (inject_Z (if String.eqb r o then 0%Z else 1%Z))
    with (inject_Z (if String.eqb r o then 0%Z else 1%Z)) by reflexivity.
  rewrite !Qplus_inject_Z, !Qltb_inject_Z.
  set (s := (p0 + (if String.eqb r o then 0 else 1))%Z).
  assert (Hv : (if (left + 1 <? (if (p1 + 1 <? s)%Z then (p1 + 1)%Z else s))%Z
                then inject_Z (left + 1)
                else (if (p1 + 1 <? s)%Z then inject_Z (p1 + 1) else inject_Z s))
               = inject_Z (min3 s (p1 + 1) (left + 1))).
  { unfold min3. destruct (p1 + 1 <? s)%Z; destruct (left + 1 <? _)%Z; reflexivity. }
  destruct (p1 + 1 <? s)%Z eqn:E1; rewrite ?Qltb_inject_Z.
  - unfold min3 in *. rewrite E1 in *.
    destruct (left + 1 <? p1 + 1)%Z eqn:E2;
      [rewrite <- IH; reflexivity|rewrite <- IH; reflexivity].
  - unfold min3 in *. rewrite E1 in *.
    destruct (left + 1 <? s)%Z eqn:E2;
      [rewrite <- IH; reflexivity|rewrite <- IH; reflexivity].
Qed.

(** One row of the table, in terms of [lev]: the entries already
    computed to the left are the distances to [rev (firstn k rest) ++ bd]. *)
Lemma next_rowZ_lev (x : string) (a : list string) (rest bd : list string) :
  next_rowZ x rest
    (lev a bd :: map (fun k => lev a (rev (firstn k rest) ++ bd)) (seq 1 (length rest)))
    (lev (x :: a) bd)
  = map (fun k => lev (x :: a) (rev (firstn k rest) ++ bd)) (seq 1 (length rest)).
Proof.
  revert bd. induction rest as [|o rest IH]; intros bd; [reflexivity|].
  cbn [length]. rewrite <- (cons_seq (length rest) 1).
  assert (Hsh : forall (c : list string),
    map (fun k => lev c (rev (firstn k (o :: rest)) ++ bd)) (seq 2 (length rest))
    = map (fun k => lev c (rev (firstn k rest) ++ o :: bd)) (seq 1 (length rest))).
  { intros c. rewrite <- (seq_shift (length rest) 1), map_map. apply map_ext. intros k.
    cbn [firstn rev]. rewrite <- app_assoc. reflexivity. }
  cbn [map]. rewrite !Hsh.
  cbn [next_rowZ firstn rev app]. rewrite <- lev_cons_cons.
  f_equal. apply IH.
Qed.

Lemma lev_row_cons (x : string) (a out : list string) :
  Z.of_nat (length a + 1) :: next_rowZ x out (lev_row a out) (Z.of_nat (length a + 1))
  = lev_row (x :: a) out.
Proof.
  unfold lev_row. replace (length out + 1) with (S (length out)) by lia.
  rewrite <- (cons_seq (length out) 0). cbn [map firstn rev].
  assert (Hnil : forall c, map (fun k => lev c (rev (firstn k out))) (seq 1 (length out))
                 = map (fun k => lev c (rev (firstn k out) ++ [])) (seq 1 (length out))).
  { intros c. apply map_ext. intros k. rewrite app_nil_r. reflexivity. }
  rewrite !Hnil.
  change (Z.of_nat (length a + 1)) with (lev (x :: a) []).
  f_equal. apply next_rowZ_lev.
Qed.

Lemma dp_rows_lev (ci : bool) (ref a out : list string) :
  dp_rows (mkWERScorer 1 1 1 ci) ref (length a) out (map inject_Z (lev_row a out))
  = map inject_Z (lev_row (rev ref ++ a) out).
Proof.
  revert a. induction ref as [|r ref IH]; intros a; [reflexivity|].
  cbn [dp_rows]. rewrite next_row_unit.
  change (inject_Z (Z.of_nat (length a + 1))
          :: map inject_Z (next_rowZ r out (lev_row a out) (Z.of_nat (length a + 1))))
    with (map inject_Z (Z.of_nat (length a + 1)
          :: next_rowZ r out (lev_row a out) (Z.of_nat (length a + 1)))).
  rewrite lev_row_cons.
  change (S (length a)) with (length (r :: a)). rewrite IH.
  cbn [rev]. rewrite <- app_assoc. reflexivity.
Qed.

Lemma last_lev_row (a out : list string) :
  List.last (lev_row a out) 0%Z = lev a (rev out).
Proof.
  unfold lev_row. rewrite seq_app, map_app. cbn [seq map].
  rewrite last_last, Nat.add_0_l, firstn_all. reflexivity.
Qed.

Lemma last_map_inject_Z (l : list Z) :
  List.last (map inject_Z l) 0%Q = inject_Z (List.last l 0%Z).
Proof.
  induction l as [|z l IH]; [reflexivity|].
  destruct l as [|z' l]; [reflexivity|].
  cbn [map]. change (List.last (inject_Z z :: inject_Z z' :: map inject_Z l) 0%Q)
    with (List.last (inject_Z z' :: map inject_Z l) 0%Q).
  change (List.last (z :: z' :: l) 0%Z) with (List.last (z' :: l) 0%Z).
  exact IH.
Qed.

(** With unit penalties the table's last cell is the recursive distance. *)
Lemma edit_distance_lev (ci : bool) (ref out : sentence) :
  _edit_distance (mkWERScorer 1 1 1 ci) ref out
  = inject_Z (lev (rev (if ci then lower_sent ref else ref))
                  (rev (if ci then lower_sent out else out))).
Proof.
  unfold _edit_distance. cbn [case_insensitive].
  set (ref' := if ci then lower_sent ref else ref).
  set (out' := if ci then lower_sent out else out).
  replace (map (fun j => inject_Z (Z.of_nat j)) (seq 0 (length out' + 1)))
    with (map inject_Z (lev_row [] out')).
  2:{ unfold lev_row. rewrite map_map. apply map_ext_in. intros k Hk.
      apply in_seq in Hk. cbn [lev]. rewrite length_rev, length_firstn.
      f_equal. f_equal. lia. }
  change 0 with (length (@nil string)).
  rewrite dp_rows_lev, app_nil_r, last_map_inject_Z, last_lev_row. reflexivity.
Qed.

(** C7: for a [WERScorer] built with the default unit penalties (and
    either case setting), [_edit_distance(s, s) == 0] for every sentence
    [s], and [_edit_distance(a, b) == _edit_distance(b, a)] for all
    sentences [a] and [b]. *)
Theorem wer_edit_distance_refl_sym (ci : bool) :
  (forall s : sentence, _edit_distance (WERScorer_init 1 1 1 ci) s s = 0%Q)
  /\ (forall a b : sentence,
        _edit_distance (WERScorer_init 1 1 1 ci) a b
        = _edit_distance (WERScorer_init 1 1 1 ci) b a).
Proof.
  unfold WERScorer_init. split.
  - intros s0. rewrite edit_distance_lev, lev_refl. reflexivity.
  - intros a b. rewrite !edit_distance_lev, lev_sym. reflexivity.
Qed.

(** C10: [WERScorer.__init__] drops its [sub_pen], [ins_pen] and
    [del_pen] arguments and sets all three penalties to 1.0, so two
    scorers built with any two penalty configurations (and the same case
    setting) give the same edit distances and the same WER scores. *)
Theorem wer_init_ignores_penalties (s1 i1 d1 s2 i2 d2 : Q) (ci : bool) :
  let w1 := WERScorer_init s1 i1 d1 ci in
  let w2 := WERScorer_init s2 i2 d2 ci in
  sub_pen w1 = 1%Q /\ ins_pen w1 = 1%Q /\ del_pen w1 = 1%Q
  /\ (forall ref out : sentence, _edit_distance w1 ref out = _edit_distance w2 ref out)
  /\ (forall ref out : corpus, score_corpus w1 ref out = score_corpus w2 ref out)
  /\ (forall ref out : sentence, score_sentence w1 ref out = score_sentence w2 ref out)
  /\ (forall ids c, score_cached_corpus w1 ids c = score_cached_corpus w2 ids c).
Proof. cbv zeta. repeat split. Qed.

End WERProofs.

Module ShapeProofs.
Import Bleu Sign BleuProofs.

Lemma cache_stats_nil_l (self : BleuScorer) (out : corpus) : cache_stats self [] out = [].
Proof. unfold cache_stats. destruct (case_insensitive self); reflexivity. Qed.

Lemma cache_stats_firstn (self : BleuScorer) (ref out : corpus) :
  length ref <= length out ->
  cache_stats self ref out = cache_stats self ref (firstn (length ref) out).
Proof.
  revert out. induction ref as [|r ref IH]; intros out Hle.
  - rewrite !cache_stats_nil_l. reflexivity.
  - destruct out as [|o out]; [simpl in Hle; lia|].
    cbn [length firstn]. rewrite !cache_stats_cons. f_equal.
    apply IH. simpl in Hle. lia.
Qed.

(** C8 (as the code does it): [eval_with_paired_bootstrap] raises
    [ValueError("Reference and system outputs should have the same size.")]
    exactly when [len(gold)] differs from [len(sys1)] or [len(sys2)]; the
    BLEU scorer does no such check: [cache_stats] pairs the sentences with
    [zip], so with an output corpus at least as long as the reference,
    [cache_stats] and [score_corpus] proceed on [out[:len(ref)]]. *)
Theorem length_mismatch_checked_only_by_bootstrap (self : BleuScorer)
    (gold sys1 sys2 ref out : corpus) (Hle : length ref <= length out) :
  (eval_with_paired_bootstrap_setup self gold sys1 sys2 = Raise (ValueError size_error_msg)
   <-> (length gold <> length sys1 \/ length gold <> length sys2))
  /\ cache_stats self ref out = cache_stats self ref (firstn (length ref) out)
  /\ score_corpus self ref out = score_corpus self ref (firstn (length ref) out).
Proof.
  split; [|split].
  - unfold eval_with_paired_bootstrap_setup.
    destruct (Nat.eqb_spec (length gold) (length sys1)),
             (Nat.eqb_spec (length gold) (length sys2)); cbn;
      split; intros H; try reflexivity; try discriminate; try tauto; lia.
  - apply cache_stats_firstn. exact Hle.
  - unfold score_corpus. rewrite <- cache_stats_firstn by exact Hle. reflexivity.
Qed.

Lemma length_mismatch_checked_only_by_bootstrap_witness :
  let self := mkBleuScorer [1%R] false in
  let ref : corpus := [["a"]] in
  let out : corpus := [["a"]; ["b"]] in
  length ref <= length out /\
  ((eval_with_paired_bootstrap_setup self ref out ref = Raise (ValueError size_error_msg)
    <-> (length ref <> length out \/ length ref <> length ref))
   /\ cache_stats self ref out = cache_stats self ref (firstn (length ref) out)
   /\ score_corpus self ref out = score_corpus self ref (firstn (length ref) out)).
Proof.
  intros self ref out.
  assert (Hle : length ref <= length out) by (simpl; lia).
  split; [exact Hle|].
  exact (length_mismatch_checked_only_by_bootstrap self ref out ref ref out Hle).
Defined.

(** C8 as stated fails: [BleuScorer.score_corpus] on a one-sentence
    reference and a two-sentence output returns a score instead of
    raising. *)
Lemma bleu_length_mismatch_counterexample :
  exists v, score_corpus (mkBleuScorer [1%R] false) [["a"]] [["a"]; ["b"]] = Ok v.
Proof.
  unfold score_corpus, score_cached_corpus. cbn -[py_exp log_prec brevity _precision].
  replace (_precision ["a"] ["a"] 1) with (1, 1) by (vm_compute; reflexivity).
  cbn -[py_exp log_prec brevity].
  rewrite BleuProofs.py_exp_nonpos.
  - eexists. reflexivity.
  - unfold log_prec. cbn.
    replace (counter_get (<[1%nat:=(counter_get ∅ 1 + 1)%nat]> ∅) 1%nat) with 1%nat
      by (vm_compute; reflexivity).
    destruct (decide (1 = 0)%nat); [lia|].
    destruct (Rlt_dec _ _); [|lra]. replace (INR 1 / INR 1)%R with 1%R by (simpl; field).
    rewrite ln_1. lra.
Qed.

End ShapeProofs.

Module ScorerProofs.

(** C9: for every reference and output sentence, [score_sentence] of a
    [BleuScorer] or a [SacreBleuScorer] raises [NotImplementedError] and
    never returns a value. *)
Theorem corpus_only_score_sentence_raises (b : Bleu.BleuScorer)
    (sb : SacreBleu.SacreBleuScorer) (ref out : sentence) :
  (exists msg, score_sentence b ref out = Raise (NotImplementedError msg))
  /\ (exists msg, score_sentence sb ref out = Raise (NotImplementedError msg))
  /\ (forall v, score_sentence b ref out <> Ok v)
  /\ (forall v, score_sentence sb ref out <> Ok v).
Proof.
  split; [eexists; reflexivity|]. split; [eexists; reflexivity|].
  split; intros v; discriminate.
Qed.

End ScorerProofs.

Module BucketProofs.
Import Bucket.

Ltac res_simpl H :=
  unfold mbind, res_bind in H;
  repeat match type of H with
  | context [match ?m with Ok _ => _ | Raise _ => _ end] =>
      let E := fresh "E" in destruct m eqn:E; [|discriminate H]
  end.

(** ** Loops *)

Lemma foldM_app {A B} (f : A -> B -> res A) l1 l2 a :
  foldM f (l1 ++ l2) a = (r ← foldM f l1 a; foldM f l2 r).
Proof.
  revert a. induction l1 as [|x l1 IH]; intros a; [reflexivity|].
  cbn [app foldM]. destruct (f a x); [apply IH|reflexivity].
Qed.

Lemma foldM_ext {A B} (f g : A -> B -> res A) l a :
  (forall a x, x ∈ l -> f a x = g a x) -> foldM f l a = foldM g l a.
Proof.
  revert a. induction l as [|x l IH]; intros a Hfg; [reflexivity|].
  cbn [foldM]. rewrite (Hfg a x) by set_solver.
  destruct (g a x); [|reflexivity]. apply IH. intros. apply Hfg. set_solver.
Qed.

Lemma foldM_map {A B C} (f : A -> B -> res A) (h : C -> B) l a :
  foldM f (map h l) a = foldM (fun a x => f a (h x)) l a.
Proof.
  revert a. induction l as [|x l IH]; intros a; [reflexivity|].
  cbn [map foldM]. destruct (f a (h x)); [apply IH|reflexivity].
Qed.

Lemma foldM_inv {A B} (P : A -> Prop) (f : A -> B -> res A) l a r :
  P a -> (forall a x b, P a -> f a x = Ok b -> P b) -> foldM f l a = Ok r -> P r.
Proof.
  revert a. induction l as [|x l IH]; intros a Ha Hf H.
  - cbn in H. injection H as <-. exact Ha.
  - cbn in H. destruct (f a x) eqn:E; [|discriminate H].
    exact (IH _ (Hf _ _ _ Ha E) Hf H).
Qed.

Lemma mapM_length {A B} (f : A -> res B) l r : mapM f l = Ok r -> length r = length l.
Proof.
  revert r. induction l as [|x l IH]; intros r H.
  - cbn in H. injection H as <-. reflexivity.
  - cbn in H. res_simpl H. injection H as <-. cbn. f_equal. apply IH. reflexivity.
Qed.

Lemma mapM_map {A B C} (f : A -> res B) (h : C -> A) l :
  mapM f (map h l) = mapM (fun x => f (h x)) l.
Proof. induction l as [|x l IH]; [reflexivity|]. cbn. rewrite IH. reflexivity. Qed.

Lemma mapM_ext {A B} (f g : A -> res B) l :
  (forall x, x ∈ l -> f x = g x) -> mapM f l = mapM g l.
Proof.
  induction l as [|x l IH]; intros Hfg; [reflexivity|]. cbn.
  rewrite (Hfg x) by set_solver. rewrite IH by (intros; apply Hfg; set_solver).
  reflexivity.
Qed.

Lemma seq_add_shift k m : map (Nat.add k) (seq 0 m) = seq k m.
Proof.
  induction k as [|k IH].
  - rewrite (map_ext _ id) by reflexivity. apply map_id.
  - rewrite <- seq_shift, <- IH, map_map. apply map_ext. reflexivity.
Qed.

Lemma map_lookup_seq {A B} (f : option A -> B) (l : list A) :
  map (fun i => f (l !! i)) (seq 0 (length l)) = map (fun x => f (Some x)) l.
Proof.
  induction l as [|x l IH]; [reflexivity|].
  cbn [length]. rewrite <- cons_seq, map_cons. cbn. f_equal.
  rewrite <- seq_shift, map_map. exact IH.
Qed.

Lemma zip_longest_lookup {A B} (a : list A) (b : list B) :
  zip_longest a b = map (fun i => (a !! i, b !! i)) (seq 0 (max (length a) (length b))).
Proof.
  revert b. induction a as [|x a IH]; intros b.
  - symmetry. exact (map_lookup_seq (fun o => (None, o)) b).
  - destruct b as [|y b].
    + cbn [zip_longest]. rewrite Nat.max_0_r.
      symmetry. exact (map_lookup_seq (fun o => (o, None)) (x :: a)).
    + cbn [zip_longest length]. rewrite <- Nat.succ_max_distr, <- cons_seq, map_cons.
      cbn. f_equal. rewrite IH, <- seq_shift, map_map. reflexivity.
Qed.

Lemma enumerate_map_seq {A} (f : nat -> A) m :
  enumerate (map f (seq 0 m)) = map (fun i => (i, f i)) (seq 0 m).
Proof.
  unfold enumerate. rewrite length_map, length_seq.
  generalize 0. induction m as [|m IH]; intros s; [reflexivity|].
  cbn. f_equal. apply IH.
Qed.

Lemma calc_statistics_seq self inp :
  calc_statistics self inp =
  foldM (stat_step self inp)
        (seq 0 (max (length (ref inp)) (length (default [] (truthy (ref_labels inp))))))
        (zero_tally (length (bucket_strs self)) (length (outs inp)), []).
Proof.
  unfold calc_statistics. rewrite zip_longest_lookup, enumerate_map_seq, foldM_map.
  apply foldM_ext. intros [t ts] i _. reflexivity.
Qed.

(** ** Tally arithmetic *)

Lemma zip_with_assoc {A} (f : A -> A -> A) :
  (forall x y z, f (f x y) z = f x (f y z)) ->
  forall a b c, zip_with f (zip_with f a b) c = zip_with f a (zip_with f b c).
Proof.
  intros Hf a. induction a as [|x a IH]; intros [|y b] [|z c]; try reflexivity.
  cbn. rewrite Hf, IH. reflexivity.
Qed.

Lemma vadd_assoc u v w : vadd (vadd u v) w = vadd u (vadd v w).
Proof. apply zip_with_assoc. intros. lia. Qed.

Lemma madd_assoc a b c : madd (madd a b) c = madd a (madd b c).
Proof. apply zip_with_assoc. apply vadd_assoc. Qed.

Lemma tally_add_assoc t u v : tally_add (tally_add t u) v = tally_add t (tally_add u v).
Proof.
  destruct t as [[rt ot] om], u as [[rt' ot'] om'], v as [[rt'' ot''] om''].
  cbn. rewrite vadd_assoc, !madd_assoc. reflexivity.
Qed.

Definition mshape (num_outs num_buckets : nat) (m : list (list Z)) : Prop :=
  length m = num_outs /\ Forall (fun r => length r = num_buckets) m.

Lemma vadd_zeros_l n v : length v = n -> vadd (zeros n) v = v.
Proof.
  intros <-. unfold vadd, zeros. induction v as [|x v IH]; [reflexivity|].
  cbn. f_equal. exact IH.
Qed.

Lemma madd_zeros_l no nb m : mshape no nb m -> madd (zeros2 no nb) m = m.
Proof.
  intros [<- Hm]. unfold madd, zeros2. induction Hm as [|r m Hr Hm IH]; [reflexivity|].
  cbn. f_equal; [apply vadd_zeros_l; exact Hr|exact IH].
Qed.

Lemma vadd_length n v w : length v = n -> length w = n -> length (vadd v w) = n.
Proof. intros Hv Hw. unfold vadd. rewrite length_zip_with. lia. Qed.

Lemma madd_shape no nb a b : mshape no nb a -> mshape no nb b -> mshape no nb (madd a b).
Proof.
  intros [Ha Fa] [Hb Fb]. split.
  - unfold madd. rewrite length_zip_with. lia.
  - clear Ha Hb. revert b Fb. induction Fa as [|r a Hr Fa IH]; intros b Fb; [constructor|].
    destruct Fb as [|r' b Hr' Fb]; [constructor|].
    cbn. constructor; [apply vadd_length; assumption|]. apply IH. exact Fb.
Qed.

Lemma tally_shape_mshape nb no rt ot om :
  tally_shape nb no (rt, ot, om) <-> length rt = nb /\ mshape no nb ot /\ mshape no nb om.
Proof. unfold tally_shape, mshape. tauto. Qed.

Lemma zeros_shape nb no : tally_shape nb no (zero_tally nb no).
Proof.
  apply tally_shape_mshape. unfold zeros, zeros2, mshape.
  rewrite !length_replicate. repeat split; apply Forall_replicate; apply length_replicate.
Qed.

Lemma tally_add_shape nb no t u :
  tally_shape nb no t -> tally_shape nb no u -> tally_shape nb no (tally_add t u).
Proof.
  destruct t as [[rt ot] om], u as [[rt' ot'] om']. rewrite !tally_shape_mshape.
  intros (H1 & H2 & H3) (H1' & H2' & H3').
  change (tally_add (rt, ot, om) (rt', ot', om')) with (vadd rt rt', madd ot ot', madd om om').
  rewrite tally_shape_mshape.
  split; [apply vadd_length; assumption|]. split; apply madd_shape; assumption.
Qed.

Lemma tally_add_zeros_l nb no t : tally_shape nb no t -> tally_add (zero_tally nb no) t = t.
Proof.
  destruct t as [[rt ot] om]. rewrite tally_shape_mshape. intros (H1 & H2 & H3).
  cbn. rewrite vadd_zeros_l, !(madd_zeros_l no nb) by assumption. reflexivity.
Qed.

(** ** Shapes of the per-sentence tallies *)

Lemma vinc_length v b v' : vinc v b = Ok v' -> length v' = length v.
Proof.
  unfold vinc. destruct (v !! b); intros H; [|discriminate H].
  injection H as <-. apply length_insert.
Qed.

Lemma foldM_vinc_length bs v v' : foldM vinc bs v = Ok v' -> length v' = length v.
Proof.
  apply (foldM_inv (fun u => length u = length v)); [reflexivity|].
  intros u b u' Hu H. rewrite (vinc_length _ _ _ H). exact Hu.
Qed.

Lemma add_bucket_length v b v' : add_bucket v b = Ok v' -> length v' = length v.
Proof. destruct b; [apply vinc_length|apply foldM_vinc_length]. Qed.

Lemma fancy_inc_length v b v' : fancy_inc v b = Ok v' -> length v' = length v.
Proof. destruct b; [apply vinc_length|apply foldM_vinc_length]. Qed.

Lemma minc_shape no nb m i b m' : mshape no nb m -> minc m i b = Ok m' -> mshape no nb m'.
Proof.
  intros [Hl Hf]. unfold minc. destruct (m !! i) as [row|] eqn:Er; intros H; [|discriminate H].
  res_simpl H. injection H as <-. split; [rewrite length_insert; exact Hl|].
  apply Forall_insert; [exact Hf|]. rewrite (vinc_length _ _ _ E).
  exact (Forall_lookup_1 _ _ _ _ Hf Er).
Qed.

Lemma fancy_minc_shape no nb m i b m' : mshape no nb m -> fancy_minc m i b = Ok m' -> mshape no nb m'.
Proof.
  intros [Hl Hf]. unfold fancy_minc. destruct (m !! i) as [row|] eqn:Er; intros H; [|discriminate H].
  res_simpl H. injection H as <-. split; [rewrite length_insert; exact Hl|].
  apply Forall_insert; [exact Hf|]. rewrite (fancy_inc_length _ _ _ E).
  exact (Forall_lookup_1 _ _ _ _ Hf Er).
Qed.

Lemma add_out_shape no nb oi mt bm mt' :
  mshape no nb mt.1 -> mshape no nb mt.2 -> add_out oi mt bm = Ok mt' ->
  mshape no nb mt'.1 /\ mshape no nb mt'.2.
Proof.
  destruct mt as [tot mat], bm as [b m]. unfold add_out. intros H1 H2.
  apply (foldM_inv (fun p => mshape no nb p.1 /\ mshape no nb p.2)); [split; assumption|].
  intros [t1 m1] bi p [Ht Hm] H. res_simpl H. injection H as <-. cbn.
  split; [exact (minc_shape _ _ _ _ _ _ Ht E)|].
  destruct (0 <=? m)%Z; [exact (minc_shape _ _ _ _ _ _ Hm E0)|].
  injection E0 as <-. exact Hm.
Qed.

Lemma trg_tally_shape self ref_sent ref_label out_sents out_labels t :
  _calc_trg_buckets_and_matches self ref_sent ref_label out_sents out_labels = Ok t ->
  tally_shape (length (bucket_strs self)) (length out_sents) t.
Proof.
  unfold _calc_trg_buckets_and_matches. intros H.
  set (nb := length (bucket_strs self)) in *.
  assert (Hlo : length (if case_insensitive self then map lower_sent out_sents else out_sents)
                = length out_sents) by (destruct (case_insensitive self); [apply length_map|reflexivity]).
  revert H Hlo.
  generalize (if case_insensitive self then map lower_sent out_sents else out_sents) as os.
  generalize (if case_insensitive self then lower_sent ref_sent else ref_sent) as rs.
  intros rs os H Hlo.
  destruct (match ref_label with
            | Some [] | None => ([], Some (map (fun _ => []) os))
            | Some rl => (rl, out_labels)
            end) as [rl ol].
  res_simpl H. injection H as <-.
  apply tally_shape_mshape. rewrite <- Hlo. split; [|split].
  - rewrite (foldM_inv (fun v => length v = nb) _ _ _ _ (length_replicate _ _)
               (fun v b v' Hv Hb => eq_trans (add_bucket_length _ _ _ Hb) Hv) E2).
    reflexivity.
  - apply (foldM_inv (fun p => mshape (length os) nb p.1 /\ mshape (length os) nb p.2)) in E3.
    + exact (proj1 E3).
    + split; (split; [apply length_replicate|apply Forall_replicate, length_replicate]).
    + intros mt [oi obs] mt' [Ha Hb] Hf.
      apply (foldM_inv (fun p => mshape (length os) nb p.1 /\ mshape (length os) nb p.2)) in Hf;
        [exact Hf|split; assumption|].
      intros mt0 bm mt1 [Hc Hd] Hg. exact (add_out_shape _ _ _ _ _ _ Hc Hd Hg).
  - apply (foldM_inv (fun p => mshape (length os) nb p.1 /\ mshape (length os) nb p.2)) in E3.
    + exact (proj2 E3).
    + split; (split; [apply length_replicate|apply Forall_replicate, length_replicate]).
    + intros mt [oi obs] mt' [Ha Hb] Hf.
      apply (foldM_inv (fun p => mshape (length os) nb p.1 /\ mshape (length os) nb p.2)) in Hf;
        [exact Hf|split; assumption|].
      intros mt0 bm mt1 [Hc Hd] Hg. exact (add_out_shape _ _ _ _ _ _ Hc Hd Hg).
Qed.

Lemma src_tally_shape self src_sent src_label ref_sent ras out_sents t :
  _calc_src_buckets_and_matches self src_sent src_label ref_sent ras out_sents = Ok t ->
  tally_shape (length (bucket_strs self)) (length out_sents) t.
Proof.
  unfold _calc_src_buckets_and_matches. intros H.
  set (nb := length (bucket_strs self)) in *.
  assert (Hlo : length (if case_insensitive self then map lower_sent out_sents else out_sents)
                = length out_sents) by (destruct (case_insensitive self); [apply length_map|reflexivity]).
  revert H Hlo.
  generalize (if case_insensitive self then map lower_sent out_sents else out_sents) as os.
  intros os H Hlo.
  res_simpl H. injection H as <-.
  assert (Hrt : length a1 = nb).
  { rewrite (foldM_inv (fun v => length v = nb) _ _ _ _ (length_replicate _ _)
               (fun v b v' Hv Hb => eq_trans (fancy_inc_length _ _ _ Hb) Hv) E1).
    reflexivity. }
  apply tally_shape_mshape. rewrite <- Hlo. split; [exact Hrt|split].
  - split; [apply length_replicate|apply Forall_replicate; exact Hrt].
  - apply (foldM_inv (mshape (length os) nb)) in E2;
      [exact E2|split; [apply length_replicate|apply Forall_replicate, length_replicate]|].
    intros m [oai rm] m' Hm Hf.
    apply (foldM_inv (mshape (length os) nb)) in Hf; [exact Hf|exact Hm|].
    intros m0 [sb sa] m1 Hm0 Hg.
    destruct (decide (length sa <> 0)); [|injection Hg as <-; exact Hm0].
    res_simpl Hg. destruct a3; [exact (fancy_minc_shape _ _ _ _ _ _ Hm0 Hg)|].
    injection Hg as <-. exact Hm0.
Qed.

Lemma sentence_tally_shape self inp rsi rs rl t :
  sentence_tally self inp rsi rs rl = Ok t ->
  tally_shape (length (bucket_strs self)) (length (outs inp)) t.
Proof.
  unfold sentence_tally. intros H. destruct (truthy (src inp)).
  - res_simpl H. pose proof (src_tally_shape _ _ _ _ _ _ _ H) as HS.
    rewrite (mapM_length _ _ _ E3) in HS. exact HS.
  - res_simpl H. pose proof (trg_tally_shape _ _ _ _ _ _ H) as HS.
    rewrite (mapM_length _ _ _ E) in HS. exact HS.
Qed.

Lemma stat_step_shape self inp acc i acc' :
  tally_shape (length (bucket_strs self)) (length (outs inp)) acc.1 ->
  stat_step self inp acc i = Ok acc' ->
  tally_shape (length (bucket_strs self)) (length (outs inp)) acc'.1.
Proof.
  unfold stat_step. intros Ha H. res_simpl H. injection H as <-. cbn.
  apply tally_add_shape; [exact Ha|exact (sentence_tally_shape _ _ _ _ _ _ E)].
Qed.

Lemma vadd_zeros_r n v : length v = n -> vadd v (zeros n) = v.
Proof.
  intros <-. unfold vadd, zeros. induction v as [|x v IH]; [reflexivity|].
  cbn. f_equal; [lia|exact IH].
Qed.

Lemma madd_zeros_r no nb m : mshape no nb m -> madd m (zeros2 no nb) = m.
Proof.
  intros [<- Hm]. unfold madd, zeros2. induction Hm as [|r m Hr Hm IH]; [reflexivity|].
  cbn. f_equal; [apply vadd_zeros_r; exact Hr|exact IH].
Qed.

Lemma tally_add_zeros_r nb no t : tally_shape nb no t -> tally_add t (zero_tally nb no) = t.
Proof.
  destruct t as [[rt ot] om]. rewrite tally_shape_mshape. intros (H1 & H2 & H3).
  cbn. rewrite vadd_zeros_r, !(madd_zeros_r no nb) by assumption. reflexivity.
Qed.

(** The sentence loop started from partial sums [t] adds [t] to the
    tallies of the loop started from zero. *)
Lemma stat_loop_acc self inp l t ts :
  tally_shape (length (bucket_strs self)) (length (outs inp)) t ->
  foldM (stat_step self inp) l (t, ts) =
  (r ← foldM (stat_step self inp) l
         (zero_tally (length (bucket_strs self)) (length (outs inp)), []);
   Ok (tally_add t r.1, ts ++ r.2)).
Proof.
  revert t ts. induction l as [|i l IH]; intros t ts Ht.
  - cbn. rewrite app_nil_r, (tally_add_zeros_r _ _ t Ht). reflexivity.
  - cbn [foldM]. unfold stat_step at 1 3. cbn [fst snd].
    destruct (sentence_tally self inp i ((ref inp : list sentence) !! i)
                (default [] (truthy (ref_labels inp)) !! i)) as [my|e] eqn:Es;
      [|reflexivity].
    pose proof (sentence_tally_shape _ _ _ _ _ _ Es) as Hmy.
    cbn [mbind res_bind].
    rewrite (IH (tally_add t my)) by (apply tally_add_shape; assumption).
    rewrite (IH (tally_add _ my)) by (apply tally_add_shape; [apply zeros_shape|exact Hmy]).
    destruct (foldM (stat_step self inp) l _) as [[t' ts']|e]; [|reflexivity].
    cbn [mbind res_bind fst snd].
    rewrite (tally_add_zeros_l _ _ my Hmy), tally_add_assoc, <- app_assoc.
    reflexivity.
Qed.

(** ** Sentence ranges *)

Lemma truthy_take {A} k (o : option (list A)) :
  0 < k -> truthy (take k <$> o) = take k <$> truthy o.
Proof. intros Hk. destruct o as [[|x l]|], k; solve [lia|reflexivity]. Qed.

Lemma truthy_drop {A} k (o : option (list A)) :
  (forall l, o = Some l -> k < length l) -> truthy (drop k <$> o) = drop k <$> truthy o.
Proof.
  intros H. destruct o as [l|]; [|reflexivity].
  specialize (H _ eq_refl). destruct l as [|x l]; [cbn in H; lia|].
  cbn [fmap option_fmap option_map truthy].
  destruct (drop k (x :: l)) eqn:E; [|reflexivity].
  apply (f_equal length) in E. rewrite length_drop in E. cbn in E, H. lia.
Qed.

Lemma truthy_fmap_map {A B} (f : A -> B) (o : option (list A)) :
  truthy (map f <$> o) = map f <$> truthy o.
Proof. destruct o as [[|x l]|]; reflexivity. Qed.

Lemma py_get_take {A} (l : list A) k i : i < k -> py_get (take k l) i = py_get l i.
Proof. intros Hi. unfold py_get. rewrite lookup_take_lt by exact Hi. reflexivity. Qed.

Lemma py_get_drop {A} (l : list A) k i : py_get (drop k l) i = py_get l (k + i).
Proof. unfold py_get. rewrite lookup_drop. reflexivity. Qed.

Lemma opt_len_ok_spec {A} n (o : option (list A)) :
  opt_len_ok n o = true -> forall l, o = Some l -> length l = n.
Proof. intros H l ->. cbn in H. apply Nat.eqb_eq. exact H. Qed.

Lemma stat_input_wf_spec inp :
  stat_input_wf inp = true ->
  let n := length (ref inp) in
  (forall l, src inp = Some l -> length l = n) /\
  (forall l, ref_labels inp = Some l -> length l = n) /\
  (forall l, src_labels inp = Some l -> length l = n).
Proof.
  unfold stat_input_wf. intros H. apply andb_prop in H as [H H6].
  apply andb_prop in H as [H H5]. apply andb_prop in H as [H H4].
  apply andb_prop in H as [H H3]. apply andb_prop in H as [H H2].
  split; [|split]; apply opt_len_ok_spec; assumption.
Qed.

Lemma sentence_tally_take self inp k i rs rl :
  i < k -> sentence_tally self (take_input k inp) i rs rl = sentence_tally self inp i rs rl.
Proof.
  intros Hi. destruct inp as [r os s rls ols ras sls].
  unfold take_input, sentence_tally. cbn [ref outs src ref_labels out_labels ref_aligns src_labels].
  rewrite !truthy_take by lia. rewrite truthy_fmap_map.
  rewrite mapM_map, (mapM_ext _ (fun x => py_get x i)) by (intros; apply py_get_take; exact Hi).
  destruct (truthy s) as [s'|]; cbn [fmap option_fmap option_map].
  - rewrite (py_get_take s' k i Hi).
    destruct (truthy sls) as [sl|]; cbn [fmap option_fmap option_map];
      [rewrite (py_get_take sl k i Hi)|];
      (destruct ras as [ra|]; cbn [fmap option_fmap option_map unwrap mbind res_bind];
       [rewrite (py_get_take ra k i Hi)|]; reflexivity).
  - destruct (truthy ols) as [ol|]; cbn [fmap option_fmap option_map]; [|reflexivity].
    rewrite mapM_map, (mapM_ext _ (fun x => py_get x i)) by (intros; apply py_get_take; exact Hi).
    reflexivity.
Qed.

Lemma sentence_tally_drop self inp k i rs rl :
  stat_input_wf inp = true -> k + i < length (ref inp) ->
  sentence_tally self (drop_input k inp) i rs rl = sentence_tally self inp (k + i) rs rl.
Proof.
  intros Hwf Hi. apply stat_input_wf_spec in Hwf as (Hs & _ & Hsl).
  destruct inp as [r os s rls ols ras sls]. cbn [ref src src_labels] in *.
  unfold drop_input, sentence_tally. cbn [ref outs src ref_labels out_labels ref_aligns src_labels].
  rewrite (truthy_drop k s) by (intros l E; rewrite (Hs l E); lia).
  rewrite (truthy_drop k sls) by (intros l E; rewrite (Hsl l E); lia).
  rewrite truthy_fmap_map.
  rewrite mapM_map, (mapM_ext _ (fun x => py_get x (k + i))) by (intros; apply py_get_drop).
  destruct (truthy s) as [s'|]; cbn [fmap option_fmap option_map].
  - rewrite (py_get_drop s' k i).
    destruct (truthy sls) as [sl|]; cbn [fmap option_fmap option_map];
      [rewrite (py_get_drop sl k i)|];
      (destruct ras as [ra|]; cbn [fmap option_fmap option_map unwrap mbind res_bind];
       [rewrite (py_get_drop ra k i)|]; reflexivity).
  - destruct (truthy ols) as [ol|]; cbn [fmap option_fmap option_map]; [|reflexivity].
    rewrite mapM_map, (mapM_ext _ (fun x => py_get x (k + i))) by (intros; apply py_get_drop).
    reflexivity.
Qed.

Lemma default_truthy {A} (o : option (list A)) : default [] (truthy o) = default [] o.
Proof. destruct o as [[|x l]|]; reflexivity. Qed.

Lemma ref_labels_take k inp :
  default [] (truthy (ref_labels (take_input k inp)))
  = take k (default [] (truthy (ref_labels inp))).
Proof.
  rewrite !default_truthy. unfold take_input. cbn [ref_labels].
  destruct (ref_labels inp); cbn; [reflexivity|symmetry; apply take_nil].
Qed.

Lemma ref_labels_drop k inp :
  default [] (truthy (ref_labels (drop_input k inp)))
  = drop k (default [] (truthy (ref_labels inp))).
Proof.
  rewrite !default_truthy. unfold drop_input. cbn [ref_labels].
  destruct (ref_labels inp); cbn; [reflexivity|symmetry; apply drop_nil].
Qed.

Lemma ref_labels_length inp :
  stat_input_wf inp = true ->
  length (default [] (truthy (ref_labels inp))) <= length (ref inp).
Proof.
  intros Hwf. apply stat_input_wf_spec in Hwf as (_ & Hrl & _).
  rewrite default_truthy. destruct (ref_labels inp) as [l|]; cbn; [|lia].
  rewrite (Hrl l eq_refl). lia.
Qed.

Lemma stat_loop_shape self inp l acc :
  foldM (stat_step self inp) l
        (zero_tally (length (bucket_strs self)) (length (outs inp)), []) = Ok acc ->
  tally_shape (length (bucket_strs self)) (length (outs inp)) acc.1.
Proof.
  apply (foldM_inv (fun a => tally_shape _ _ a.1)); [apply zeros_shape|].
  intros a x b Ha Hb. exact (stat_step_shape _ _ _ _ _ Ha Hb).
Qed.

Lemma calc_statistics_take self inp k :
  stat_input_wf inp = true -> k <= length (ref inp) ->
  calc_statistics self (take_input k inp) =
  foldM (stat_step self inp) (seq 0 k)
        (zero_tally (length (bucket_strs self)) (length (outs inp)), []).
Proof.
  intros Hwf Hk. pose proof (ref_labels_length _ Hwf) as Hrl.
  rewrite calc_statistics_seq, ref_labels_take.
  replace (max (length (ref (take_input k inp)))
               (length (take k (default [] (truthy (ref_labels inp)))))) with k
    by (unfold take_input; cbn [ref]; rewrite !length_take; lia).
  replace (length (outs (take_input k inp))) with (length (outs inp))
    by (unfold take_input; cbn [outs]; rewrite length_map; reflexivity).
  apply foldM_ext. intros acc i Hi. apply elem_of_seq in Hi.
  unfold stat_step. rewrite sentence_tally_take by lia.
  rewrite ref_labels_take, (lookup_take_lt (default [] (truthy (ref_labels inp))) k i) by lia.
  unfold take_input at 1. cbn [ref]. rewrite (lookup_take_lt (ref inp) k i) by lia.
  reflexivity.
Qed.

Lemma calc_statistics_drop self inp k :
  stat_input_wf inp = true -> k <= length (ref inp) ->
  calc_statistics self (drop_input k inp) =
  foldM (stat_step self inp) (seq k (length (ref inp) - k))
        (zero_tally (length (bucket_strs self)) (length (outs inp)), []).
Proof.
  intros Hwf Hk. pose proof (ref_labels_length _ Hwf) as Hrl.
  rewrite calc_statistics_seq, ref_labels_drop.
  replace (max (length (ref (drop_input k inp)))
               (length (drop k (default [] (truthy (ref_labels inp))))))
    with (length (ref inp) - k)
    by (unfold drop_input; cbn [ref]; rewrite !length_drop; lia).
  replace (length (outs (drop_input k inp))) with (length (outs inp))
    by (unfold drop_input; cbn [outs]; rewrite length_map; reflexivity).
  rewrite <- (seq_add_shift k (length (ref inp) - k)), foldM_map.
  apply foldM_ext. intros acc i Hi. apply elem_of_seq in Hi.
  unfold stat_step. rewrite sentence_tally_drop by (assumption || lia).
  rewrite ref_labels_drop, (lookup_drop (default [] (truthy (ref_labels inp))) k i).
  unfold drop_input at 1. cbn [ref]. rewrite (lookup_drop (ref inp) k i). reflexivity.
Qed.

Lemma calc_statistics_split self inp k :
  stat_input_wf inp = true -> k <= length (ref inp) ->
  calc_statistics self inp =
  (t1 ← calc_statistics self (take_input k inp);
   t2 ← calc_statistics self (drop_input k inp);
   Ok (tally_add t1.1 t2.1, t1.2 ++ t2.2)).
Proof.
  intros Hwf Hk.
  rewrite calc_statistics_take, calc_statistics_drop by assumption.
  rewrite calc_statistics_seq.
  pose proof (ref_labels_length _ Hwf) as Hrl.
  replace (max (length (ref inp)) (length (default [] (truthy (ref_labels inp)))))
    with (length (ref inp)) by lia.
  assert (Hs : seq 0 (length (ref inp)) = seq 0 k ++ seq k (length (ref inp) - k)).
  { change (seq k (length (ref inp) - k)) with (seq (0 + k) (length (ref inp) - k)).
    rewrite <- seq_app. f_equal. lia. }
  rewrite Hs, foldM_app.
  destruct (foldM (stat_step self inp) (seq 0 k) _) as [[t1 ts1]|e] eqn:E1;
    cbn [mbind res_bind fst snd]; [|reflexivity].
  apply stat_loop_acc. exact (stat_loop_shape _ _ _ _ E1).
Qed.

(** ** The source-side counting loop *)

Lemma minc_translate no nb a m i b :
  mshape no nb a -> mshape no nb m ->
  minc (madd a m) i b = (m' ← minc m i b; Ok (madd a m')).
Proof.
  intros [Ha Fa] [Hm Fm]. unfold minc, madd. rewrite lookup_zip_with.
  destruct (m !! i) as [row|] eqn:Er.
  - assert (Hi : i < length a) by (apply lookup_lt_Some in Er; lia).
    apply lookup_lt_is_Some in Hi as [ra Era]. rewrite Era. cbn [mbind option_bind].
    pose proof (Forall_lookup_1 _ _ _ _ Fa Era) as Hra.
    pose proof (Forall_lookup_1 _ _ _ _ Fm Er) as Hrow. cbv beta in Hra, Hrow.
    unfold vinc, vadd. rewrite lookup_zip_with.
    destruct (row !! b) as [x|] eqn:Eb.
    + assert (Hb : b < length ra) by (apply lookup_lt_Some in Eb; lia).
      apply lookup_lt_is_Some in Hb as [y Ey]. rewrite Ey.
      cbn [mbind option_bind res_bind]. f_equal.
      transitivity (zip_with vadd (<[i:=ra]> a) (<[i:=<[b:=(x + 1)%Z]> row]> m));
        [|rewrite (list_insert_id a i ra Era); reflexivity].
      rewrite <- insert_zip_with. f_equal. unfold vadd.
      transitivity (zip_with Z.add (<[b:=y]> ra) (<[b:=(x + 1)%Z]> row));
        [|rewrite (list_insert_id ra b y Ey); reflexivity].
      rewrite <- insert_zip_with. f_equal. lia.
    + destruct (ra !! b); reflexivity.
  - destruct (a !! i); reflexivity.
Qed.

Ltac bind_case t := destruct t; cbn [mbind res_bind]; [|reflexivity].

Lemma out_edge_step_translate self ss os sl no nb a rc m e :
  mshape no nb a -> mshape no nb m ->
  out_edge_step self ss os sl (rc, madd a m) e =
  (r ← out_edge_step self ss os sl (rc, m) e; Ok (r.1, madd a r.2)).
Proof.
  intros Ha Hm. destruct e as [si ti]. unfold out_edge_step.
  bind_case (src_word_of ss si). bind_case (unwrap os).
  match goal with |- context [py_get ?l ti] => bind_case (py_get l ti) end.
  match goal with |- context [src_bucket_of self ?w sl si] => destruct (src_bucket_of self w sl si) as [b|] end;
    cbn [mbind res_bind]; [|reflexivity].
  destruct (decide _).
  - rewrite (minc_translate no nb a m b 0) by assumption.
    destruct (minc m b 0) as [m1|] eqn:E1; cbn [mbind res_bind]; [|reflexivity].
    rewrite (minc_translate no nb a m1 b 2) by (assumption || exact (minc_shape _ _ _ _ _ _ Hm E1)).
    destruct (minc m1 b 2); reflexivity.
  - rewrite (minc_translate no nb a m b 2) by assumption.
    destruct (minc m b 2); reflexivity.
Qed.

Lemma out_edge_step_shape self ss os sl no nb rc m e r :
  mshape no nb m -> out_edge_step self ss os sl (rc, m) e = Ok r -> mshape no nb r.2.
Proof.
  intros Hm H. destruct e as [si ti]. unfold out_edge_step in H. res_simpl H.
  destruct (decide _); res_simpl H; injection H as <-; cbn [snd].
  - exact (minc_shape no nb _ _ _ _ (minc_shape no nb _ _ _ _ Hm E3) E4).
  - exact (minc_shape no nb _ _ _ _ Hm E3).
Qed.

Lemma ref_edge_step_translate self ss sl no nb a m e :
  mshape no nb a -> mshape no nb m ->
  ref_edge_step self ss sl (madd a m) e = (r ← ref_edge_step self ss sl m e; Ok (madd a r)).
Proof.
  intros Ha Hm. destruct e as [si ti]. unfold ref_edge_step.
  bind_case (src_word_of ss si).
  match goal with |- context [src_bucket_of self ?w sl si] => destruct (src_bucket_of self w sl si) as [b|] end;
    cbn [mbind res_bind]; [|reflexivity].
  apply (minc_translate no nb); assumption.
Qed.

Lemma ref_edge_step_shape self ss sl no nb m e r :
  mshape no nb m -> ref_edge_step self ss sl m e = Ok r -> mshape no nb r.
Proof.
  intros Hm H. destruct e as [si ti]. unfold ref_edge_step in H. res_simpl H.
  exact (minc_shape no nb _ _ _ _ Hm H).
Qed.

Section Translate.
Context (no nb : nat) (a : list (list Z)).

Lemma foldM_translate {B} (f : list (list Z) -> B -> res (list (list Z))) :
  (forall m e, mshape no nb m -> f (madd a m) e = (r ← f m e; Ok (madd a r))) ->
  (forall m e r, mshape no nb m -> f m e = Ok r -> mshape no nb r) ->
  forall l m, mshape no nb m ->
  foldM f l (madd a m) = (r ← foldM f l m; Ok (madd a r)).
Proof.
  intros Hf Hs l. induction l as [|e l IH]; intros m Hm; [reflexivity|].
  cbn [foldM]. rewrite (Hf m e Hm).
  destruct (f m e) as [m'|] eqn:E; [|reflexivity]. cbn [mbind res_bind].
  apply IH. exact (Hs _ _ _ Hm E).
Qed.

Lemma foldM_translate2 {X B} (f : X * list (list Z) -> B -> res (X * list (list Z))) :
  (forall x m e, mshape no nb m ->
     f (x, madd a m) e = (r ← f (x, m) e; Ok (r.1, madd a r.2))) ->
  (forall x m e r, mshape no nb m -> f (x, m) e = Ok r -> mshape no nb r.2) ->
  forall l x m, mshape no nb m ->
  foldM f l (x, madd a m) = (r ← foldM f l (x, m); Ok (r.1, madd a r.2)).
Proof.
  intros Hf Hs l. induction l as [|e l IH]; intros x m Hm; [reflexivity|].
  cbn [foldM]. rewrite (Hf x m e Hm).
  destruct (f (x, m) e) as [[x' m']|] eqn:E; [|reflexivity]. cbn [mbind res_bind fst snd].
  apply IH. exact (Hs _ _ _ _ Hm E).
Qed.

End Translate.

Lemma foldM_shape {B} no nb (f : list (list Z) -> B -> res (list (list Z))) l m r :
  (forall m e r, mshape no nb m -> f m e = Ok r -> mshape no nb r) ->
  mshape no nb m -> foldM f l m = Ok r -> mshape no nb r.
Proof. intros Hs Hm. apply foldM_inv; [exact Hm|]. intros; eapply Hs; eassumption. Qed.

Lemma foldM_shape2 {X B} no nb (f : X * list (list Z) -> B -> res (X * list (list Z))) l x m r :
  (forall x m e r, mshape no nb m -> f (x, m) e = Ok r -> mshape no nb r.2) ->
  mshape no nb m -> foldM f l (x, m) = Ok r -> mshape no nb r.2.
Proof.
  intros Hs Hm. apply (foldM_inv (fun p => mshape no nb p.2)); [exact Hm|].
  intros [x' m'] e r' H1 H2. exact (Hs _ _ _ _ H1 H2).
Qed.

Lemma source_sentence_step_shape self no nb m item r :
  mshape no nb m -> source_sentence_step self m item = Ok r -> mshape no nb r.
Proof.
  intros Hm H. destruct item as [[[[[ss rs] os] ra] oa] sl].
  unfold source_sentence_step in H. res_simpl H.
  apply (foldM_shape no nb _ _ _ _ (ref_edge_step_shape self ss sl no nb)
           (foldM_shape2 no nb _ _ _ _ _ (out_edge_step_shape self ss os sl no nb) Hm E1) H).
Qed.

Lemma source_sentence_step_translate self no nb a m item :
  mshape no nb a -> mshape no nb m ->
  source_sentence_step self (madd a m) item = (r ← source_sentence_step self m item; Ok (madd a r)).
Proof.
  intros Ha Hm. destruct item as [[[[[ss rs] os] ra] oa] sl].
  unfold source_sentence_step.
  bind_case (unwrap rs). bind_case (unwrap oa).
  rewrite (foldM_translate2 no nb a _ (fun x m e => out_edge_step_translate self ss os sl no nb a x m e Ha)
                            (out_edge_step_shape self ss os sl no nb)) by exact Hm.
  match goal with |- context [foldM (out_edge_step self ss os sl) ?l (?c, m)] =>
    destruct (foldM (out_edge_step self ss os sl) l (c, m)) as [[c' m']|] eqn:E end;
    cbn [mbind res_bind fst snd]; [|reflexivity].
  bind_case (unwrap ra).
  apply (foldM_translate no nb a _ (fun m e => ref_edge_step_translate self ss sl no nb a m e Ha)
           (ref_edge_step_shape self ss sl no nb)).
  exact (foldM_shape2 no nb _ _ _ _ _ (out_edge_step_shape self ss os sl no nb) Hm E).
Qed.

Lemma zip_longest6_take {A B C D E F} k (a : list A) (b : list B) (c : list C)
    (d : list D) (e : list E) (f : list F) :
  zip_longest6 (take k a) (take k b) (take k c) (take k d) (take k e) (take k f)
  = take k (zip_longest6 a b c d e f).
Proof.
  unfold zip_longest6. rewrite firstn_map, take_seq, !length_take.
  rewrite !Nat.min_max_distr.
  apply map_ext_in. intros i Hi. apply in_seq in Hi.
  rewrite !lookup_take_lt by lia. reflexivity.
Qed.

Lemma zip_longest6_drop {A B C D E F} k (a : list A) (b : list B) (c : list C)
    (d : list D) (e : list E) (f : list F) :
  zip_longest6 (drop k a) (drop k b) (drop k c) (drop k d) (drop k e) (drop k f)
  = drop k (zip_longest6 a b c d e f).
Proof.
  unfold zip_longest6. rewrite skipn_map, drop_seq, !length_drop, Nat.add_0_l.
  rewrite <- !Nat.sub_max_distr_r, <- (seq_add_shift k), map_map.
  apply map_ext. intros i. rewrite !lookup_drop. reflexivity.
Qed.

Lemma source_match_counts_split self src ref out ras oas sls k :
  source_match_counts self src ref out ras oas sls =
  (m1 ← source_match_counts self (take k src) (take k ref) (take k out)
                            (take k ras) (take k oas) (take k <$> sls);
   m2 ← source_match_counts self (drop k src) (drop k ref) (drop k out)
                            (drop k ras) (drop k oas) (drop k <$> sls);
   Ok (madd m1 m2)).
Proof.
  unfold source_match_counts. rewrite !default_truthy.
  replace (default [] (take k <$> sls)) with (take k (default [] sls))
    by (destruct sls; [reflexivity|apply take_nil]).
  replace (default [] (drop k <$> sls)) with (drop k (default [] sls))
    by (destruct sls; [reflexivity|apply drop_nil]).
  rewrite zip_longest6_take, zip_longest6_drop.
  set (z := replicate (length (bucket_strs self)) [0; 0; 0]%Z).
  assert (Hz : mshape (length (bucket_strs self)) 3 z).
  { split; [apply length_replicate|apply Forall_replicate; reflexivity]. }
  set (l := zip_longest6 src ref out ras oas (default [] sls)).
  rewrite <- (take_drop k l) at 1. rewrite foldM_app.
  destruct (foldM (source_sentence_step self) (take k l) z) as [m1|] eqn:E1;
    cbn [mbind res_bind]; [|reflexivity].
  assert (H1 : mshape (length (bucket_strs self)) 3 m1).
  { exact (foldM_shape _ _ _ _ _ _ (source_sentence_step_shape self _ _) Hz E1). }
  replace m1 with (madd m1 z) at 1 by (apply (madd_zeros_r _ 3); exact H1).
  apply (foldM_translate _ 3 m1 _ (fun m e => source_sentence_step_translate self _ 3 m1 m e H1)
           (source_sentence_step_shape self _ 3)).
  exact Hz.
Qed.

(** C5: per-bucket tallies are additive over sentence ranges.  For the
    target- and source-side modes of [calc_statistics] (on inputs whose
    parallel corpora all have one entry per reference sentence) the
    per-bucket (reference total, output totals, output matches) tally of
    sentences [[0..n)] is the bucket-wise sum of the tallies of [[0..k)]
    and [[k..n)], and the per-sentence tallies are concatenated; for the
    counting loop of [calc_source_bucketed_matches] the
    [[both_tot, ref_tot, out_tot]] rows of [[0..n)] are the sum of those
    of [[0..k)] and [[k..n)]. *)
Theorem bucket_tallies_additive self inp k src ref out ras oas sls
  (Hwf : stat_input_wf inp = true) (Hk : k <= length (Bucket.ref inp)) :
  calc_statistics self inp =
  (t1 ← calc_statistics self (take_input k inp);
   t2 ← calc_statistics self (drop_input k inp);
   Ok (tally_add t1.1 t2.1, t1.2 ++ t2.2)) /\
  source_match_counts self src ref out ras oas sls =
  (m1 ← source_match_counts self (take k src) (take k ref) (take k out)
                            (take k ras) (take k oas) (take k <$> sls);
   m2 ← source_match_counts self (drop k src) (drop k ref) (drop k out)
                            (drop k ras) (drop k oas) (drop k <$> sls);
   Ok (madd m1 m2)).
Proof.
  split; [apply calc_statistics_split; assumption|apply source_match_counts_split].
Qed.

Definition c5_self : WordBucketer :=
  mkWordBucketer ["<1"; ">=1"]
    (fun w _ => match w with Some "a" => Ok (BId 0) | _ => Ok (BId 1) end) false.

Definition c5_inp : stat_input :=
  mkStatInput [["a"; "b"]; ["b"; "a"]] [[["a"; "c"]; ["b"; "b"]]]
    None None None None None.

Lemma bucket_tallies_additive_witness :
  stat_input_wf c5_inp = true /\ 1 <= length (Bucket.ref c5_inp) /\
  ((calc_statistics c5_self c5_inp =
    (t1 ← calc_statistics c5_self (take_input 1 c5_inp);
     t2 ← calc_statistics c5_self (drop_input 1 c5_inp);
     Ok (tally_add t1.1 t2.1, t1.2 ++ t2.2))) /\
   source_match_counts c5_self [["x"; "a"]; ["a"]] [["a"]; ["a"]] [["a"]; ["b"]]
     [[(1, 0)]; [(0, 0)]] [[(1, 0)]; [(0, 0)]] None =
   (m1 ← source_match_counts c5_self (take 1 [["x"; "a"]; ["a"]]) (take 1 [["a"]; ["a"]])
           (take 1 [["a"]; ["b"]]) (take 1 [[(1, 0)]; [(0, 0)]])
           (take 1 [[(1, 0)]; [(0, 0)]]) (take 1 <$> None);
    m2 ← source_match_counts c5_self (drop 1 [["x"; "a"]; ["a"]]) (drop 1 [["a"]; ["a"]])
           (drop 1 [["a"]; ["b"]]) (drop 1 [[(1, 0)]; [(0, 0)]])
           (drop 1 [[(1, 0)]; [(0, 0)]]) (drop 1 <$> None);
    Ok (madd m1 m2))).
Proof.
  split; [reflexivity|]. split; [cbn; lia|].
  apply (bucket_tallies_additive c5_self c5_inp 1); [reflexivity|cbn; lia].
Defined.

(** C6: for the counting loop of [calc_source_bucketed_matches] a bucket
    can have matches ([both_tot > 0], counted over the output alignment
    edges) while its reference total ([ref_tot], counted over the
    reference alignment edges only) is 0; the guard [both_tot == 0] then
    does not apply and [both_tot / float(ref_tot)] raises
    [ZeroDivisionError].  Rows with [both_tot = 0] do give recall,
    precision and F1 of 0. *)
Theorem source_bucketed_matches_zero_division :
  (forall r o, bucket_result [0; r; o]%Z = Ok (0%Z, r, o, 0%Q, 0%Q, 0%Q)) /\
  (b ← FreqWordBucketer (Some {[ "y" := 5 ]}) None (Some [1]) false;
   source_match_counts b [["x"]] [["a"]] [["a"]] [[]] [[(0, 0)]] None)
  = Ok [[1; 0; 1]; [0; 0; 0]]%Z /\
  (b ← FreqWordBucketer (Some {[ "y" := 5 ]}) None (Some [1]) false;
   calc_source_bucketed_matches b [["x"]] [["a"]] [["a"]] [[]] [[(0, 0)]] None)
  = Raise ZeroDivisionError.
Proof.
  split; [intros r o; reflexivity|].
  split; vm_compute; reflexivity.
Qed.

End BucketProofs.

(** * ngram_utils *)

Module NgramProofs.
Import Ngram.

Ltac res_inv H :=
  unfold mbind, res_bind in H;
  repeat match type of H with
  | context [match ?m with Ok _ => _ | Raise _ => _ end] =>
      let E := fresh "E" in destruct m eqn:E; [|discriminate H]
  end.

Section DictSum.
Context {K : Type} `{Countable K}.
Implicit Types m a b t : gmap K nat.

Lemma counter_get_insert m i x w :
  counter_get (<[i:=x]> m) w = if decide (i = w) then x else counter_get m w.
Proof.
  unfold counter_get. destruct (decide (i = w)) as [->|Hne].
  - rewrite lookup_insert_eq. reflexivity.
  - rewrite lookup_insert_ne by exact Hne. reflexivity.
Qed.

Lemma counter_get_delete m i w :
  counter_get (delete i m) w = if decide (i = w) then 0 else counter_get m w.
Proof.
  unfold counter_get. destruct (decide (i = w)) as [->|Hne].
  - rewrite lookup_delete_eq. reflexivity.
  - rewrite lookup_delete_ne by exact Hne. reflexivity.
Qed.

Lemma dict_sum_empty : dict_sum (∅ : gmap K nat) = 0.
Proof. unfold dict_sum. apply map_fold_empty. Qed.

Lemma dict_sum_insert_fresh m i x :
  m !! i = None -> dict_sum (<[i:=x]> m) = x + dict_sum m.
Proof.
  intros Hi. unfold dict_sum. apply map_fold_insert_L; [intros; lia|exact Hi].
Qed.

Lemma dict_sum_delete m i : dict_sum m = counter_get m i + dict_sum (delete i m).
Proof.
  unfold counter_get. destruct (m !! i) as [x|] eqn:E; cbn.
  - unfold dict_sum. apply (map_fold_delete_L (fun _ v acc => v + acc)); [intros; lia|exact E].
  - rewrite delete_id by exact E. reflexivity.
Qed.

Lemma dict_sum_insert m i x :
  dict_sum (<[i:=x]> m) + counter_get m i = x + dict_sum m.
Proof.
  rewrite <- insert_delete_eq.
  rewrite dict_sum_insert_fresh by apply lookup_delete_eq.
  rewrite (dict_sum_delete m i). lia.
Qed.

Lemma dict_sum_counter_add m k v : dict_sum (counter_add m k v) = v + dict_sum m.
Proof. unfold counter_add. pose proof (dict_sum_insert m k (counter_get m k + v)). lia. Qed.

Lemma dict_sum_zero m : (forall k, counter_get m k = 0) -> dict_sum m = 0.
Proof.
  induction m as [|i x m Hi IH] using map_ind; intros Hz.
  - apply dict_sum_empty.
  - rewrite dict_sum_insert_fresh by exact Hi.
    pose proof (Hz i) as Hx. rewrite counter_get_insert, decide_True in Hx by reflexivity.
    rewrite IH; [lia|]. intros k. destruct (decide (i = k)) as [<-|Hne].
    + unfold counter_get. rewrite Hi. reflexivity.
    + pose proof (Hz k) as Hk. rewrite counter_get_insert, decide_False in Hk by exact Hne. exact Hk.
Qed.

Lemma dict_sum_le a b :
  (forall k, counter_get a k <= counter_get b k) -> dict_sum a <= dict_sum b.
Proof.
  revert b. induction a as [|i x a Hi IH] using map_ind; intros b Hle.
  - rewrite dict_sum_empty. lia.
  - rewrite dict_sum_insert_fresh by exact Hi. rewrite (dict_sum_delete b i).
    pose proof (Hle i) as Hx. rewrite counter_get_insert, decide_True in Hx by reflexivity.
    enough (dict_sum a <= dict_sum (delete i b)) by lia.
    apply IH. intros k. rewrite counter_get_delete.
    destruct (decide (i = k)) as [<-|Hne].
    + unfold counter_get. rewrite Hi. cbn. lia.
    + pose proof (Hle k) as Hk. rewrite counter_get_insert, decide_False in Hk by exact Hne. exact Hk.
Qed.

Lemma dict_sum_pointwise_add t a b :
  (forall k, counter_get t k = counter_get a k + counter_get b k) ->
  dict_sum t = dict_sum a + dict_sum b.
Proof.
  revert a b. induction t as [|i x t Hi IH] using map_ind; intros a b Hab.
  - rewrite dict_sum_empty.
    rewrite (dict_sum_zero a), (dict_sum_zero b); [reflexivity| |];
      intros k; specialize (Hab k); unfold counter_get at 1 in Hab;
      rewrite lookup_empty in Hab; cbn in Hab; lia.
  - rewrite dict_sum_insert_fresh by exact Hi.
    rewrite (dict_sum_delete a i), (dict_sum_delete b i).
    pose proof (Hab i) as Hx. rewrite counter_get_insert, decide_True in Hx by reflexivity.
    rewrite (IH (delete i a) (delete i b)); [lia|].
    intros k. rewrite !counter_get_delete. destruct (decide (i = k)) as [<-|Hne].
    + unfold counter_get. rewrite Hi. reflexivity.
    + pose proof (Hab k) as Hk. rewrite counter_get_insert, decide_False in Hk by exact Hne. exact Hk.
Qed.

(** Occurrences of [w] in [l] *)
Definition occ (w : K) (l : list K) : nat := length (filter (fun y => y = w) l).

Lemma occ_cons w x l : occ w (x :: l) = (if decide (x = w) then 1 else 0) + occ w l.
Proof. unfold occ. rewrite filter_cons. destruct (decide (x = w)); reflexivity. Qed.

Lemma occ_reverse w l : occ w (reverse l) = occ w l.
Proof. unfold occ. rewrite filter_reverse, length_reverse. reflexivity. Qed.

Lemma counter_get_foldl (l : list K) m w :
  counter_get (foldl (fun m x => counter_add m x 1) m l) w = counter_get m w + occ w l.
Proof.
  revert m. induction l as [|x l IH]; intros m; cbn [foldl].
  - unfold occ. cbn. lia.
  - rewrite IH, occ_cons. unfold counter_add. rewrite counter_get_insert.
    destruct (decide (x = w)) as [->|]; lia.
Qed.

Lemma counter_get_Counter (l : list K) w : counter_get (Counter l) w = occ w l.
Proof. unfold Counter. rewrite counter_get_foldl. reflexivity. Qed.

Lemma dict_sum_foldl (l : list K) m :
  dict_sum (foldl (fun m x => counter_add m x 1) m l) = dict_sum m + length l.
Proof.
  revert m. induction l as [|x l IH]; intros m; cbn [foldl length].
  - lia.
  - rewrite IH, dict_sum_counter_add. lia.
Qed.

Lemma dict_sum_Counter (l : list K) : dict_sum (Counter l) = length l.
Proof. unfold Counter. rewrite dict_sum_foldl, dict_sum_empty. reflexivity. Qed.

End DictSum.

Lemma dict_sum_dec (cnt : ngram_counter) w :
  0 < counter_get cnt w -> dict_sum (dec cnt w) + 1 = dict_sum cnt.
Proof.
  intros Hw. unfold dec. pose proof (dict_sum_insert (K:=ngram) cnt w (counter_get cnt w - 1)) as E.
  unfold ngram_counter in *. lia.
Qed.

Lemma counter_get_dec (cnt : ngram_counter) w v :
  counter_get (dec cnt w) v = if decide (w = v) then counter_get cnt w - 1 else counter_get cnt v.
Proof. unfold dec. apply counter_get_insert. Qed.


Lemma counter_get_counter_add {K} `{Countable K} (m : gmap K nat) k v w :
  counter_get (counter_add m k v) w =
  if decide (k = w) then counter_get m k + v else counter_get m w.
Proof. unfold counter_add. apply counter_get_insert. Qed.

Lemma occ_app {K} `{Countable K} (w : K) l1 l2 : occ w (l1 ++ l2) = occ w l1 + occ w l2.
Proof. unfold occ. rewrite filter_app, length_app. reflexivity. Qed.

Lemma occ_map_reverse {A K} `{Countable K} (f : A -> K) w l :
  occ w (map f (reverse l)) = occ w (map f l).
Proof.
  induction l as [|x l IH]; [reflexivity|].
  rewrite reverse_cons, map_app, occ_app, IH. cbn [map]. rewrite !occ_cons.
  unfold occ at 2. cbn. lia.
Qed.

(** The number of n-grams of lengths [min_length..max_length] of a
    sentence of [len] words, as [iterate_sent_ngrams] counts them. *)
Definition ngram_count (len : nat) (min_length max_length : Z) : nat :=
  list_sum (map (fun n => Z.to_nat (Z.of_nat len - n)) (py_range (min_length - 1) max_length)).

Definition opt_count (ws : option sentence) (min_length max_length : Z) : nat :=
  match ws with Some w => ngram_count (length w) min_length max_length | None => 0 end.

Lemma list_sum_cons' x l : list_sum (x :: l) = x + list_sum l.
Proof. reflexivity. Qed.

Lemma mapM_Forall2 {A B} (f : A -> res B) l r :
  Bucket.mapM f l = Ok r -> Forall2 (fun x y => f x = Ok y) l r.
Proof.
  revert r. induction l as [|x l IH]; intros r H; cbn in H.
  - injection H as <-. constructor.
  - res_inv H. injection H as <-. constructor; [exact E|]. apply IH. reflexivity.
Qed.

Lemma mapM_all_ok {A B} (f : A -> res B) l :
  (forall x, exists y, f x = Ok y) -> exists r, Bucket.mapM f l = Ok r.
Proof.
  intros Hf. induction l as [|x l IH]; [exists []; reflexivity|].
  destruct (Hf x) as [y Hy]. destruct IH as [r Hr].
  exists (y :: r). cbn. rewrite Hy, Hr. reflexivity.
Qed.

Lemma length_py_range a b : length (py_range a b) = Z.to_nat (b - a).
Proof. unfold py_range. rewrite length_map, length_seq. reflexivity. Qed.

Lemma iterate_sent_ngrams_length ws ls mn mx l :
  iterate_sent_ngrams ws ls mn mx = Ok l -> length l = opt_count ws mn mx.
Proof.
  unfold iterate_sent_ngrams. intros H. res_inv H. injection H as <-.
  apply mapM_Forall2 in E0. rewrite length_concat.
  remember (py_range (mn - 1) mx) as ns eqn:Hns. clear E.
  destruct ws as [w|].
  - unfold opt_count, ngram_count. rewrite <- Hns. clear Hns.
    induction E0 as [|n y ns ys Hy _ IH]; [reflexivity|].
    cbn in Hy. injection Hy as <-. cbn [fmap list_fmap map]. rewrite !list_sum_cons'.
    rewrite IH, length_map, length_py_range, Z.sub_0_r. reflexivity.
  - destruct E0 as [|n y ns ys Hy _]; [reflexivity|]. discriminate Hy.
Qed.

Lemma out_step_eq t m o c w l :
  out_step (t, m, o, c) (w, l) =
  if 0 <? counter_get c w
  then (counter_add t l 1, counter_add m l 1, o, dec c w)
  else (counter_add t l 1, m, counter_add o l 1, c).
Proof. reflexivity. Qed.

Lemma under_step_eq u c w l :
  under_step (u, c) (w, l) =
  if 0 <? counter_get c w then (counter_add u l 1, dec c w) else (u, c).
Proof. reflexivity. Qed.

Lemma out_loop_sums O t m o c t' m' o' c' :
  foldl out_step (t, m, o, c) O = (t', m', o', c') ->
  dict_sum t' = dict_sum t + length O /\
  dict_sum m' + dict_sum c' = dict_sum m + dict_sum c /\
  (forall w, counter_get c' w <= counter_get c w) /\
  ((forall l, counter_get t l = counter_get m l + counter_get o l) ->
   forall l, counter_get t' l = counter_get m' l + counter_get o' l).
Proof.
  revert t m o c. induction O as [|[w l] O IH]; intros t m o c H; cbn [foldl] in H.
  - injection H as <- <- <- <-. cbn [length]. split; [lia|]. split; [lia|]. split; [lia|]. auto.
  - rewrite out_step_eq in H. destruct (0 <? counter_get c w) eqn:Hw.
    + apply Nat.ltb_lt in Hw. apply IH in H as (H1 & H2 & H3 & H4).
      pose proof (dict_sum_dec c w Hw) as Hd. rewrite !dict_sum_counter_add in *.
      cbn [length]. split; [lia|]. split; [lia|]. split.
      * intros v. specialize (H3 v). rewrite counter_get_dec in H3.
        destruct (decide (w = v)) as [<-|]; lia.
      * intros Hp. apply H4. intros k. rewrite !counter_get_counter_add.
        specialize (Hp k). destruct (decide (l = k)) as [<-|]; lia.
    + apply Nat.ltb_ge in Hw. apply IH in H as (H1 & H2 & H3 & H4).
      rewrite !dict_sum_counter_add in *. cbn [length].
      split; [lia|]. split; [lia|]. split; [exact H3|].
      intros Hp. apply H4. intros k. rewrite !counter_get_counter_add.
      specialize (Hp k). destruct (decide (l = k)) as [<-|]; lia.
Qed.

Lemma under_loop_sum L u c u' c' :
  (forall w, counter_get c w <= occ w (map fst L)) ->
  foldl under_step (u, c) L = (u', c') ->
  dict_sum u' = dict_sum u + dict_sum c.
Proof.
  revert u c. induction L as [|[w l] L IH]; intros u c Hc H; cbn [foldl] in H.
  - injection H as <- <-. rewrite (dict_sum_zero c); [lia|].
    intros k. specialize (Hc k). unfold occ in Hc. cbn in Hc. lia.
  - rewrite under_step_eq in H. cbn [map fst] in Hc.
    destruct (0 <? counter_get c w) eqn:Hw.
    + apply Nat.ltb_lt in Hw. apply IH in H.
      * rewrite H, dict_sum_counter_add. pose proof (dict_sum_dec c w Hw). lia.
      * intros v. rewrite counter_get_dec. specialize (Hc v). rewrite occ_cons in Hc.
        destruct (decide (w = v)) as [<-|]; lia.
    + apply Nat.ltb_ge in Hw. apply IH in H; [exact H|].
      intros v. specialize (Hc v). rewrite occ_cons in Hc.
      destruct (decide (w = v)) as [<-|]; lia.
Qed.

Lemma compare_step_sums mn mx t m o u rs os rl ol t' m' o' u' :
  compare_step mn mx (t, m, o, u) (rs, os, rl, ol) = Ok (t', m', o', u') ->
  dict_sum t' = dict_sum t + opt_count os mn mx /\
  dict_sum m' + dict_sum u' = dict_sum m + dict_sum u + opt_count rs mn mx /\
  ((forall l, counter_get t l = counter_get m l + counter_get o l) ->
   forall l, counter_get t' l = counter_get m' l + counter_get o' l).
Proof.
  intros H. unfold compare_step in H. res_inv H.
  destruct (foldl out_step _ _) as [[[t1 m1] o1] c1] eqn:Eo.
  destruct (foldl under_step _ _) as [u1 c2] eqn:Eu.
  injection H as <- <- <- <-.
  apply out_loop_sums in Eo as (H1 & H2 & H3 & H4).
  apply under_loop_sum in Eu.
  - rewrite dict_sum_Counter, length_map, (iterate_sent_ngrams_length _ _ _ _ _ E) in H2.
    rewrite (iterate_sent_ngrams_length _ _ _ _ _ E0) in H1.
    split; [exact H1|]. split; [lia|exact H4].
  - intros w. rewrite occ_map_reverse. specialize (H3 w).
    rewrite counter_get_Counter in H3. exact H3.
Qed.

Lemma compare_fold_sums mn mx xs t m o u t' m' o' u' :
  foldM (compare_step mn mx) xs (t, m, o, u) = Ok (t', m', o', u') ->
  dict_sum t' = dict_sum t + list_sum (map (fun x => opt_count x.1.1.2 mn mx) xs) /\
  dict_sum m' + dict_sum u' =
    dict_sum m + dict_sum u + list_sum (map (fun x => opt_count x.1.1.1 mn mx) xs) /\
  ((forall l, counter_get t l = counter_get m l + counter_get o l) ->
   forall l, counter_get t' l = counter_get m' l + counter_get o' l).
Proof.
  revert t m o u. induction xs as [|[[[rs os] rl] ol] xs IH]; intros t m o u H; cbn [foldM] in H.
  - injection H as <- <- <- <-. cbn. split; [lia|]. split; [lia|]. auto.
  - destruct (compare_step mn mx (t, m, o, u) (rs, os, rl, ol)) as [[[[t1 m1] o1] u1]|e] eqn:E;
      [|discriminate H].
    apply compare_step_sums in E as (E1 & E2 & E3).
    apply IH in H as (H1 & H2 & H3). cbn [map fst snd]. rewrite !list_sum_cons'.
    split; [lia|]. split; [lia|]. auto.
Qed.

Lemma sum_lookup_seq {A} (g : option A -> nat) (l : list A) N :
  g None = 0 -> length l <= N ->
  list_sum (map (fun i => g (l !! i)) (seq 0 N)) = list_sum (map (fun x => g (Some x)) l).
Proof.
  intros Hg. revert N. induction l as [|x l IH]; intros N HN.
  - transitivity 0; [|reflexivity].
    induction (seq 0 N) as [|i s IHs]; [reflexivity|].
    cbn [map]. rewrite list_sum_cons', IHs. change (([] : list A) !! i) with (@None A).
    rewrite Hg. reflexivity.
  - destruct N as [|N]; [cbn in HN; lia|].
    cbn [seq map]. rewrite list_sum_cons', <- seq_shift, map_map.
    rewrite (map_ext _ (fun i => g (l !! i))) by (intros; reflexivity).
    rewrite (IH N) by (cbn in HN; lia). reflexivity.
Qed.

Lemma sum_zip_out (ref out rl ol : corpus) mn mx :
  list_sum (map (fun x => opt_count x.1.1.2 mn mx) (zip_longest4 ref out rl ol)) =
  list_sum (map (fun s => ngram_count (length s) mn mx) out).
Proof.
  unfold zip_longest4. rewrite map_map. cbn [fst snd].
  apply (sum_lookup_seq (fun o => opt_count o mn mx)); [reflexivity|lia].
Qed.

Lemma sum_zip_ref (ref out rl ol : corpus) mn mx :
  list_sum (map (fun x => opt_count x.1.1.1 mn mx) (zip_longest4 ref out rl ol)) =
  list_sum (map (fun s => ngram_count (length s) mn mx) ref).
Proof.
  unfold zip_longest4. rewrite map_map. cbn [fst snd].
  apply (sum_lookup_seq (fun o => opt_count o mn mx)); [reflexivity|lia].
Qed.

Theorem compare_ngrams_counts ref out rl ol mn mx t m o u :
  compare_ngrams ref out rl ol mn mx = Ok (t, m, o, u) ->
  dict_sum t = list_sum (map (fun s => ngram_count (length s) mn mx) out) /\
  dict_sum m + dict_sum u = list_sum (map (fun s => ngram_count (length s) mn mx) ref) /\
  (forall l, counter_get t l = counter_get m l + counter_get o l) /\
  dict_sum t = dict_sum m + dict_sum o.
Proof.
  unfold compare_ngrams. destruct (negb _); [discriminate|]. intros H.
  apply compare_fold_sums in H as (H1 & H2 & H3).
  rewrite sum_zip_out in H1. rewrite sum_zip_ref in H2.
  unfold ngram_counter in *. rewrite !(dict_sum_empty (K:=ngram)) in H1, H2.
  assert (Hp : forall l, counter_get t l = counter_get m l + counter_get o l).
  { apply H3. intros l. unfold counter_get. rewrite !lookup_empty. reflexivity. }
  split; [lia|]. split; [lia|]. split; [exact Hp|].
  apply dict_sum_pointwise_add, Hp.
Qed.

Lemma out_loop_self O t o c :
  (forall w, occ w (map fst O) <= counter_get c w) ->
  exists t' c', foldl out_step (t, t, o, c) O = (t', t', o, c') /\
    forall w, counter_get c' w = counter_get c w - occ w (map fst O).
Proof.
  revert t c. induction O as [|[w l] O IH]; intros t c Hc; cbn [foldl].
  - exists t, c. split; [reflexivity|]. intros v. unfold occ. cbn. lia.
  - rewrite out_step_eq. cbn [map fst] in Hc.
    assert (Hw : 0 < counter_get c w).
    { specialize (Hc w). rewrite occ_cons, decide_True in Hc by reflexivity. lia. }
    apply Nat.ltb_lt in Hw as Hb. rewrite Hb.
    destruct (IH (counter_add t l 1) (dec c w)) as (t' & c' & E & Hc').
    + intros v. rewrite counter_get_dec. specialize (Hc v). rewrite occ_cons in Hc.
      destruct (decide (w = v)) as [<-|]; lia.
    + exists t', c'. split; [exact E|]. intros v. rewrite Hc', counter_get_dec.
      cbn [map fst]. rewrite occ_cons. destruct (decide (w = v)) as [<-|]; lia.
Qed.

Lemma under_loop_zero L u c :
  (forall w, counter_get c w = 0) -> foldl under_step (u, c) L = (u, c).
Proof.
  intros Hc. induction L as [|[w l] L IH]; [reflexivity|].
  cbn [foldl]. rewrite under_step_eq, (Hc w). exact IH.
Qed.

Lemma compare_step_self mn mx t o u rs rl l :
  iterate_sent_ngrams rs rl mn mx = Ok l ->
  exists t', compare_step mn mx (t, t, o, u) (rs, rs, rl, rl) = Ok (t', t', o, u).
Proof.
  intros Hl. unfold compare_step. unfold mbind, res_bind. rewrite Hl.
  destruct (out_loop_self l t o (Counter (map fst l))) as (t' & c' & E & Hc).
  { intros w. rewrite counter_get_Counter. lia. }
  rewrite E. rewrite under_loop_zero.
  - exists t'. reflexivity.
  - intros w. rewrite Hc, counter_get_Counter. lia.
Qed.

Lemma compare_fold_self mn mx xs t o u t' m' o' u' :
  Forall (fun x => x.1.1.1 = x.1.1.2 /\ x.1.2 = x.2) xs ->
  foldM (compare_step mn mx) xs (t, t, o, u) = Ok (t', m', o', u') ->
  m' = t' /\ o' = o /\ u' = u.
Proof.
  intros Hxs. revert t. induction Hxs as [|[[[rs os] rl] ol] xs [Hs Hl] _ IH]; intros t H;
    cbn [foldM] in H.
  - injection H as <- <- <- <-. auto.
  - cbn in Hs, Hl. subst os ol.
    destruct (compare_step mn mx (t, t, o, u) (rs, rs, rl, rl)) as [[[[t1 m1] o1] u1]|e] eqn:E;
      [|discriminate H].
    assert (Hi : exists l, iterate_sent_ngrams rs rl mn mx = Ok l).
    { unfold compare_step in E. res_inv E. eauto. }
    destruct Hi as [l Hi]. destruct (compare_step_self mn mx t o u rs rl l Hi) as [t1' E'].
    rewrite E' in E. injection E as <- <- <- <-. exact (IH _ H).
Qed.

Lemma iterate_sent_ngrams_ok w mn mx :
  exists l, iterate_sent_ngrams (Some w) None mn mx = Ok l.
Proof.
  unfold iterate_sent_ngrams, label_check. unfold mbind, res_bind.
  match goal with |- context [Bucket.mapM ?f ?l] => destruct (mapM_all_ok f l) as [r Hr] end.
  - intros n. eexists. reflexivity.
  - rewrite Hr. eexists. reflexivity.
Qed.

Lemma compare_fold_self_ok mn mx xs t o u :
  Forall (fun x => exists s, x = (Some s, Some s, None, None)) xs ->
  exists t', foldM (compare_step mn mx) xs (t, t, o, u) = Ok (t', t', o, u).
Proof.
  intros Hxs. revert t. induction Hxs as [|x xs [s ->] _ IH]; intros t.
  - exists t. reflexivity.
  - destruct (iterate_sent_ngrams_ok s mn mx) as [l Hl].
    destruct (compare_step_self mn mx t o u (Some s) None l Hl) as [t1 E].
    cbn [foldM]. rewrite E. apply IH.
Qed.

Theorem compare_ngrams_self (c : corpus) (labels : option corpus) mn mx :
  (exists t, compare_ngrams c c None None mn mx = Ok (t, t, ∅, ∅)) /\
  (forall t m o u, compare_ngrams c c labels labels mn mx = Ok (t, m, o, u) ->
   m = t /\ o = ∅ /\ u = ∅).
Proof.
  split.
  - unfold compare_ngrams. cbn [is_none Bool.eqb negb default].
    apply compare_fold_self_ok. unfold zip_longest4. apply Forall_map, Forall_forall.
    intros i Hi. apply elem_of_seq in Hi. cbn [length] in Hi.
    destruct (lookup_lt_is_Some_2 c i) as [s Hs]; [lia|].
    exists s. rewrite Hs. reflexivity.
  - intros t m o u. unfold compare_ngrams.
    rewrite eqb_reflx. cbn [negb]. apply compare_fold_self.
    unfold zip_longest4. apply Forall_map, Forall_forall. intros i _. cbn. auto.
Qed.

(** All n-grams of lengths [min_length..max_length] of [w], shortest first *)
Definition all_ngrams (w : sentence) (min_length max_length : Z) : list ngram :=
  concat (map (fun n => sent_ngrams_list w (Z.to_nat n)) (py_range min_length (max_length + 1))).

Lemma py_slice_window {A} (w : list A) (i x : Z) :
  (0 <= i)%Z -> (-1 <= x)%Z -> (i + x + 1 <= Z.of_nat (length w))%Z ->
  py_slice w i (i + x + 1) = firstn (Z.to_nat (x + 1)) (skipn (Z.to_nat i) w).
Proof.
  intros Hi Hn Hl. unfold py_slice.
  destruct (Z.ltb_spec (i + x + 1) 0); [lia|]. destruct (Z.ltb_spec i 0); [lia|].
  rewrite (Z.min_l i) by lia. rewrite (Z.min_l (i + x + 1)) by lia.
  f_equal. lia.
Qed.

Lemma py_range_shift a b :
  py_range (a - 1) b = map (fun n => n - 1)%Z (py_range a (b + 1)).
Proof.
  unfold py_range. rewrite map_map.
  replace (b + 1 - a)%Z with (b - (a - 1))%Z by lia.
  apply map_ext. intros k. lia.
Qed.

Lemma py_range_0 (m : Z) :
  py_range 0 m = map Z.of_nat (seq 0 (Z.to_nat m)).
Proof. unfold py_range. rewrite Z.sub_0_r. apply map_ext. intros k. lia. Qed.

Lemma in_py_range a b x : In x (py_range a b) -> (a <= x < b)%Z.
Proof.
  unfold py_range. intros H. apply in_map_iff in H as (k & <- & Hk).
  apply in_seq in Hk. lia.
Qed.

Lemma mapM_ok_map {A B} (f : A -> res B) (g : A -> B) l :
  (forall x, In x l -> f x = Ok (g x)) -> Bucket.mapM f l = Ok (map g l).
Proof.
  induction l as [|x l IH]; intros Hf; [reflexivity|].
  cbn. rewrite (Hf x) by (left; reflexivity). rewrite IH by (intros y Hy; apply Hf; right; exact Hy).
  reflexivity.
Qed.

Lemma zip_map_same {A B C} (f : A -> B) (g : A -> C) l :
  zip (map f l) (map g l) = map (fun x => (f x, g x)) l.
Proof. induction l as [|x l IH]; [reflexivity|]. cbn. rewrite IH. reflexivity. Qed.

Lemma zip_app' {A B} (l1 l2 : list A) (k1 k2 : list B) :
  length l1 = length k1 -> zip (l1 ++ l2) (k1 ++ k2) = zip l1 k1 ++ zip l2 k2.
Proof.
  revert k1. induction l1 as [|x l1 IH]; intros [|y k1] Hl; try discriminate Hl; [reflexivity|].
  cbn. rewrite IH by (cbn in Hl; lia). reflexivity.
Qed.

Lemma zip_concat {A B C} (f : A -> list B) (g : A -> list C) l :
  (forall x, length (f x) = length (g x)) ->
  zip (concat (map f l)) (concat (map g l)) = concat (map (fun x => zip (f x) (g x)) l).
Proof.
  intros Hfg. induction l as [|x l IH]; [reflexivity|].
  cbn [map concat]. rewrite zip_app' by apply Hfg. rewrite <- IH. reflexivity.
Qed.

Lemma length_sent_ngrams_list (w : sentence) k :
  length (sent_ngrams_list w k) = Z.to_nat (Z.of_nat (length w) - Z.of_nat k + 1).
Proof. unfold sent_ngrams_list. rewrite length_map, length_seq. reflexivity. Qed.

Theorem iterate_sent_ngrams_windows (w : sentence) (labels : option sentence) mn mx :
  (0 <= mn)%Z ->
  match labels with
  | None => iterate_sent_ngrams (Some w) None mn mx =
              Ok (map (fun g => (g, g)) (all_ngrams w mn mx))
  | Some lab =>
      if length lab =? length w
      then iterate_sent_ngrams (Some w) (Some lab) mn mx =
             Ok (zip (all_ngrams w mn mx) (all_ngrams lab mn mx))
      else iterate_sent_ngrams (Some w) (Some lab) mn mx =
             Raise (ValueError "length of labels and sentence must be the same")
  end.
Proof.
  intros Hmn. unfold iterate_sent_ngrams. destruct labels as [lab|].
  - cbn [label_check]. unfold mbind, res_bind. cbn [Bucket.unwrap].
    destruct (Nat.eqb_spec (length lab) (length w)) as [Hl|Hl]; [|reflexivity].
    rewrite (mapM_ok_map _ (fun n => zip (sent_ngrams_list w (Z.to_nat (n + 1)))
                                         (sent_ngrams_list lab (Z.to_nat (n + 1))))).
    + f_equal. unfold all_ngrams.
      rewrite zip_concat by (intros; rewrite !length_sent_ngrams_list, Hl; reflexivity).
      rewrite py_range_shift, map_map. f_equal. apply map_ext. intros n.
      rewrite Z.sub_add. reflexivity.
    + intros x Hx. apply in_py_range in Hx. cbn [Bucket.unwrap]. f_equal.
      unfold sent_ngrams_list. rewrite Hl, zip_map_same, py_range_0, map_map.
      replace (Z.of_nat (length w) - Z.of_nat (Z.to_nat (x + 1)) + 1)%Z
        with (Z.of_nat (length w) - x)%Z by lia.
      apply map_ext_in. intros k Hk. apply in_seq in Hk.
      rewrite !py_slice_window by lia. rewrite Nat2Z.id. reflexivity.
  - cbn [label_check]. unfold mbind, res_bind. cbn [Bucket.unwrap].
    rewrite (mapM_ok_map _ (fun n => map (fun g => (g, g)) (sent_ngrams_list w (Z.to_nat (n + 1))))).
    + f_equal. unfold all_ngrams. rewrite concat_map, map_map, py_range_shift, map_map.
      f_equal. apply map_ext. intros n. rewrite Z.sub_add. reflexivity.
    + intros x Hx. apply in_py_range in Hx. cbn [Bucket.unwrap]. f_equal.
      unfold sent_ngrams_list. rewrite py_range_0, !map_map.
      replace (Z.of_nat (length w) - Z.of_nat (Z.to_nat (x + 1)) + 1)%Z
        with (Z.of_nat (length w) - x)%Z by lia.
      apply map_ext_in. intros k Hk. apply in_seq in Hk.
      rewrite !py_slice_window by lia. rewrite Nat2Z.id. reflexivity.
Qed.

(** Witnesses *)
Definition ex_ref : corpus := [["a"; "b"; "a"]; ["c"]].
Definition ex_out : corpus := [["a"; "a"; "b"]; ["c"; "d"]].

Lemma iterate_sent_ngrams_windows_witness :
  (0 <= 1)%Z /\
  iterate_sent_ngrams (Some ["a"; "b"; "c"]) None 1 2 =
    Ok (map (fun g => (g, g)) (all_ngrams ["a"; "b"; "c"] 1 2)).
Proof. split; [lia|]. exact (iterate_sent_ngrams_windows ["a"; "b"; "c"] None 1 2 ltac:(lia)). Defined.

Lemma compare_ngrams_counts_witness :
  exists t m o u,
    compare_ngrams ex_ref ex_out None None 1 2 = Ok (t, m, o, u) /\
    (dict_sum t = list_sum (map (fun s => ngram_count (length s) 1 2) ex_out) /\
     dict_sum m + dict_sum u = list_sum (map (fun s => ngram_count (length s) 1 2) ex_ref) /\
     (forall l, counter_get t l = counter_get m l + counter_get o l) /\
     dict_sum t = dict_sum m + dict_sum o).
Proof.
  lazymatch eval vm_compute in (compare_ngrams ex_ref ex_out None None 1 2) with
  | Ok (?t, ?m, ?o, ?u) =>
      exists t, m, o, u;
      assert (E : compare_ngrams ex_ref ex_out None None 1 2 = Ok (t, m, o, u))
        by (vm_compute; reflexivity);
      split; [exact E|exact (compare_ngrams_counts ex_ref ex_out None None 1 2 t m o u E)]
  end.
Defined.

Lemma compare_ngrams_self_witness :
  exists t, compare_ngrams ex_ref ex_ref None None 1 2 = Ok (t, t, ∅, ∅).
Proof. exact (proj1 (compare_ngrams_self ex_ref None 1 2)). Defined.

End NgramProofs.

(** * align_utils and RibesScorer.score_sentence *)
Module AlignProofs.
Import Ngram Align.
Local Open Scope Z_scope.

Ltac res_inv H :=
  unfold mbind, res_bind in H;
  repeat match type of H with
  | context [match ?m with Ok _ => _ | Raise _ => _ end] =>
      let E := fresh "E" in destruct m eqn:E; [|discriminate H]
  end.

(** Loop reasoning for [foldM] *)
Lemma foldM_inv_in {A B} (I : A -> Prop) (f : A -> B -> res A) l a b :
  I a -> (forall x a a', In x l -> I a -> f a x = Ok a' -> I a') ->
  foldM f l a = Ok b -> I b.
Proof.
  revert a. induction l as [|x l IH]; intros a Ha Hf H; cbn [foldM] in H.
  - injection H as <-. exact Ha.
  - destruct (f a x) as [a1|e] eqn:E; [|discriminate H].
    apply (IH a1); [apply (Hf x a); auto; left; reflexivity| |exact H].
    intros y c c' Hy. apply Hf. right. exact Hy.
Qed.

Lemma foldM_ok {A B} (I : A -> Prop) (f : A -> B -> res A) l a :
  I a -> (forall x a, In x l -> I a -> exists a', f a x = Ok a' /\ I a') ->
  exists b, foldM f l a = Ok b /\ I b.
Proof.
  revert a. induction l as [|x l IH]; intros a Ha Hf; cbn [foldM].
  - exists a. auto.
  - destruct (Hf x a) as (a1 & E & Ha1); [left; reflexivity|exact Ha|].
    rewrite E. apply IH; [exact Ha1|]. intros y c Hy. apply Hf. right. exact Hy.
Qed.

Lemma foldM_idx {A B} (I : nat -> A -> Prop) (f : A -> B -> res A) l a b :
  I 0%nat a ->
  (forall k x a a', l !! k = Some x -> I k a -> f a x = Ok a' -> I (S k) a') ->
  foldM f l a = Ok b -> I (length l) b.
Proof.
  revert I a. induction l as [|x l IH]; intros I a Ha Hf H; cbn [foldM] in H.
  - injection H as <-. exact Ha.
  - destruct (f a x) as [a1|e] eqn:E; [|discriminate H].
    apply (IH (fun k => I (S k)) a1); [apply (Hf 0%nat x a); auto| |exact H].
    intros k y c c' Hy. apply Hf. exact Hy.
Qed.

Lemma in_py_range' a b x : In x (py_range a b) <-> a <= x < b.
Proof.
  unfold py_range. rewrite in_map_iff. split.
  - intros (k & <- & Hk). apply in_seq in Hk. lia.
  - intros Hx. exists (Z.to_nat (x - a)). split; [lia|]. apply in_seq. lia.
Qed.

Lemma py_range_cons a b : a < b -> py_range a b = a :: py_range (a + 1) b.
Proof.
  intros Hab. unfold py_range.
  replace (Z.to_nat (b - a)) with (S (Z.to_nat (b - (a + 1)))) by lia.
  cbn [seq map]. f_equal; [lia|]. rewrite <- seq_shift, map_map.
  apply map_ext. intros k. lia.
Qed.

Lemma in_enumerate_z {A} (l : list A) i w :
  In (i, w) (enumerate_z l) -> 0 <= i < Z.of_nat (length l) /\ l !! Z.to_nat i = Some w.
Proof.
  unfold enumerate_z. intros H. apply list_elem_of_In in H.
  apply elem_of_lookup_imap in H as (k & y & E & Hk). injection E as -> ->.
  apply lookup_lt_Some in Hk as Hlt. split; [lia|]. rewrite Nat2Z.id. exact Hk.
Qed.

Lemma lookup_enumerate_z {A} (l : list A) k x :
  enumerate_z l !! k = Some x -> exists w, x = (Z.of_nat k, w) /\ l !! k = Some w.
Proof.
  unfold enumerate_z. rewrite list_lookup_imap. destruct (l !! k) as [w|]; [|discriminate].
  intros H. injection H as <-. eauto.
Qed.

Lemma py_index_ok {A} (l : list A) k :
  - Z.of_nat (length l) <= k < Z.of_nat (length l) -> exists x, py_index l k = Ok x.
Proof.
  intros Hk. unfold py_index, py_get.
  destruct (lookup_lt_is_Some_2 l (Z.to_nat (if k <? 0 then k + Z.of_nat (length l) else k)))
    as [x Hx].
  { destruct (Z.ltb_spec k 0); lia. }
  exists x. destruct (Z.ltb_spec k 0) as [Hn|Hn].
  - destruct (Z.ltb_spec (k + Z.of_nat (length l)) 0); [lia|]. rewrite Hx. reflexivity.
  - destruct (Z.ltb_spec k 0); [lia|]. rewrite Hx. reflexivity.
Qed.

(** The initial [gram_pos]: an empty table under each order [1..order] *)
Lemma init_lookup (l : list Z) (g : gram_table) k :
  foldl (fun gp i => <[(i + 1)%Z := ∅]> gp) g l !! k =
  if decide (k - 1 ∈ l) then Some ∅ else g !! k.
Proof.
  revert g. induction l as [|i l IH]; intros g; cbn [foldl].
  - destruct (decide (k - 1 ∈ [])) as [Hin|]; [apply elem_of_nil in Hin; contradiction|reflexivity].
  - rewrite IH. destruct (decide (k - 1 ∈ l)) as [Hin|Hin];
      destruct (decide (k - 1 ∈ i :: l)) as [Hin'|Hin']; try reflexivity.
    + exfalso. apply Hin'. apply elem_of_cons. right. exact Hin.
    + apply elem_of_cons in Hin' as [<-|]; [|contradiction].
      rewrite Z.sub_add. apply lookup_insert_eq.
    + rewrite lookup_insert_ne; [reflexivity|]. intros E. apply Hin'. apply elem_of_cons. left. lia.
Qed.

Section CountNgram.
Variable sent : sentence.
Variable order : Z.

(** The orders present in [gram_pos] *)
Definition KeyInv (gp : gram_table) : Prop :=
  forall k, is_Some (gp !! k) <-> 1 <= k <= order.

(** A position [p] stored under order [k] starts an n-gram of [k] words
    inside the sentence. *)
Definition BndInv (gp : gram_table) : Prop :=
  forall k d w p, gp !! k = Some d -> In p (dd_get d w) ->
    0 <= p /\ p + k <= Z.of_nat (length sent).

Definition gp_init : gram_table := foldl (fun gp i => <[(i + 1)%Z := ∅]> gp) ∅ (py_range 0 order).

Lemma gp_init_lookup k : gp_init !! k = if decide (1 <= k <= order) then Some ∅ else None.
Proof.
  unfold gp_init. rewrite init_lookup.
  destruct (decide (k - 1 ∈ py_range 0 order)) as [H|H];
    destruct (decide (1 <= k <= order)) as [H'|H']; try reflexivity.
  - apply list_elem_of_In, in_py_range' in H. lia.
  - exfalso. apply H. apply list_elem_of_In, in_py_range'. lia.
Qed.

Lemma KeyInv_init : KeyInv gp_init.
Proof.
  intros k. rewrite gp_init_lookup. destruct (decide (1 <= k <= order)) as [H|H].
  - split; [intros _; exact H|intros _; eexists; reflexivity].
  - split; [intros [? E]; discriminate E|lia].
Qed.

Lemma BndInv_init : BndInv gp_init.
Proof.
  intros k d w p. rewrite gp_init_lookup. destruct (decide (1 <= k <= order)); [|discriminate].
  intros E. injection E as <-. unfold dd_get. rewrite lookup_empty. cbn. contradiction.
Qed.

Lemma count_inner_inv i gp w j st' :
  count_inner sent i (gp, w) j = Ok st' ->
  exists d, gp !! (j + 1) = Some d /\
    st'.1 = <[(j + 1)%Z := <[w := dd_get d w ++ [i - j]]> d]> gp.
Proof.
  unfold count_inner, dict_get. intros H. res_inv H.
  destruct (gp !! (j + 1)) as [d|] eqn:Ed; [|discriminate E].
  injection E as <-. injection H as <-. exists d. auto.
Qed.

Lemma count_inner_ok i gp w j :
  0 <= j <= i -> i < Z.of_nat (length sent) -> is_Some (gp !! (j + 1)) ->
  exists w', count_inner sent i (gp, w) j =
    Ok (<[(j + 1)%Z := <[w := dd_get (gp !!! (j + 1)) w ++ [i - j]]> (gp !!! (j + 1))]> gp, w').
Proof.
  intros Hj Hi [d Hd]. unfold count_inner, dict_get. rewrite Hd.
  destruct (py_index_ok sent (i - j - 1)) as [x Hx]; [lia|].
  exists (join_sp x w). cbn. rewrite Hx. rewrite (lookup_total_correct gp _ d Hd). reflexivity.
Qed.

Lemma BndInv_insert gp j i w d :
  BndInv gp -> gp !! (j + 1) = Some d -> 0 <= j <= i -> i < Z.of_nat (length sent) ->
  BndInv (<[(j + 1)%Z := <[w := dd_get d w ++ [i - j]]> d]> gp).
Proof.
  intros Hb Hd Hj Hi k d' v p Hk Hp.
  destruct (decide (j + 1 = k)) as [<-|Hne].
  - rewrite lookup_insert_eq in Hk. injection Hk as <-.
    unfold dd_get in Hp at 1. destruct (decide (w = v)) as [<-|Hwv].
    + rewrite lookup_insert_eq in Hp. cbn in Hp. apply in_app_or in Hp as [Hp|[<-|[]]].
      * exact (Hb _ _ _ _ Hd Hp).
      * lia.
    + rewrite lookup_insert_ne in Hp by exact Hwv. exact (Hb _ _ _ _ Hd Hp).
  - rewrite lookup_insert_ne in Hk by exact Hne. exact (Hb _ _ _ _ Hk Hp).
Qed.

Lemma KeyInv_insert gp j v :
  KeyInv gp -> is_Some (gp !! (j + 1)) -> KeyInv (<[(j + 1)%Z := v]> gp).
Proof.
  intros Hk Hs k. destruct (decide (j + 1 = k)) as [<-|Hne].
  - rewrite lookup_insert_eq. split; intros _; [apply Hk; exact Hs|eexists; reflexivity].
  - rewrite lookup_insert_ne by exact Hne. apply Hk.
Qed.

(** [_count_ngram] never raises, and its table keeps both invariants. *)
Lemma count_ngram_ok :
  exists gp, _count_ngram sent order = Ok gp /\ KeyInv gp /\ BndInv gp.
Proof.
  unfold _count_ngram. fold gp_init.
  apply (foldM_ok (fun gp => KeyInv gp /\ BndInv gp)); [split; [apply KeyInv_init|apply BndInv_init]|].
  intros [i w] gp Hiw [Hk Hb]. apply in_enumerate_z in Hiw as [Hi _].
  destruct (foldM_ok (fun st => KeyInv st.1 /\ BndInv st.1) (count_inner sent i)
              (py_range 0 (Z.min (i + 1) order)) (gp, w)) as (st & E & Hst).
  - split; assumption.
  - intros j [gp1 w1] Hj [Hk1 Hb1]. apply in_py_range' in Hj.
    assert (Hs : is_Some (gp1 !! (j + 1))) by (apply Hk1; lia).
    destruct (count_inner_ok i gp1 w1 j) as [w' E]; [lia|lia|exact Hs|].
    eexists. split; [exact E|]. cbn [fst]. split.
    + apply KeyInv_insert; assumption.
    + destruct Hs as [d Hd]. rewrite (lookup_total_correct gp1 _ d Hd).
      apply BndInv_insert; [assumption|assumption|lia|lia].
  - exists st.1. split; [|exact Hst]. rewrite E. reflexivity.
Qed.

Lemma count_ngram_keys gp : _count_ngram sent order = Ok gp -> KeyInv gp /\ BndInv gp.
Proof.
  intros H. destruct count_ngram_ok as (gp' & E & Hgp). rewrite E in H.
  injection H as <-. exact Hgp.
Qed.

End CountNgram.

(** The positions of [w] among the first [m] words of [sent] *)
Definition positions (sent : sentence) (w : string) (m : nat) : list Z :=
  map Z.of_nat (filter (fun p => sent !! p = Some w) (seq 0 m)).

Lemma positions_S sent w m :
  positions sent w (S m) =
  positions sent w m ++ (if decide (sent !! m = Some w) then [Z.of_nat m] else []).
Proof.
  unfold positions. rewrite seq_S, filter_app, map_app. f_equal.
  rewrite filter_cons, filter_nil. cbn [Nat.add].
  destruct (decide (sent !! m = Some w)); reflexivity.
Qed.

Lemma count_inner_keep1 sent i js (d : pos_dict) st st' :
  (forall j, In j js -> 1 <= j) -> st.1 !! 1 = Some d ->
  foldM (count_inner sent i) js st = Ok st' -> st'.1 !! 1 = Some d.
Proof.
  intros Hjs Hd H. revert H. apply (foldM_inv_in (fun st => st.1 !! 1 = Some d)); [exact Hd|].
  intros j [gp w] st2 Hj Hgp E. apply count_inner_inv in E as (d' & _ & ->).
  cbn [fst] in *. rewrite lookup_insert_ne; [exact Hgp|]. specialize (Hjs j Hj). lia.
Qed.

(** Under order 1, [_count_ngram] lists the positions of each word in
    increasing order. *)
Lemma count_ngram_unigrams sent order gp :
  1 <= order -> _count_ngram sent order = Ok gp ->
  exists d, gp !! 1 = Some d /\ forall w, dd_get d w = positions sent w (length sent).
Proof.
  intros Hord H. unfold _count_ngram in H. fold (gp_init order) in H.
  apply (foldM_idx (fun k gp => exists d, gp !! 1 = Some d /\
                                  forall w, dd_get d w = positions sent w k)) in H.
  - unfold enumerate_z in H. rewrite length_imap in H. exact H.
  - exists ∅. split.
    + rewrite gp_init_lookup. rewrite decide_True by lia. reflexivity.
    + intros w. unfold dd_get. rewrite lookup_empty. reflexivity.
  - intros k x g g' Hx (d & Hd & Hw) Hs. apply lookup_enumerate_z in Hx as (wk & -> & Hk).
    cbv beta iota in Hs. res_inv Hs. injection Hs as <-.
    rewrite py_range_cons in E by lia. cbn [foldM] in E.
    destruct (count_inner sent (Z.of_nat k) (g, wk) 0) as [st1|e] eqn:E1; [|discriminate E].
    apply count_inner_inv in E1 as (d0 & Hd0 & Hst1).
    change (g !! 1 = Some d0) in Hd0. rewrite Hd in Hd0. injection Hd0 as <-.
    apply (count_inner_keep1 _ _ _ (<[wk := dd_get d wk ++ [Z.of_nat k - 0]]> d)) in E.
    + eexists. split; [exact E|]. intros w. rewrite positions_S, <- Hw.
      unfold dd_get at 1. destruct (decide (wk = w)) as [<-|Hne].
      * rewrite lookup_insert_eq, decide_True by exact Hk. cbn. rewrite Z.sub_0_r. reflexivity.
      * rewrite lookup_insert_ne by exact Hne. rewrite decide_False; [rewrite app_nil_r; reflexivity|].
        intros Hw'. apply Hne. cut (Some wk = Some w); [congruence|]. etransitivity; [symmetry; exact Hk|exact Hw'].
    + intros j Hj. apply in_py_range' in Hj. lia.
    + rewrite Hst1. cbn [fst]. apply lookup_insert_eq.
Qed.


Lemma bind_Ok {A B} (a : A) (f : A -> res B) : (x ← Ok a; f x) = f a.
Proof. reflexivity. Qed.

Lemma probe_ok rg og k w :
  is_Some (rg !! k) -> is_Some (og !! k) -> exists p, probe rg og k w = Ok p.
Proof.
  intros [rd Hr] [od Ho]. unfold probe, dict_get. rewrite Hr, Ho, !bind_Ok.
  destruct (Nat.eqb_spec (length (dd_get rd w)) (length (dd_get od w))) as [Hl|];
    [|eexists; reflexivity].
  destruct (Nat.eqb_spec (length (dd_get od w)) 1) as [H1|]; [|eexists; reflexivity].
  cbn [andb]. unfold py_get.
  destruct (dd_get rd w) as [|x r]; [cbn in Hl; lia|]. cbn. eexists. reflexivity.
Qed.

Lemma probe_some rg og k w p :
  probe rg og k w = Ok (Some p) -> exists rd, rg !! k = Some rd /\ In p (dd_get rd w).
Proof.
  unfold probe, dict_get. intros H. res_inv H.
  destruct (rg !! k) as [rd|]; [|discriminate E]. injection E as <-.
  destruct (_ && _); [|discriminate H].
  res_inv H. injection H as <-. exists rd. split; [reflexivity|].
  unfold py_get in E. destruct (dd_get rd w) as [|x r]; [discriminate E|].
  injection E as <-. left. reflexivity.
Qed.

Section Search.
Variables (ref out : sentence) (rg og : gram_table).

Lemma search_ok i js wf wb :
  (forall j, In j js -> 0 <= j /\ is_Some (rg !! (j + 1)) /\ is_Some (og !! (j + 1))) ->
  0 <= i < Z.of_nat (length out) ->
  exists v, search rg og out i js wf wb = Ok v.
Proof.
  revert wf wb. induction js as [|j js IH]; intros wf wb Hjs Hi; [eexists; reflexivity|].
  destruct (Hjs j (or_introl eq_refl)) as (Hj & Hr & Ho).
  cbn [search].
  destruct (Z.leb_spec 0 (i - j)).
  - destruct (py_index_ok out (i - j)) as [o Eo]; [lia|]. rewrite Eo, bind_Ok.
    destruct (probe_ok rg og (j + 1) (join_sp o wb) Hr Ho) as [[p|] Ep]; rewrite Ep, !bind_Ok;
      [eexists; reflexivity|].
    destruct (Z.ltb_spec (i + j) (Z.of_nat (length out))).
    + destruct (py_index_ok out (i + j)) as [o' Eo']; [lia|]. rewrite Eo', bind_Ok.
      destruct (probe_ok rg og (j + 1) (join_sp wf o') Hr Ho) as [[p'|] Ep']; rewrite Ep', !bind_Ok;
        [eexists; reflexivity|].
      apply IH; [intros j' Hj'; apply Hjs; right; exact Hj'|exact Hi].
    + rewrite bind_Ok. apply IH; [intros j' Hj'; apply Hjs; right; exact Hj'|exact Hi].
  - rewrite bind_Ok.
    destruct (Z.ltb_spec (i + j) (Z.of_nat (length out))).
    + destruct (py_index_ok out (i + j)) as [o' Eo']; [lia|]. rewrite Eo', bind_Ok.
      destruct (probe_ok rg og (j + 1) (join_sp wf o') Hr Ho) as [[p'|] Ep']; rewrite Ep', !bind_Ok;
        [eexists; reflexivity|].
      apply IH; [intros j' Hj'; apply Hjs; right; exact Hj'|exact Hi].
    + rewrite bind_Ok. apply IH; [intros j' Hj'; apply Hjs; right; exact Hj'|exact Hi].
Qed.

Lemma search_bound i js wf wb v :
  BndInv ref rg -> (forall j, In j js -> 0 <= j) ->
  search rg og out i js wf wb = Ok (Some v) -> 0 <= v < Z.of_nat (length ref).
Proof.
  intros Hb. revert wf wb. induction js as [|j js IH]; intros wf wb Hjs H; cbn [search] in H;
    [discriminate H|].
  pose proof (Hjs j (or_introl eq_refl)) as Hj.
  assert (Hjs' : forall j', In j' js -> 0 <= j') by (intros j' Hj'; apply Hjs; right; exact Hj').
  res_inv H. destruct a as [vb|wb'].
  - injection H as <-. destruct (0 <=? i - j) in E; [|discriminate E].
    res_inv E. destruct a0 as [p|]; [injection E as <-|discriminate E].
    apply probe_some in E1 as (rd & Hrd & Hp). apply (Hb _ _ _ _ Hrd) in Hp. lia.
  - res_inv H. destruct a as [vf|wf'].
    + injection H as <-. destruct (i + j <? Z.of_nat (length out)) in E0; [|discriminate E0].
      res_inv E0. destruct a0 as [p|]; [injection E0 as <-|discriminate E0].
      apply probe_some in E2 as (rd & Hrd & Hp). apply (Hb _ _ _ _ Hrd) in Hp. lia.
    + exact (IH _ _ Hjs' H).
Qed.

End Search.

Lemma align_step_cases rg og out order worder i w worder' :
  align_step rg og out order worder (i, w) = Ok worder' ->
  worder' = worder \/
  exists v, worder' = worder ++ [v] /\
    (probe rg og 1 w = Ok (Some v) \/ search rg og out i (py_range 1 order) w w = Ok (Some v)).
Proof.
  unfold align_step. intros H. res_inv H.
  destruct (Nat.eqb _ 0); [injection H as <-; left; reflexivity|].
  res_inv H. destruct a0 as [p|].
  - injection H as <-. right. exists p. auto.
  - res_inv H. destruct a0 as [v|]; injection H as <-; [|left; reflexivity].
    right. exists v. auto.
Qed.

Lemma length_ci s (ci : bool) : length (if ci then lower_sent s else s) = length s.
Proof. destruct ci; [apply length_map|reflexivity]. Qed.

(** [ngram_context_align] names only positions of the reference, and at
    most one per output word. *)
Lemma ngram_context_align_bounds_aux ref out order ci worder :
  ngram_context_align ref out order ci = Ok worder ->
  Forall (fun p => 0 <= p < Z.of_nat (length ref)) worder /\ (length worder <= length out)%nat.
Proof.
  unfold ngram_context_align. intros H. res_inv H.
  apply count_ngram_keys in E as [_ Hb].
  rewrite <- (length_ci ref ci), <- (length_ci out ci).
  set (ref' := if ci then lower_sent ref else ref) in *.
  set (out' := if ci then lower_sent out else out) in *.
  apply (foldM_idx (fun k w => Forall (fun p => 0 <= p < Z.of_nat (length ref')) w
                                /\ (length w <= k)%nat)) in H.
  - unfold enumerate_z in H. rewrite length_imap in H. exact H.
  - split; [apply Forall_nil; exact I|cbn; lia].
  - intros k x w w' Hx [Hf Hl] Hs. apply lookup_enumerate_z in Hx as (wk & -> & _).
    apply align_step_cases in Hs as [->|(v & -> & Hv)]; [split; [exact Hf|lia]|].
    rewrite length_app. cbn [length]. split; [|lia].
    apply Forall_app. split; [exact Hf|]. apply Forall_singleton.
    destruct Hv as [Hv|Hv].
    + apply probe_some in Hv as (rd & Hrd & Hp). apply (Hb _ _ _ _ Hrd) in Hp. lia.
    + eapply search_bound; [exact Hb| |exact Hv]. intros j Hj. apply in_py_range' in Hj. lia.
Qed.

Lemma foldM_idx_ok {A B} (I : nat -> A -> Prop) (f : A -> B -> res A) l a :
  I 0%nat a ->
  (forall k x a, l !! k = Some x -> I k a -> exists a', f a x = Ok a' /\ I (S k) a') ->
  exists b, foldM f l a = Ok b /\ I (length l) b.
Proof.
  revert I a. induction l as [|x l IH]; intros I a Ha Hf; cbn [foldM].
  - exists a. auto.
  - destruct (Hf 0%nat x a) as (a1 & E & Ha1); [reflexivity|exact Ha|].
    rewrite E. apply (IH (fun k => I (S k))); [exact Ha1|].
    intros k y c Hy. apply Hf. exact Hy.
Qed.

Lemma align_step_keyerror rg og out order worder i w :
  rg !! 1 = None -> align_step rg og out order worder (i, w) = Raise KeyError.
Proof. intros H. unfold align_step, dict_get. rewrite H. reflexivity. Qed.

Lemma align_step_ok (out : sentence) rg og order worder i w :
  KeyInv order rg -> KeyInv order og -> 1 <= order -> 0 <= i < Z.of_nat (length out) ->
  exists worder', align_step rg og out order worder (i, w) = Ok worder'.
Proof.
  intros Kr Ko Hord Hi. unfold align_step.
  assert (Hr1 : is_Some (rg !! 1)) by (apply Kr; lia).
  assert (Ho1 : is_Some (og !! 1)) by (apply Ko; lia).
  destruct Hr1 as [r1 Er1]. unfold dict_get at 1. rewrite Er1, bind_Ok.
  destruct (Nat.eqb _ 0); [eexists; reflexivity|].
  destruct (probe_ok rg og 1 w) as [[p|] Ep]; [eexists; exact Er1|exact Ho1| |];
    rewrite Ep, bind_Ok; [eexists; reflexivity|].
  destruct (search_ok out rg og i (py_range 1 order) w w) as [[v|] Ev].
  - intros j Hj. apply in_py_range' in Hj. split; [lia|]. split; [apply Kr|apply Ko]; lia.
  - exact Hi.
  - rewrite Ev, bind_Ok. eexists. reflexivity.
  - rewrite Ev, bind_Ok. eexists. reflexivity.
Qed.

(** With the effective order [order] ([len(ref)] for [-1]): a non-empty
    output under an order below 1 raises KeyError ([gram_pos[1]] does not
    exist); in every other case the alignment is computed. *)
Theorem ngram_context_align_keyerror ref out order ci :
  (out <> [] -> (if order =? -1 then Z.of_nat (length ref) else order) < 1 ->
   ngram_context_align ref out order ci = Raise KeyError) /\
  (out = [] \/ 1 <= (if order =? -1 then Z.of_nat (length ref) else order) ->
   exists worder, ngram_context_align ref out order ci = Ok worder).
Proof.
  unfold ngram_context_align. rewrite <- (length_ci ref ci).
  set (ref' := if ci then lower_sent ref else ref).
  set (out' := if ci then lower_sent out else out).
  assert (Hout : out = [] <-> out' = []).
  { unfold out'. destruct ci; [|reflexivity]. unfold lower_sent. destruct out; cbn; split; congruence. }
  set (eff := if order =? -1 then Z.of_nat (length ref') else order).
  destruct (count_ngram_ok ref' eff) as (rg & Er & Kr & _).
  destruct (count_ngram_ok out' eff) as (og & Eo & Ko & _).
  rewrite Er, Eo, !bind_Ok. split.
  - intros Hne Heff. destruct out' as [|x rest] eqn:Eout; [exfalso; apply Hne, Hout; reflexivity|].
    unfold enumerate_z. rewrite imap_cons. cbn [foldM].
    rewrite align_step_keyerror; [reflexivity|].
    destruct (rg !! 1) eqn:E1; [|reflexivity]. exfalso.
    assert (Hs : is_Some (rg !! 1)) by (rewrite E1; eexists; reflexivity).
    apply Kr in Hs. assert (Heff' : eff < 1) by exact Heff. lia.
  - intros [Hnil|Heff0]; [|assert (Heff : 1 <= eff) by exact Heff0].
    + apply Hout in Hnil. rewrite Hnil. eexists. reflexivity.
    + destruct (foldM_ok (fun _ => True) (align_step rg og out' eff) (enumerate_z out') [])
        as (b & Eb & _); [exact I| |exists b; exact Eb].
      intros [i w] worder Hiw _. apply in_enumerate_z in Hiw as [Hi _].
      destruct (align_step_ok out' rg og eff worder i w Kr Ko Heff Hi) as [w' Ew].
      exists w'. auto.
Qed.

Lemma filter_nodup_seq (l : sentence) w k n :
  NoDup l -> l !! k = Some w ->
  filter (fun p => l !! p = Some w) (seq 0 n) = if decide (k < n)%nat then [k] else [].
Proof.
  intros Hnd Hk. induction n as [|n IH].
  - reflexivity.
  - rewrite seq_S, filter_app, IH, filter_cons, filter_nil. cbn [Nat.add].
    destruct (decide (l !! n = Some w)) as [Hn|Hn].
    + assert (n = k) as -> by (eapply NoDup_lookup; eassumption).
      rewrite decide_False by lia. rewrite decide_True by lia. reflexivity.
    + destruct (decide (k < n)%nat) as [Hlt|Hge].
      * rewrite decide_True by lia. apply app_nil_r.
      * rewrite decide_False; [reflexivity|]. intros Hlt.
        assert (k = n) as <- by lia. contradiction.
Qed.

Lemma positions_nodup (l : sentence) w k :
  NoDup l -> l !! k = Some w -> positions l w (length l) = [Z.of_nat k].
Proof.
  intros Hnd Hk. unfold positions. rewrite (filter_nodup_seq l w k) by assumption.
  apply lookup_lt_Some in Hk. rewrite decide_True by exact Hk. reflexivity.
Qed.

(** Aligning a sentence of distinct words with itself gives the identity
    alignment [0, 1, ..., n-1]. *)
Lemma ngram_context_align_self_aux (s : sentence) (order : Z) (ci : bool) :
  NoDup (if ci then lower_sent s else s) -> order = -1 \/ 1 <= order ->
  ngram_context_align s s order ci = Ok (map Z.of_nat (seq 0 (length s))).
Proof.
  intros Hnd Hord. unfold ngram_context_align.
  pose proof (length_ci s ci) as Hl.
  set (s' := if ci then lower_sent s else s) in *.
  change (length s' = length s) in Hl. rewrite <- Hl.
  set (eff := if order =? -1 then Z.of_nat (length s') else order).
  destruct (count_ngram_ok s' eff) as (gp & Eg & _ & _). rewrite Eg, !bind_Ok.
  destruct (decide (s' = [])) as [Hnil|Hne]; [rewrite Hnil; reflexivity|].
  assert (Hlen : (0 < length s')%nat).
  { apply Nat.neq_0_lt_0. intros H. apply Hne. apply length_zero_iff_nil. exact H. }
  assert (Heff : 1 <= eff).
  { unfold eff. destruct Hord as [->|Hord]; [cbn; lia|].
    destruct (Z.eqb_spec order (-1)); [lia|exact Hord]. }
  destruct (count_ngram_unigrams s' eff gp Heff Eg) as (d & Hd & Hpos).
  destruct (foldM_idx_ok (fun k w => w = map Z.of_nat (seq 0 k))
              (align_step gp gp s' eff) (enumerate_z s') []) as (b & Eb & Hb).
  - reflexivity.
  - intros k x worder Hx ->. apply lookup_enumerate_z in Hx as (wk & -> & Hk).
    unfold align_step, probe, dict_get. rewrite Hd, !bind_Ok.
    rewrite (Hpos wk), (positions_nodup s' wk k Hnd Hk). cbn.
    eexists. split; [reflexivity|]. change (Z.of_nat 0 :: map Z.of_nat (seq 1 k)) with (map Z.of_nat (seq 0 (S k))). rewrite seq_S, map_app. reflexivity.
  - rewrite Eb, Hb. unfold enumerate_z. rewrite length_imap. reflexivity.
Qed.

(** ** RibesScorer *)

Lemma Q2R_inject_Z z : Q2R (inject_Z z) = IZR z.
Proof. unfold Q2R, inject_Z. cbn [Qnum Qden]. rewrite Rinv_1, Rmult_1_r. reflexivity. Qed.

Lemma Q2R_inject_div a b : b <> 0 -> Q2R (inject_Z a / inject_Z b) = (IZR a / IZR b)%R.
Proof.
  intros Hb. rewrite Q2R_div, !Q2R_inject_Z; [reflexivity|].
  unfold Qeq. cbn. lia.
Qed.

Section KendallFold.
Variable P : nat -> nat -> bool.
Variable n : nat.
Local Open Scope nat_scope.

Definition kt_fold (m d : nat) : nat :=
  fold_left
    (fun dis i =>
       fold_left (fun dis j => if P i j then dis + 1 else dis)
                 (seq (i + 1) (n - (i + 1))) dis)
    (seq 0 m) d.

Lemma kt_fold_S m d :
  kt_fold (S m) d = kt_fold m d + length (List.filter (P m) (seq (m + 1) (n - (m + 1)))).
Proof.
  unfold kt_fold. rewrite seq_S, fold_left_app. cbn [fold_left].
  rewrite (RibesProofs.fold_count (P m)). reflexivity.
Qed.

Lemma kt_fold_le m d : (m <= n)%nat -> (2 * kt_fold m d + m * (m + 1) <= 2 * d + 2 * m * n)%nat.
Proof.
  induction m as [|m IH]; intros Hm; [unfold kt_fold; cbn; lia|].
  rewrite kt_fold_S.
  pose proof (List.filter_length_le (P m) (seq (m + 1) (n - (m + 1)))) as Hf.
  rewrite length_seq in Hf. specialize (IH ltac:(lia)). nia.
Qed.

Lemma kt_fold_all m d :
  (m <= n)%nat -> (forall i j, (i < j < n)%nat -> P i j = true) ->
  (2 * kt_fold m d + m * (m + 1) = 2 * d + 2 * m * n)%nat.
Proof.
  intros Hm Hp. induction m as [|m IH]; [unfold kt_fold; cbn; lia|].
  rewrite kt_fold_S.
  rewrite List.forallb_filter_id.
  - rewrite length_seq. specialize (IH ltac:(lia)). nia.
  - apply forallb_forall. intros j Hj. apply in_seq in Hj. apply Hp. lia.
Qed.

End KendallFold.

Lemma kt_eq (a : list Z) :
  Ribes._kendall_tau_distance a =
  (if (length a <=? 1)%nat then 0
   else inject_Z (2 * Z.of_nat (kt_fold (fun i j => (a !!! i <? a !!! j)%Z) (length a) (length a) 0))
        / inject_Z (Z.of_nat (length a * length a - length a)%nat))%Q.
Proof. reflexivity. Qed.

Lemma Rdiv_unit_interval x y : (0 <= x <= y)%R -> (0 < y)%R -> (0 <= x / y <= 1)%R.
Proof.
  intros Hx Hy. unfold Rdiv. split.
  - apply Rmult_le_pos; [lra|left; apply Rinv_0_lt_compat; lra].
  - rewrite <- (Rinv_r y) by lra. apply Rmult_le_compat_r; [left; apply Rinv_0_lt_compat; lra|lra].
Qed.

(** [_kendall_tau_distance] lies in [[0, 1]]. *)
Lemma kt_range (a : list Z) : (0 <= Q2R (Ribes._kendall_tau_distance a) <= 1)%R.
Proof.
  rewrite kt_eq. destruct (Nat.leb_spec (length a) 1) as [H|H].
  - change 0%Q with (inject_Z 0). rewrite Q2R_inject_Z. lra.
  - set (n := length a) in *.
    pose proof (kt_fold_le (fun i j => (a !!! i <? a !!! j)%Z) n n 0 (le_n n)) as Hle.
    set (D := kt_fold _ n n 0) in *.
    rewrite Q2R_inject_div by nia.
    apply Rdiv_unit_interval.
    + split; [apply IZR_le; lia|apply IZR_le; nia].
    + apply IZR_lt. nia.
Qed.

Lemma lookup_map_seq (f : nat -> Z) (a n i : nat) :
  (i < n)%nat -> map f (seq a n) !! i = Some (f (a + i)%nat).
Proof.
  revert a i. induction n as [|n IH]; intros a i Hi; [lia|].
  destruct i as [|i]; cbn [seq map].
  - rewrite Nat.add_0_r. reflexivity.
  - cbn [lookup list_lookup]. rewrite IH by lia. do 2 f_equal. lia.
Qed.

Lemma lookup_total_map_seq (n i : nat) :
  (i < n)%nat -> map Z.of_nat (seq 0 n) !!! i = Z.of_nat i.
Proof.
  intros Hi. rewrite list_lookup_total_alt, lookup_map_seq by exact Hi. reflexivity.
Qed.

(** The identity alignment has Kendall's tau 1 (0 when it is shorter
    than 2). *)
Lemma kt_identity n :
  Q2R (Ribes._kendall_tau_distance (map Z.of_nat (seq 0 n))) = if (n <=? 1)%nat then 0%R else 1%R.
Proof.
  rewrite kt_eq, length_map, length_seq. destruct (Nat.leb_spec n 1) as [H|H].
  - change 0%Q with (inject_Z 0). apply Q2R_inject_Z.
  - pose proof (kt_fold_all (fun i j => (map Z.of_nat (seq 0 n) !!! i <? map Z.of_nat (seq 0 n) !!! j)%Z)
                  n n 0 (le_n n)) as Heq.
    set (D := kt_fold _ n n 0) in *.
    assert (HD : (2 * D = n * n - n)%nat).
    { enough ((2 * D + n * (n + 1) = 2 * 0 + 2 * n * n)%nat) by nia.
      apply Heq. intros i j Hij. rewrite !lookup_total_map_seq by lia. apply Z.ltb_lt. lia. }
    rewrite Q2R_inject_div by nia.
    replace (2 * Z.of_nat D)%Z with (Z.of_nat (n * n - n)) by lia.
    unfold Rdiv. apply Rinv_r. apply not_0_IZR. nia.
Qed.


Lemma Rpower_one y : Rpower 1 y = 1%R.
Proof. unfold Rpower. rewrite ln_1, Rmult_0_r. apply exp_0. Qed.

Lemma py_pow_one y : py_pow 1 y = Ok 1%R.
Proof.
  unfold py_pow. destruct (Rlt_dec 0 1) as [_|H]; [rewrite Rpower_one; reflexivity|lra].
Qed.

(** [0.0 ** y] (and [0 ** y]). *)
Lemma py_pow_zero y :
  py_pow 0 y = if Rlt_dec y 0 then Raise ZeroDivisionError else Ok (if Req_EM_T y 0 then 1 else 0)%R.
Proof.
  unfold py_pow. destruct (Rlt_dec 0 0) as [H|_]; [lra|].
  destruct (Rlt_dec 0 y) as [H|H]; destruct (Rlt_dec y 0) as [H'|H']; try lra;
    destruct (Req_EM_T y 0); try lra; reflexivity.
Qed.

Lemma Rpower_le_1 x y : (0 < x <= 1)%R -> (0 <= y)%R -> (Rpower x y <= 1)%R.
Proof.
  intros Hx Hy. unfold Rpower. rewrite <- exp_0.
  assert (Hl : (ln x <= 0)%R).
  { destruct (Req_dec x 1) as [->|Hne]; [rewrite ln_1; lra|].
    rewrite <- ln_1. left. apply ln_increasing; lra. }
  destruct (Req_dec (y * ln x) 0) as [->|Hne]; [lra|].
  left. apply exp_increasing. nra.
Qed.

Lemma py_pow_unit x y r : (0 <= x <= 1)%R -> (0 <= y)%R -> py_pow x y = Ok r -> (0 <= r <= 1)%R.
Proof.
  intros Hx Hy. unfold py_pow.
  destruct (Rlt_dec 0 x) as [Hp|Hp].
  - intros [= <-]. split; [left; apply exp_pos|apply Rpower_le_1; lra].
  - destruct (Rlt_dec 0 y); [intros [= <-]; lra|].
    destruct (Req_EM_T y 0); [intros [= <-]; lra|lra].
Qed.

Lemma py_pow_nonneg_ok x y : (0 <= y)%R -> exists r, py_pow x y = Ok r.
Proof.
  intros Hy. unfold py_pow.
  destruct (Rlt_dec 0 x); [eexists; reflexivity|].
  destruct (Rlt_dec 0 y); [eexists; reflexivity|].
  destruct (Req_EM_T y 0); [eexists; reflexivity|lra].
Qed.

Lemma align_empty_out ref order ci : ngram_context_align ref [] order ci = Ok [].
Proof.
  unfold ngram_context_align.
  set (ref' := if ci then lower_sent ref else ref).
  set (out' := if ci then lower_sent [] else []).
  assert (Hout : out' = []) by (unfold out'; destruct ci; reflexivity).
  set (eff := if order =? -1 then Z.of_nat (length ref') else order).
  destruct (count_ngram_ok ref' eff) as (rg & Er & _ & _).
  destruct (count_ngram_ok out' eff) as (og & Eo & _ & _).
  rewrite Er, Eo, !bind_Ok, Hout. reflexivity.
Qed.

(** [RibesScorer.score_sentence] of a sentence of distinct words (after
    lower-casing when case-insensitive) against itself is 100 for two
    words or more and 0 for one word, for every [alpha] and [beta]. *)
Theorem ribes_score_self (self : RibesScorer) (s : sentence) :
  s <> [] -> NoDup (if case_insensitive self then lower_sent s else s) ->
  order self = -1 \/ 1 <= order self ->
  score_sentence self s s = Ok ((if (length s <=? 1)%nat then 0 else 100)%R, None).
Proof.
  intros Hne Hnd Hord. unfold score_sentence.
  rewrite (ngram_context_align_self_aux s (order self) (case_insensitive self) Hnd Hord), bind_Ok.
  assert (Hlen : length s <> 0%nat) by (intros H; apply Hne, length_zero_iff_nil, H).
  rewrite decide_False by exact Hlen. rewrite length_map, length_seq.
  assert (Hn : INR (length s) <> 0%R) by (apply not_0_INR; exact Hlen).
  rewrite Rdiv_diag by exact Hn. rewrite Rminus_diag, exp_0, Rmin_left by lra.
  destruct (decide (length s = 0%nat)); [contradiction|].
  rewrite !py_pow_one, !bind_Ok, kt_identity.
  unfold Bleu.global_scorer_scale. f_equal. f_equal.
  destruct (length s <=? 1)%nat; ring.
Qed.

(** With an empty output the alignment is empty and the score is 0, unless
    [alpha] or [beta] is negative: [0 ** alpha] then raises
    ZeroDivisionError. *)
Theorem ribes_score_empty_out (self : RibesScorer) (ref : sentence) :
  score_sentence self ref [] =
  if Rlt_dec (alpha self) 0 then Raise ZeroDivisionError
  else if Rlt_dec (beta self) 0 then Raise ZeroDivisionError
  else Ok (0%R, None).
Proof.
  unfold score_sentence. rewrite align_empty_out, bind_Ok.
  rewrite decide_True by reflexivity. rewrite !py_pow_zero.
  destruct (Rlt_dec (alpha self) 0); [reflexivity|rewrite bind_Ok].
  destruct (Rlt_dec (beta self) 0); [reflexivity|rewrite bind_Ok].
  f_equal. f_equal. unfold Bleu.global_scorer_scale.
  change (Ribes._kendall_tau_distance []) with 0%Q. rewrite RMicromega.Q2R_0. ring.
Qed.

(** For non-negative [alpha] and [beta] a RIBES score lies in [[0, 100]]. *)
Theorem ribes_score_range (self : RibesScorer) ref out v aux :
  (0 <= alpha self)%R -> (0 <= beta self)%R ->
  score_sentence self ref out = Ok (v, aux) -> (0 <= v <= 100)%R.
Proof.
  intros Ha Hb. unfold score_sentence. intros H. res_inv H.
  destruct (ngram_context_align_bounds_aux _ _ _ _ _ E) as [_ Hlen].
  res_inv H. res_inv H. injection H as <- _.
  pose proof (kt_range a) as Hk.
  assert (Hp : (0 <= (if decide (length out = 0%nat) then 0 else INR (length a) / INR (length out)) <= 1)%R).
  { destruct (decide _) as [|Hn]; [lra|]. apply Rdiv_unit_interval.
    - split; [apply pos_INR|apply le_INR; exact Hlen].
    - apply lt_0_INR. lia. }
  assert (Hbp : (0 <= (if decide (length out = 0%nat) then 0
                      else Rmin 1 (exp (1 - INR (length ref) / INR (length out)))) <= 1)%R).
  { destruct (decide _); [lra|]. split; [apply Rmin_glb; [lra|left; apply exp_pos]|apply Rmin_l]. }
  apply (py_pow_unit _ _ _ Hp Ha) in E0. apply (py_pow_unit _ _ _ Hbp Hb) in E1.
  unfold Bleu.global_scorer_scale.
  set (k := Q2R _) in *.
  split.
  - assert (0 <= k * a0 <= 1)%R by (split; [apply Rmult_le_pos|rewrite <- (Rmult_1_r 1); apply Rmult_le_compat]; lra).
    assert (0 <= k * a0 * a1 <= 1)%R by (split; [apply Rmult_le_pos|rewrite <- (Rmult_1_r 1); apply Rmult_le_compat]; lra).
    rewrite !Rmult_assoc. rewrite <- !Rmult_assoc with (r1 := k). lra.
  - assert (k * a0 <= 1)%R by nra. assert (k * a0 * a1 <= 1)%R by nra. nra.
Qed.

(** [ngram_context_align] names only positions of the reference, and at
    most one per output word. *)
Theorem ngram_context_align_bounds ref out order ci worder :
  ngram_context_align ref out order ci = Ok worder ->
  Forall (fun p => 0 <= p < Z.of_nat (length ref)) worder /\ (length worder <= length out)%nat.
Proof. exact (ngram_context_align_bounds_aux ref out order ci worder). Qed.

(** Aligning a sentence of distinct words with itself gives the identity
    alignment [0, 1, ..., n-1]. *)
Theorem ngram_context_align_self (s : sentence) (order : Z) (ci : bool) :
  NoDup (if ci then lower_sent s else s) -> order = -1 \/ 1 <= order ->
  ngram_context_align s s order ci = Ok (map Z.of_nat (seq 0 (length s))).
Proof. exact (ngram_context_align_self_aux s order ci). Qed.

Lemma ngram_context_align_bounds_witness :
  ngram_context_align ["a"; "b"; "a"] ["a"; "b"; "a"; "c"] (-1) false = Ok [0; 1; 2] /\
  Forall (fun p => 0 <= p < Z.of_nat (length ["a"; "b"; "a"])) [0; 1; 2] /\
  (length [0; 1; 2] <= length ["a"; "b"; "a"; "c"])%nat.
Proof.
  split; [vm_compute; reflexivity|].
  apply (ngram_context_align_bounds ["a"; "b"; "a"] ["a"; "b"; "a"; "c"] (-1) false [0; 1; 2]).
  vm_compute. reflexivity.
Defined.

Lemma ngram_context_align_keyerror_witness :
  ngram_context_align ["a"] ["a"] 0 false = Raise KeyError /\
  exists worder, ngram_context_align ["a"] ["a"] (-1) false = Ok worder.
Proof.
  split.
  - apply (proj1 (ngram_context_align_keyerror ["a"] ["a"] 0 false)); [discriminate|vm_compute; reflexivity].
  - apply (proj2 (ngram_context_align_keyerror ["a"] ["a"] (-1) false)). right. vm_compute. discriminate.
Defined.

Lemma ngram_context_align_self_witness :
  NoDup ["a"; "b"; "c"] /\
  ngram_context_align ["a"; "b"; "c"] ["a"; "b"; "c"] (-1) false = Ok [0; 1; 2].
Proof.
  assert (Hnd : NoDup ["a"; "b"; "c"]) by (apply (bool_decide_unpack _); vm_compute; reflexivity).
  split; [exact Hnd|].
  exact (ngram_context_align_self ["a"; "b"; "c"] (-1) false Hnd (or_introl eq_refl)).
Defined.

Definition ribes_default : RibesScorer := mkRibesScorer (-1) (1 / 4)%R (1 / 10)%R false.

Lemma ribes_score_self_witness :
  NoDup ["a"; "b"; "c"] /\
  score_sentence ribes_default ["a"; "b"; "c"] ["a"; "b"; "c"] = Ok (100%R, None).
Proof.
  assert (Hnd : NoDup ["a"; "b"; "c"]) by (apply (bool_decide_unpack _); vm_compute; reflexivity).
  split; [exact Hnd|].
  exact (ribes_score_self ribes_default ["a"; "b"; "c"] ltac:(discriminate) Hnd (or_introl eq_refl)).
Defined.

Lemma ribes_score_range_witness :
  exists v aux, score_sentence ribes_default ["a"; "b"; "c"] ["c"; "a"; "b"; "d"] = Ok (v, aux) /\
  (0 <= alpha ribes_default)%R /\ (0 <= beta ribes_default)%R /\ (0 <= v <= 100)%R.
Proof.
  assert (Ha : (0 <= alpha ribes_default)%R) by (cbn; lra).
  assert (Hb : (0 <= beta ribes_default)%R) by (cbn; lra).
  assert (E : ngram_context_align ["a"; "b"; "c"] ["c"; "a"; "b"; "d"] (-1) false = Ok [2; 0; 1])
    by (vm_compute; reflexivity).
  assert (Hok : exists v aux, score_sentence ribes_default ["a"; "b"; "c"] ["c"; "a"; "b"; "d"] = Ok (v, aux)).
  { unfold score_sentence. cbn [order case_insensitive ribes_default]. rewrite E, bind_Ok.
    match goal with |- context [py_pow ?x (alpha ?sc)] =>
      destruct (py_pow_nonneg_ok x (alpha sc) Ha) as [pa Ea]; rewrite Ea, bind_Ok end.
    match goal with |- context [py_pow ?x (beta ?sc)] =>
      destruct (py_pow_nonneg_ok x (beta sc) Hb) as [pb Eb]; rewrite Eb, bind_Ok end.
    eexists. eexists. reflexivity. }
  destruct Hok as (v & aux & Ev). exists v, aux.
  repeat split; try assumption; apply (ribes_score_range ribes_default _ _ v aux Ha Hb Ev).
Defined.

(** [_kendall_tau_distance] of any alignment lies in [[0, 1]]. *)
Theorem kendall_tau_distance_unit (alignment : list Z) :
  (0 <= Q2R (Ribes._kendall_tau_distance alignment) <= 1)%R.
Proof. exact (kt_range alignment). Qed.

(** [_kendall_tau_distance] of the identity alignment [0, ..., n-1] is 1
    for [n >= 2] (every pair ascends), and 0 for [n <= 1]. *)
Theorem kendall_tau_distance_identity (n : nat) :
  Q2R (Ribes._kendall_tau_distance (map Z.of_nat (seq 0 n))) = if (n <=? 1)%nat then 0%R else 1%R.
Proof. exact (kt_identity n). Qed.

End AlignProofs.

(** * BleuScorer._precision and score_cached_corpus *)
Module BleuPrecProofs.
Import Bleu Ngram BleuProofs NgramProofs.

Definition prec_f (ref_cnt : gmap (list string) nat) :=
  fun (ngram : list string) (o_cnt : nat) (p : nat * nat) =>
    let '(num, denom) := p in (num + Nat.min o_cnt (counter_get ref_cnt ngram), denom + o_cnt).

Lemma prec_f_insert (R m : gmap (list string) nat) i x :
  m !! i = None ->
  map_fold (prec_f R) (0, 0) (<[i:=x]> m) = prec_f R i x (map_fold (prec_f R) (0, 0) m).
Proof.
  intros Hi. apply map_fold_insert_L; [|exact Hi].
  intros j1 j2 z1 z2 [a b] _ _ _. cbn. f_equal; lia.
Qed.

Lemma prec_fold_le (R : gmap (list string) nat) (m : gmap (list string) nat) :
  (map_fold (prec_f R) (0, 0) m).1 <= (map_fold (prec_f R) (0, 0) m).2 /\
  (map_fold (prec_f R) (0, 0) m).2 = dict_sum m.
Proof.
  induction m as [|i x m Hi IH] using map_ind.
  - rewrite map_fold_empty. cbn. split; [lia|reflexivity].
  - rewrite prec_f_insert, dict_sum_insert_fresh by exact Hi.
    destruct (map_fold (prec_f R) (0, 0) m) as [a b]. cbn in *. lia.
Qed.

Lemma prec_fold_self (R : gmap (list string) nat) (m : gmap (list string) nat) :
  (forall k v, m !! k = Some v -> counter_get R k = v) ->
  (map_fold (prec_f R) (0, 0) m).1 = dict_sum m.
Proof.
  induction m as [|i x m Hi IH] using map_ind; intros Hm.
  - rewrite map_fold_empty. reflexivity.
  - rewrite prec_f_insert, dict_sum_insert_fresh by exact Hi.
    assert (Hx : counter_get R i = x) by (apply Hm; apply lookup_insert_eq).
    assert (IH' : (map_fold (prec_f R) (0, 0) m).1 = dict_sum m).
    { apply IH. intros k v Hk. apply Hm. rewrite lookup_insert_ne; [exact Hk|].
      intros <-. congruence. }
    destruct (map_fold (prec_f R) (0, 0) m) as [a b]. cbn in *. rewrite Hx. lia.
Qed.

Lemma length_sent_ngrams (w : sentence) n : length (sent_ngrams_list w n) = length w + 1 - n.
Proof. unfold sent_ngrams_list. rewrite length_map, length_seq. lia. Qed.

Lemma precision_eq ref out n :
  _precision ref out n =
  let p := map_fold (prec_f (Counter (sent_ngrams_list ref n))) (0, 0) (Counter (sent_ngrams_list out n)) in
  (p.1, Nat.max 1 p.2).
Proof.
  unfold _precision. cbn zeta.
  change (fun (ngram : list string) (o_cnt : nat) '(num, denom) =>
            (num + Nat.min o_cnt (counter_get (Counter (sent_ngrams_list ref n)) ngram), denom + o_cnt))
    with (prec_f (Counter (sent_ngrams_list ref n))).
  destruct (map_fold _ _ _). reflexivity.
Qed.

Lemma precision_le_aux ref out n num denom :
  _precision ref out n = (num, denom) ->
  num <= denom /\ denom = Nat.max 1 (length out + 1 - n).
Proof.
  rewrite precision_eq. cbn zeta.
  destruct (prec_fold_le (Counter (sent_ngrams_list ref n)) (Counter (sent_ngrams_list out n))) as [H1 H2].
  rewrite (dict_sum_Counter (K:=list string)), length_sent_ngrams in H2.
  intros [= <- <-]. lia.
Qed.

Lemma precision_self_aux s n :
  _precision s s n = (length s + 1 - n, Nat.max 1 (length s + 1 - n)).
Proof.
  rewrite precision_eq. cbn zeta.
  rewrite (prec_fold_self (Counter (sent_ngrams_list s n))) by (intros k v Hk; unfold counter_get; rewrite Hk; reflexivity).
  destruct (prec_fold_le (Counter (sent_ngrams_list s n)) (Counter (sent_ngrams_list s n))) as [_ H2].
  rewrite H2, (dict_sum_Counter (K:=list string)), length_sent_ngrams. reflexivity.
Qed.

Lemma lookup_map_gen {A B} (f : A -> B) (l : list A) k : map f l !! k = option_map f (l !! k).
Proof. revert k. induction l as [|x l IH]; intros [|k]; cbn; auto. Qed.

Lemma counter_get_add_nat (m : gmap nat nat) k v j :
  counter_get (counter_add m k v) j = if decide (k = j) then counter_get m k + v else counter_get m j.
Proof. unfold counter_add. apply counter_get_insert. Qed.

Definition acc_eq (a : acc) : Prop :=
  (forall i, counter_get (num_prec a) i = counter_get (denom_prec a) i) /\ ref_len a = out_len a.

Lemma add_stat_self (self : BleuScorer) (a : acc) (s : sentence) :
  1 <= length (weights self) <= length s -> acc_eq a ->
  exists a', add_stat self a (sent_stats self (s, s)) = Ok a' /\ acc_eq a' /\
    0 < counter_get (num_prec a') 1 /\ ref_len a' = ref_len a + length s.
Proof.
  intros Hw [Heq Hl]. unfold add_stat, sent_stats.
  set (W := length (weights self)) in *.
  set (prec := map (fun n => _precision s s n) (seq 1 W)).
  destruct (AlignProofs.foldM_idx_ok
              (fun k b => acc_eq b /\ ref_len b = ref_len a + length s /\
                          (0 < k -> 0 < counter_get (num_prec b) 1))
              (add_prec prec) (seq 1 W)
              (mkAcc (ref_len a + length s) (out_len a + length s) (num_prec a) (denom_prec a)))
    as (b & Eb & [Hb1 [Hb2 Hb3]]).
  - split; [split; [exact Heq|cbn; lia]|split; [reflexivity|lia]].
  - intros k x b Hx [[Hbe Hbl] [Hbr Hbp]]. apply lookup_seq in Hx as [-> Hk].
    unfold add_prec, py_get. replace (1 + k - 1) with k by lia.
    unfold prec. rewrite lookup_map_gen, lookup_seq_lt by exact Hk. cbn [option_map].
    rewrite precision_self_aux, Nat.max_r by lia.
    eexists. split; [reflexivity|]. cbn -[counter_add counter_get].
    split; [split; [|exact Hbl]|split; [exact Hbr|]].
    + intros i. cbn [num_prec denom_prec]. unfold counter_add. rewrite !counter_get_insert, !Hbe. reflexivity.
    + intros _. cbn [num_prec]. unfold counter_add. rewrite counter_get_insert.
      destruct (decide (S k = 1)) as [Hk1|Hne]; [lia|apply Hbp; lia].
  - exists b. rewrite Eb. split; [reflexivity|]. rewrite length_seq in Hb3.
    split; [exact Hb1|split; [apply Hb3; lia|exact Hb2]].
Qed.

Lemma fold_add_stat_self (self : BleuScorer) (c : list sentence) (a : acc) :
  1 <= length (weights self) -> Forall (fun s => length (weights self) <= length s) c ->
  acc_eq a -> (c <> [] \/ 0 < counter_get (num_prec a) 1) ->
  exists b, foldM (add_stat self) (map (fun s => sent_stats self (s, s)) c) a = Ok b /\
    acc_eq b /\ 0 < counter_get (num_prec b) 1 /\ ref_len a + length c <= ref_len b.
Proof.
  revert a. induction c as [|s c IH]; intros a Hw Hall Ha Hne.
  - destruct Hne as [Hne|Hp]; [congruence|]. exists a. cbn [foldM map length]. split; [reflexivity|].
    split; [exact Ha|split; [exact Hp|lia]].
  - apply Forall_cons in Hall as [Hs Hall]. cbn [map foldM].
    destruct (add_stat_self self a s ltac:(lia) Ha) as (a1 & E1 & Ha1 & Hp1 & Hr1).
    rewrite E1. destruct (IH a1 Hw Hall Ha1 (or_intror Hp1)) as (b & Eb & Hb & Hpb & Hrb).
    exists b. split; [exact Eb|]. split; [exact Hb|split; [exact Hpb|cbn [length]; lia]].
Qed.

Lemma cache_stats_self (self : BleuScorer) (c : corpus) :
  cache_stats self c c =
  map (fun s => sent_stats self (s, s)) (if case_insensitive self then lower_corpus c else c).
Proof.
  induction c as [|s c IH]; [unfold cache_stats; destruct (case_insensitive self); reflexivity|].
  rewrite cache_stats_cons, IH. destruct (case_insensitive self); reflexivity.
Qed.

Lemma log_prec_zero (self : BleuScorer) (a : acc) :
  (forall i, counter_get (num_prec a) i = counter_get (denom_prec a) i) -> log_prec self a = 0%R.
Proof.
  intros Heq. unfold log_prec.
  generalize (zip (seq 1 (length (weights self))) (weights self)).
  intros l. assert (H : forall x, x = 0%R -> fold_left
    (fun prec '(i, w) =>
       let d := counter_get (denom_prec a) i in
       let p := if decide (d = 0) then 0%R else (INR (counter_get (num_prec a) i) / INR d)%R in
       let p := if Rlt_dec 0 p then ln p else 0%R in (prec + p * w)%R) l x = 0%R).
  { induction l as [|[i w] l IH]; intros x Hx; [exact Hx|]. cbn [fold_left]. apply IH.
    rewrite Hx, Heq. destruct (decide _) as [_|Hd].
    - destruct (Rlt_dec 0 0); [lra|]. ring.
    - rewrite Rdiv_diag by (apply not_0_INR; exact Hd).
      destruct (Rlt_dec 0 1); [rewrite ln_1|]; ring. }
  apply H. reflexivity.
Qed.

Lemma length_lower_corpus_ci (ci : bool) (c : corpus) :
  length (if ci then lower_corpus c else c) = length c.
Proof. destruct ci; [apply length_map|reflexivity]. Qed.

Lemma Forall_lower_corpus_ci (ci : bool) (P : nat -> Prop) (c : corpus) :
  Forall (fun s => P (length s)) c -> Forall (fun s => P (length s)) (if ci then lower_corpus c else c).
Proof.
  intros H. destruct ci; [|exact H]. unfold lower_corpus. apply Forall_map.
  eapply Forall_impl; [exact H|]. intros s Hs. unfold lower_sent. rewrite length_map. exact Hs.
Qed.

Lemma bleu_self_aux (self : BleuScorer) (c : corpus) :
  c <> [] -> 1 <= length (weights self) ->
  Forall (fun s => length (weights self) <= length s) c ->
  score_corpus self c c = Ok (100%R, None).
Proof.
  intros Hne Hw Hall. unfold score_corpus.
  set (c' := if case_insensitive self then lower_corpus c else c).
  assert (Hlen : length c' = length c) by apply length_lower_corpus_ci.
  assert (Hall' : Forall (fun s => length (weights self) <= length s) c')
    by (apply (Forall_lower_corpus_ci _ (fun n => length (weights self) <= n)); exact Hall).
  assert (Hne' : c' <> []) by (intros H; apply Hne, length_zero_iff_nil; rewrite <- Hlen, H; reflexivity).
  rewrite cache_stats_self. fold c'.
  set (cache := map (fun s => sent_stats self (s, s)) c').
  assert (Hcl : length cache = length c) by (unfold cache; rewrite length_map; exact Hlen).
  assert (Hcne : cache <> []) by (unfold cache; destruct c'; [congruence|discriminate]).
  rewrite score_cached_corpus_cons by exact Hcne.
  rewrite foldM_loop_step
    by (apply Forall_forall; intros i Hi; apply elem_of_seq in Hi; unfold cache; rewrite length_map; change (i < length c'); lia).
  rewrite <- Hcl, map_lookup_total_seq. unfold cache.
  destruct (fold_add_stat_self self c' acc0 Hw Hall' ltac:(split; [reflexivity|reflexivity]) (or_introl Hne'))
    as (b & Eb & [Heq Hl] & Hp & Hr).
  rewrite Eb. cbn [mbind res_bind].
  destruct (decide (counter_get (num_prec b) 1 = 0)) as [Hz|_]; [lia|].
  rewrite log_prec_zero by exact Heq.
  rewrite (BleuProofs.py_exp_nonpos 0 (Rle_refl 0)). cbn [mbind res_bind]. rewrite exp_0.
  unfold brevity. destruct (decide (out_len b = 0)) as [Ho|Ho].
  - exfalso. cbn [ref_len acc0] in Hr. rewrite Hl in Hr.
    destruct c' as [|x rest']; [congruence|]. cbn [length] in Hr. lia.
  - rewrite Hl, Rdiv_diag by (apply not_0_INR; exact Ho).
    rewrite Rminus_diag, exp_0, Rmin_left by lra. unfold global_scorer_scale. f_equal. f_equal. ring.
Qed.

Definition acc_le (a : acc) : Prop :=
  forall i, counter_get (num_prec a) i <= counter_get (denom_prec a) i.

Lemma add_stat_le (self : BleuScorer) (a a' : acc) (r o : sentence) :
  acc_le a -> add_stat self a (sent_stats self (r, o)) = Ok a' -> acc_le a'.
Proof.
  intros Ha. unfold add_stat, sent_stats.
  apply AlignProofs.foldM_inv_in; [exact Ha|].
  intros n b b' Hn Hb Hs. unfold add_prec, py_get in Hs.
  destruct (_ !! (n - 1)) as [[num den]|] eqn:E; [|discriminate Hs].
  injection Hs as <-. rewrite lookup_map_gen in E.
  destruct (seq 1 (length (weights self)) !! (n - 1)) as [n'|]; [|discriminate E].
  injection E as E. apply precision_le_aux in E as [Hle _].
  intros i. cbn [num_prec denom_prec]. unfold counter_add. rewrite !counter_get_insert.
  destruct (decide (n = i)) as [<-|_]; [specialize (Hb n); lia|apply Hb].
Qed.

Lemma fold_loop_le (self : BleuScorer) (ref out : corpus) ids a b :
  acc_le a -> foldM (loop_step self (cache_stats self ref out)) ids a = Ok b -> acc_le b.
Proof.
  intros Ha. apply AlignProofs.foldM_inv_in; [exact Ha|].
  intros id c c' _ Hc Hs. unfold loop_step, py_get in Hs.
  destruct (cache_stats self ref out !! id) as [st|] eqn:E; [|discriminate Hs].
  cbn [mbind res_bind] in Hs. unfold cache_stats in E. rewrite lookup_map_gen in E.
  destruct (zip _ _ !! id) as [[r o]|]; [|discriminate E].
  injection E as <-. exact (add_stat_le self c c' r o Hc Hs).
Qed.

Lemma Forall_zip_snd {A B} (P : B -> Prop) (l1 : list A) (l2 : list B) :
  Forall P l2 -> Forall (fun x => P (snd x)) (zip l1 l2).
Proof.
  revert l2. induction l1 as [|x l1 IH]; intros [|y l2] H; cbn; try constructor.
  - apply Forall_cons in H as [Hy _]. exact Hy.
  - apply IH. apply Forall_cons in H as [_ H]. exact H.
Qed.

Lemma log_prec_nonpos (self : BleuScorer) (a : acc) :
  Forall (fun w => 0 <= w)%R (weights self) -> acc_le a -> (log_prec self a <= 0)%R.
Proof.
  intros Hw Ha. unfold log_prec.
  pose proof (Forall_zip_snd (fun w => 0 <= w)%R (seq 1 (length (weights self))) _ Hw) as Hz.
  revert Hz. generalize (zip (seq 1 (length (weights self))) (weights self)).
  intros l Hl. assert (H : forall x, (x <= 0)%R -> (fold_left
    (fun prec '(i, w) =>
       let d := counter_get (denom_prec a) i in
       let p := if decide (d = 0%nat) then 0%R else (INR (counter_get (num_prec a) i) / INR d)%R in
       let p := if Rlt_dec 0 p then ln p else 0%R in (prec + p * w)%R) l x <= 0)%R).
  { induction l as [|[i w] l IH]; intros x Hx; [exact Hx|].
    apply Forall_cons in Hl as [Hw' Hl]. cbn [fold_left]. apply (IH Hl).
    cbn [snd] in Hw'. cbv zeta.
    destruct (decide _) as [_|Hd].
    - destruct (Rlt_dec 0 0); [lra|]. lra.
    - set (p := (INR _ / INR _)%R).
      assert (Hp : (p <= 1)%R).
      { unfold p. assert (Hpos : (0 < INR (counter_get (denom_prec a) i))%R) by (apply lt_0_INR; lia).
        apply (Rmult_le_reg_r (INR (counter_get (denom_prec a) i))); [exact Hpos|].
        unfold Rdiv. rewrite Rmult_assoc, Rinv_l, Rmult_1_r, Rmult_1_l by lra.
        apply le_INR. apply Ha. }
      destruct (Rlt_dec 0 p) as [Hp0|_]; [|lra].
      assert (Hl1 : (ln p <= 0)%R).
      { destruct (Req_dec p 1) as [->|Hne]; [rewrite ln_1; lra|].
        rewrite <- ln_1. left. apply ln_increasing; lra. }
      assert (ln p * w <= 0)%R by nra. lra. }
  apply H. lra.
Qed.

Lemma exp_le_1 x : (x <= 0)%R -> (0 < exp x <= 1)%R.
Proof.
  intros Hx. split; [apply exp_pos|]. rewrite <- exp_0.
  destruct (Req_dec x 0) as [->|Hne]; [lra|]. left. apply exp_increasing. lra.
Qed.

Lemma brevity_unit (a : acc) : (0 <= brevity a <= 1)%R.
Proof.
  unfold brevity. destruct (decide _); [lra|].
  split; [apply Rmin_glb; [lra|left; apply exp_pos]|apply Rmin_l].
Qed.

Lemma bleu_range_aux (self : BleuScorer) (ref out : corpus) (ids : list nat) v aux :
  Forall (fun w => 0 <= w)%R (weights self) ->
  score_cached_corpus self ids (cache_stats self ref out) = Ok (v, aux) -> (0 <= v <= 100)%R.
Proof.
  intros Hw. destruct (cache_stats self ref out) as [|st rest] eqn:Ec.
  - cbn. intros [= <- _]. lra.
  - rewrite score_cached_corpus_cons by discriminate. rewrite <- Ec.
    intros H. unfold mbind, res_bind in H.
    destruct (foldM _ ids acc0) as [a|] eqn:Ea; [|discriminate H].
    apply fold_loop_le in Ea; [|intros i; cbn; lia].
    destruct (decide _); [injection H as <- _; lra|].
    rewrite (BleuProofs.py_exp_nonpos _ (log_prec_nonpos self a Hw Ea)) in H.
    cbn [mbind res_bind] in H. injection H as <- _.
    pose proof (brevity_unit a). pose proof (exp_le_1 _ (log_prec_nonpos self a Hw Ea)).
    unfold global_scorer_scale. split; [|rewrite Rmult_assoc]; nra.
Qed.

(** [BleuScorer._precision] returns a clipped match count [num] and the
    number of output n-grams, raised to 1 when there is none, as [denom];
    [num <= denom]. *)
Theorem bleu_precision_bounds ref out n num denom :
  _precision ref out n = (num, denom) ->
  num <= denom /\ denom = Nat.max 1 (length out + 1 - n).
Proof. exact (precision_le_aux ref out n num denom). Qed.

(** The precision of a sentence against itself counts every one of its
    n-grams as matched. *)
Theorem bleu_precision_self s n :
  _precision s s n = (length s + 1 - n, Nat.max 1 (length s + 1 - n)).
Proof. exact (precision_self_aux s n). Qed.

(** BLEU of a non-empty corpus against itself is 100 when every sentence
    has at least as many words as there are weights (at least one). *)
Theorem bleu_score_corpus_self (self : BleuScorer) (c : corpus) :
  c <> [] -> 1 <= length (weights self) ->
  Forall (fun s => length (weights self) <= length s) c ->
  score_corpus self c c = Ok (100%R, None).
Proof. exact (bleu_self_aux self c). Qed.

(** With non-negative weights, every BLEU score computed from
    [cache_stats], over any selection of sentence ids, lies in [[0, 100]]. *)
Theorem bleu_score_range (self : BleuScorer) (ref out : corpus) (ids : list nat) v aux :
  Forall (fun w => 0 <= w)%R (weights self) ->
  score_cached_corpus self ids (cache_stats self ref out) = Ok (v, aux) -> (0 <= v <= 100)%R.
Proof. exact (bleu_range_aux self ref out ids v aux). Qed.

Definition bleu2 : BleuScorer := mkBleuScorer [(1 / 2)%R; (1 / 2)%R] false.

Lemma bleu_precision_bounds_witness :
  _precision ["a"; "b"; "a"] ["a"; "a"; "a"; "b"] 1 = (3, 4) /\
  3 <= 4 /\ 4 = Nat.max 1 (length ["a"; "a"; "a"; "b"] + 1 - 1).
Proof.
  assert (E : _precision ["a"; "b"; "a"] ["a"; "a"; "a"; "b"] 1 = (3, 4)) by (vm_compute; reflexivity).
  split; [exact E|]. exact (bleu_precision_bounds _ _ _ _ _ E).
Defined.

Lemma bleu_score_corpus_self_witness :
  score_corpus bleu2 [["a"; "b"]; ["c"; "d"; "e"]] [["a"; "b"]; ["c"; "d"; "e"]] = Ok (100%R, None).
Proof.
  apply bleu_score_corpus_self; [discriminate|cbn; lia|].
  repeat constructor; cbn; lia.
Defined.

Lemma bleu_score_range_witness :
  exists v aux,
    score_cached_corpus bleu2 [0; 1] (cache_stats bleu2 [["a"; "b"; "c"]; ["d"; "e"]] [["a"; "b"; "x"]; ["d"]]) = Ok (v, aux) /\
    Forall (fun w => 0 <= w)%R (weights bleu2) /\ (0 <= v <= 100)%R.
Proof.
  assert (Hw : Forall (fun w => 0 <= w)%R (weights bleu2)) by (repeat constructor; cbn; lra).
  destruct (score_cached_corpus bleu2 [0; 1] (cache_stats bleu2 [["a"; "b"; "c"]; ["d"; "e"]] [["a"; "b"; "x"]; ["d"]]))
    as [[v aux]|e] eqn:E.
  - exists v, aux. split; [reflexivity|]. split; [exact Hw|].
    exact (bleu_score_range bleu2 _ _ _ v aux Hw E).
  - exfalso. rewrite score_cached_corpus_cons in E by discriminate.
    destruct (foldM _ [0; 1] acc0) as [a|e'] eqn:F; [|vm_compute in F; discriminate F].
    cbn [mbind res_bind] in E. apply fold_loop_le in F; [|intros i; cbn; lia].
    destruct (decide _); [discriminate E|].
    rewrite (BleuProofs.py_exp_nonpos _ (log_prec_nonpos bleu2 a Hw F)) in E. discriminate E.
Defined.

End BleuPrecProofs.

(** * WERScorer: edit-distance bounds and corpus scores *)
Module WERExtraProofs.
Import WER Lev WERProofs.

Lemma lev_le_max (a b : list string) : (lev a b <= Z.of_nat (Nat.max (length a) (length b)))%Z.
Proof.
  revert b. induction a as [|x a IHa]; intros b; [cbn [lev]; lia|].
  induction b as [|y b IHb]; [cbn; lia|].
  rewrite lev_cons_cons, min3_min. specialize (IHa b). cbn [length].
  destruct (String.eqb x y); lia.
Qed.

Lemma lev_ge_diff (a b : list string) :
  (Z.abs (Z.of_nat (length a) - Z.of_nat (length b)) <= lev a b)%Z.
Proof.
  revert b. induction a as [|x a IHa]; intros b; [cbn [lev length]; lia|].
  induction b as [|y b IHb]; [cbn; lia|].
  rewrite lev_cons_cons, min3_min. specialize (IHa b) as H1. specialize (IHa (y :: b)) as H2.
  cbn [length] in *. destruct (String.eqb x y); lia.
Qed.

Lemma length_lower_ci (ci : bool) (s : sentence) :
  length (if ci then lower_sent s else s) = length s.
Proof. destruct ci; [apply length_map|reflexivity]. Qed.

Lemma edit_distance_init (sp ip dp : Q) (ci : bool) (ref out : sentence) :
  _edit_distance (WERScorer_init sp ip dp ci) ref out
  = inject_Z (lev (rev (if ci then lower_sent ref else ref))
                  (rev (if ci then lower_sent out else out))).
Proof. apply edit_distance_lev. Qed.

Lemma dp_rows_nil_out (self : WERScorer) (ref : list string) (i : nat) (prev : list Q) :
  ref <> [] -> dp_rows self ref i [] prev = [inject_Z (Z.of_nat (i + length ref))].
Proof.
  revert i prev. induction ref as [|r ref IH]; intros i prev Hne; [congruence|].
  cbn [dp_rows next_row]. destruct ref as [|r' ref'].
  - cbn. reflexivity.
  - rewrite IH by discriminate. cbn [length]. do 3 f_equal. lia.
Qed.

Lemma last_map_seq_Q (n : nat) :
  List.last (map (fun j => inject_Z (Z.of_nat j)) (seq 0 (n + 1))) 0%Q = inject_Z (Z.of_nat n).
Proof. rewrite seq_app, map_app. cbn [seq map]. apply last_last. Qed.

Lemma edit_distance_empty_aux (self : WERScorer) (ref out : sentence) :
  _edit_distance self ref [] = inject_Z (Z.of_nat (length ref)) /\
  _edit_distance self [] out = inject_Z (Z.of_nat (length out)).
Proof.
  unfold _edit_distance. split.
  - replace (if case_insensitive self then lower_sent [] else []) with (@nil string)
      by (destruct (case_insensitive self); reflexivity).
    pose proof (length_lower_ci (case_insensitive self) ref) as Hl.
    set (r' := if case_insensitive self then lower_sent ref else ref) in *.
    change (length r' = length ref) in Hl. rewrite <- Hl. clearbody r'.
    destruct r' as [|r rest]; [reflexivity|].
    rewrite dp_rows_nil_out by discriminate. reflexivity.
  - replace (if case_insensitive self then lower_sent [] else []) with (@nil string)
      by (destruct (case_insensitive self); reflexivity).
    cbn [dp_rows]. rewrite last_map_seq_Q, length_lower_ci. reflexivity.
Qed.

(** [_edit_distance] against an empty sentence is the other sentence's
    length (the table's first row and column), whatever the penalties. *)
Theorem wer_edit_distance_empty (self : WERScorer) (ref out : sentence) :
  _edit_distance self ref [] = inject_Z (Z.of_nat (length ref)) /\
  _edit_distance self [] out = inject_Z (Z.of_nat (length out)).
Proof. exact (edit_distance_empty_aux self ref out). Qed.

(** With the penalties [__init__] sets, the edit distance lies between
    the difference of the lengths and the larger length. *)
Theorem wer_edit_distance_bounds (sp ip dp : Q) (ci : bool) (ref out : sentence) :
  (inject_Z (Z.abs (Z.of_nat (length ref) - Z.of_nat (length out)))
     <= _edit_distance (WERScorer_init sp ip dp ci) ref out
     <= inject_Z (Z.of_nat (Nat.max (length ref) (length out))))%Q.
Proof.
  rewrite edit_distance_init. split; rewrite <- Zle_Qle.
  - pose proof (lev_ge_diff (rev (if ci then lower_sent ref else ref))
                            (rev (if ci then lower_sent out else out))) as H.
    rewrite !length_rev, !length_lower_ci in H. exact H.
  - pose proof (lev_le_max (rev (if ci then lower_sent ref else ref))
                           (rev (if ci then lower_sent out else out))) as H.
    rewrite !length_rev, !length_lower_ci in H. exact H.
Qed.

Lemma sum_at_inv {A} (P : Q -> Prop) (f : A -> Q) (arr : list A) ids s :
  P 0%Q -> (forall acc x, In x arr -> P acc -> P (acc + f x)%Q) ->
  sum_at f arr ids = Ok s -> P s.
Proof.
  intros H0 Hs. unfold sum_at. apply AlignProofs.foldM_inv_in; [exact H0|].
  intros i acc acc' _ Hacc E. unfold py_get in E.
  destruct (arr !! i) as [x|] eqn:Ex; [|discriminate E].
  injection E as <-. apply Hs; [|exact Hacc].
  apply list_elem_of_In. eapply list_elem_of_lookup_2. exact Ex.
Qed.

Lemma sum_at_ok {A} (f : A -> Q) (arr : list A) ids :
  Forall (fun i => i < length arr) ids -> exists s, sum_at f arr ids = Ok s.
Proof.
  intros Hall. unfold sum_at.
  destruct (AlignProofs.foldM_ok (fun _ => True) (fun acc i => x ← py_get arr i; Ok (acc + f x)%Q)
              ids 0%Q I) as (s & Es & _); [|exists s; exact Es].
  intros i acc Hi _. rewrite Forall_forall in Hall. apply list_elem_of_In in Hi.
  apply Hall, lookup_lt_is_Some_2 in Hi as [x Hx].
  unfold py_get. rewrite Hx. eexists. split; [reflexivity|exact I].
Qed.

Lemma in_zip_diag {A} (l : list A) p : In p (zip l l) -> fst p = snd p.
Proof.
  induction l as [|x l IH]; [intros []|]. cbn. intros [<-|H]; [reflexivity|exact (IH H)].
Qed.

Lemma length_wer_cache_stats (self : WERScorer) (ref out : corpus) :
  length (cache_stats self ref out) = Nat.min (length ref) (length out).
Proof. unfold cache_stats. rewrite length_map, length_zip_with. reflexivity. Qed.

Lemma wer_self_aux (sp ip dp : Q) (ci : bool) (c : corpus) :
  exists v, score_corpus (WERScorer_init sp ip dp ci) c c = Ok (v, None) /\ (v == 0)%Q.
Proof.
  set (self := WERScorer_init sp ip dp ci).
  unfold score_corpus, score_cached_corpus.
  destruct (cache_stats self c c) as [|st rest] eqn:Ec; [exists 0%Q; split; reflexivity|].
  rewrite <- Ec.
  assert (Hids : Forall (fun i => i < length (cache_stats self c c)) (seq 0 (length c))).
  { apply Forall_forall. intros i Hi. apply elem_of_seq in Hi.
    rewrite length_wer_cache_stats. lia. }
  destruct (sum_at_ok (fun st => inject_Z (Z.of_nat (fst st))) _ _ Hids) as [d Ed].
  destruct (sum_at_ok snd _ _ Hids) as [n En].
  rewrite Ed, En. cbn [mbind res_bind].
  assert (Hn : (n == 0)%Q).
  { apply (sum_at_inv (fun s => (s == 0)%Q) snd (cache_stats self c c) (seq 0 (length c)) n); [reflexivity| |exact En].
    intros acc x Hx Hacc. unfold cache_stats in Hx. apply in_map_iff in Hx as ([r o] & <- & Hro).
    apply in_zip_diag in Hro. cbn in Hro. subst o. cbn [snd].
    unfold self. rewrite edit_distance_init, lev_refl, Hacc. reflexivity. }
  eexists. split; [reflexivity|].
  destruct (Qeq_bool d 0); [reflexivity|].
  rewrite Hn. unfold Qdiv. rewrite Qmult_0_l. reflexivity.
Qed.

(** WER of a corpus against itself is 0, for scorers built by [__init__]. *)
Theorem wer_score_corpus_self (sp ip dp : Q) (ci : bool) (c : corpus) :
  exists v, score_corpus (WERScorer_init sp ip dp ci) c c = Ok (v, None) /\ (v == 0)%Q.
Proof. exact (wer_self_aux sp ip dp ci c). Qed.

(** [score_sentence(ref, [])] is 100 (every reference word deleted) for a
    non-empty reference and 0 for an empty one, whatever the penalties. *)
Theorem wer_score_sentence_empty_out (self : WERScorer) (ref : sentence) :
  exists v, score_sentence self ref [] = Ok (v, None) /\
            (v == match ref with [] => 0 | _ => 100 end)%Q.
Proof.
  unfold score_sentence, score_corpus, cache_stats, score_cached_corpus, sum_at.
  cbn [zip_with map length seq foldM py_get lookup list_lookup mbind res_bind fst snd].
  rewrite (proj1 (edit_distance_empty_aux self ref [])).
  eexists. split; [reflexivity|].
  destruct ref as [|w ref]; [reflexivity|].
  set (n := inject_Z (Z.of_nat (length (w :: ref)))).
  assert (Hn : ~ (0 + n == 0)%Q).
  { unfold n. rewrite Qplus_0_l. unfold Qeq. cbn [Qnum Qden inject_Z]. cbn [length]. lia. }
  destruct (Qeq_bool (0 + n) 0) eqn:E; [apply Qeq_bool_eq in E; contradiction|].
  unfold global_scorer_scale, Qdiv. rewrite Qmult_inv_r by exact Hn. reflexivity.
Qed.

Lemma Qplus_nonneg (a b : Q) : (0 <= a -> 0 <= b -> 0 <= a + b)%Q.
Proof. intros Ha Hb. exact (Qplus_le_compat 0 a 0 b Ha Hb). Qed.

Lemma wer_nonneg_aux (sp ip dp : Q) (ci : bool) (ref out : corpus) (ids : list nat) v aux :
  score_cached_corpus (WERScorer_init sp ip dp ci) ids
    (cache_stats (WERScorer_init sp ip dp ci) ref out) = Ok (v, aux) -> (0 <= v)%Q.
Proof.
  set (self := WERScorer_init sp ip dp ci).
  unfold score_cached_corpus.
  destruct (cache_stats self ref out) as [|st rest] eqn:Ec; [intros [= <- _]; discriminate|].
  rewrite <- Ec. intros H. unfold mbind, res_bind in H.
  destruct (sum_at _ _ ids) as [d|] eqn:Ed; [|discriminate H].
  destruct (sum_at snd _ ids) as [n|] eqn:En; [|discriminate H].
  injection H as <- _.
  assert (Hd : (0 <= d)%Q).
  { apply (sum_at_inv (fun s => (0 <= s)%Q) (fun st : nat * Q => inject_Z (Z.of_nat (fst st))) (cache_stats self ref out) ids d); [discriminate| |exact Ed].
    intros acc x _ Hacc. apply Qplus_nonneg; [exact Hacc|].
    change 0%Q with (inject_Z 0). rewrite <- Zle_Qle. lia. }
  assert (Hn : (0 <= n)%Q).
  { apply (sum_at_inv (fun s => (0 <= s)%Q) snd (cache_stats self ref out) ids n); [discriminate| |exact En].
    intros acc x Hx Hacc. apply Qplus_nonneg; [exact Hacc|].
    unfold cache_stats in Hx. apply in_map_iff in Hx as ([r o] & <- & _). cbn [snd].
    unfold self. rewrite edit_distance_init. change 0%Q with (inject_Z 0). rewrite <- Zle_Qle. apply lev_nonneg. }
  unfold global_scorer_scale. apply Qmult_le_0_compat; [discriminate|].
  destruct (Qeq_bool d 0); [apply Qle_refl|].
  apply Qmult_le_0_compat; [exact Hn|apply Qinv_le_0_compat; exact Hd].
Qed.

(** For scorers built by [__init__], every WER computed from [cache_stats]
    over any selection of sentence ids is non-negative. *)
Theorem wer_score_nonneg (sp ip dp : Q) (ci : bool) (ref out : corpus) (ids : list nat) v aux :
  score_cached_corpus (WERScorer_init sp ip dp ci) ids
    (cache_stats (WERScorer_init sp ip dp ci) ref out) = Ok (v, aux) -> (0 <= v)%Q.
Proof. exact (wer_nonneg_aux sp ip dp ci ref out ids v aux). Qed.

Lemma wer_score_nonneg_witness :
  exists v aux,
    score_cached_corpus (WERScorer_init 1 1 1 false) [0; 1]
      (cache_stats (WERScorer_init 1 1 1 false) [["a"; "b"]; ["c"]] [["a"; "x"; "b"]; ["d"]]) = Ok (v, aux) /\
    (0 <= v)%Q.
Proof.
  lazymatch eval vm_compute in
    (score_cached_corpus (WERScorer_init 1 1 1 false) [0; 1]
      (cache_stats (WERScorer_init 1 1 1 false) [["a"; "b"]; ["c"]] [["a"; "x"; "b"]; ["d"]])) with
  | Ok (?v, ?aux) =>
      assert (E : score_cached_corpus (WERScorer_init 1 1 1 false) [0; 1]
        (cache_stats (WERScorer_init 1 1 1 false) [["a"; "b"]; ["c"]] [["a"; "x"; "b"]; ["d"]]) = Ok (v, aux))
        by (vm_compute; reflexivity);
      exists v, aux; split; [exact E|exact (wer_score_nonneg 1 1 1 false _ _ _ v aux E)]
  end.
Defined.

End WERExtraProofs.
Module StatExtraProofs.
Import Stat StatProofs.

Section Salience.
Context {K : Type} `{Countable K}.

Lemma salience_keys_aux (A B : gmap K nat) (alpha : Q) :
  (0 < alpha)%Q ->
  exists s, extract_salient_features A B alpha = Ok s /\
    dom s = dom A ∪ dom B /\
    forall k x, s !! k = Some x ->
      x = salience_value A B alpha k /\ (0 < x < 1)%Q.
Proof.
  intros Ha. unfold extract_salient_features.
  destruct (foldM_salience A B alpha (elements (dom A ∪ dom B)) ∅ Ha) as [s [E Hs]].
  exists s. split; [exact E|]. split.
  - apply set_eq. intros k. rewrite elem_of_dom. split.
    + intros [x Hx]. destruct (decide (k ∈ elements (dom A ∪ dom B))) as [Hin|Hin].
      * apply elem_of_elements in Hin. exact Hin.
      * rewrite (proj2 (Hs k) Hin), lookup_empty in Hx. discriminate Hx.
    + intros Hk. rewrite (proj1 (Hs k)); [eexists; reflexivity|]. apply elem_of_elements. exact Hk.
  - intros k x Hx.
    destruct (decide (k ∈ elements (dom A ∪ dom B))) as [Hin|Hin];
      [|rewrite (proj2 (Hs k) Hin), lookup_empty in Hx; discriminate Hx].
    rewrite (proj1 (Hs k) Hin) in Hx. injection Hx as <-. split; [reflexivity|].
    unfold salience_value.
    pose proof (count_q_nonneg A k). pose proof (count_q_nonneg B k).
    pose proof (salience_denominator_pos A B alpha k Ha) as Hd.
    split.
    + apply Qlt_shift_div_l; [exact Hd|]. Lqa.lra.
    + apply Qlt_shift_div_r; [exact Hd|]. Lqa.lra.
Qed.

Lemma salience_den_zero (A B : gmap K nat) (k : K) :
  Qeq_bool (count_q A k + count_q B k + 2 * 0) 0 = true
  <-> counter_get A k = 0%nat /\ counter_get B k = 0%nat.
Proof.
  rewrite Qeq_bool_iff. unfold Qeq, count_q. cbn. lia.
Qed.

Lemma foldM_salience_zero (A B : gmap K nat) (l : list K) (m : gmap K Q) :
  (forall e, foldM (salience_step A B 0) l m = Raise e -> e = ZeroDivisionError)
  /\ (foldM (salience_step A B 0) l m = Raise ZeroDivisionError
      <-> exists k, k ∈ l /\ counter_get A k = 0%nat /\ counter_get B k = 0%nat).
Proof.
  revert m. induction l as [|x l IH]; intros m.
  - cbn. split; [discriminate|]. split; [discriminate|].
    intros [k [Hk _]]. apply not_elem_of_nil in Hk. contradiction.
  - cbn [foldM]. unfold salience_step, py_div.
    destruct (Qeq_bool (count_q A x + count_q B x + 2 * 0) 0) eqn:E.
    + cbn. split; [congruence|]. split; [|reflexivity].
      intros _. exists x. split; [left|]. apply salience_den_zero. exact E.
    + cbn. destruct (IH (<[x := ((count_q A x + 0) / (count_q A x + count_q B x + 2 * 0))%Q]> m))
        as [IH1 IH2].
      split; [exact IH1|]. rewrite IH2. split.
      * intros [k [Hk Hz]]. exists k. split; [right; exact Hk|exact Hz].
      * intros [k [Hk Hz]]. apply elem_of_cons in Hk as [->|Hk].
        -- apply salience_den_zero in Hz. congruence.
        -- exists k. split; [exact Hk|exact Hz].
Qed.

End Salience.

(** [extract_salient_features] with a positive smoothing [alpha] never
    fails; its keys are exactly the keys of the two count dictionaries, and
    the score of each key is [(dict1[k]+alpha)/(dict1[k]+dict2[k]+2*alpha)],
    strictly between 0 and 1. *)
Theorem extract_salient_features_keys_range {K : Type} `{Countable K}
    (A B : gmap K nat) (alpha : Q) :
  (0 < alpha)%Q ->
  exists s, extract_salient_features A B alpha = Ok s /\
    dom s = dom A ∪ dom B /\
    forall k x, s !! k = Some x ->
      x = salience_value A B alpha k /\ (0 < x < 1)%Q.
Proof. apply salience_keys_aux. Qed.

(** Without smoothing ([alpha = 0]) the only error is [ZeroDivisionError],
    raised exactly when some key of either dictionary has count 0 in both. *)
Theorem extract_salient_features_zero_alpha {K : Type} `{Countable K}
    (A B : gmap K nat) :
  (forall e, extract_salient_features A B 0 = Raise e -> e = ZeroDivisionError)
  /\ (extract_salient_features A B 0 = Raise ZeroDivisionError
      <-> exists k, k ∈ dom A ∪ dom B /\ counter_get A k = 0%nat /\ counter_get B k = 0%nat).
Proof.
  unfold extract_salient_features.
  destruct (foldM_salience_zero A B (elements (dom A ∪ dom B)) ∅) as [H1 H2].
  split; [exact H1|]. rewrite H2. split.
  - intros [k [Hk Hz]]. exists k. split; [apply elem_of_elements; exact Hk|exact Hz].
  - intros [k [Hk Hz]]. exists k. split; [apply elem_of_elements; exact Hk|exact Hz].
Qed.

Lemma extract_salient_features_keys_range_witness :
  (0 < 1)%Q /\
  exists s, extract_salient_features (<["a" := 2%nat]> (∅ : gmap string nat))
                                     (<["b" := 1%nat]> ∅) 1 = Ok s /\
    dom s = dom (<["a" := 2%nat]> (∅ : gmap string nat)) ∪ dom (<["b" := 1%nat]> (∅ : gmap string nat)) /\
    forall k x, s !! k = Some x ->
      x = salience_value (<["a" := 2%nat]> ∅) (<["b" := 1%nat]> ∅) 1 k /\ (0 < x < 1)%Q.
Proof.
  split; [reflexivity|].
  apply (extract_salient_features_keys_range (<["a" := 2%nat]> ∅) (<["b" := 1%nat]> ∅) 1).
  reflexivity.
Defined.

End StatExtraProofs.
Module BucketExtraProofs.
Import Bucket.

Lemma cutoff_le {A} (lt : A -> A -> bool) (cs : list A) (v : A) :
  cutoff_into_bucket lt cs v <= length cs.
Proof. induction cs as [|c cs IH]; cbn [cutoff_into_bucket length]; [lia|]. destruct (lt v c); lia. Qed.

Lemma py_lt_spec (x y : Q) : py_lt x y = true <-> (x < y)%Q.
Proof.
  unfold py_lt. rewrite negb_true_iff. split.
  - intros H. apply Qnot_le_lt. intros Hle. apply Qle_bool_iff in Hle. congruence.
  - intros H. destruct (Qle_bool y x) eqn:E; [|reflexivity].
    apply Qle_bool_iff in E. exfalso. exact (Qlt_not_le _ _ H E).
Qed.

Lemma py_lt_false (x y : Q) : py_lt x y = false -> (y <= x)%Q.
Proof.
  unfold py_lt. intros H. apply negb_false_iff in H. apply Qle_bool_iff. exact H.
Qed.

Lemma cutoff_mono (cs : list Q) (v1 v2 : Q) :
  (v1 <= v2)%Q -> cutoff_into_bucket py_lt cs v1 <= cutoff_into_bucket py_lt cs v2.
Proof.
  intros Hv. induction cs as [|c cs IH]; cbn [cutoff_into_bucket]; [lia|].
  destruct (py_lt v1 c) eqn:E1; [lia|].
  destruct (py_lt v2 c) eqn:E2; [|lia].
  apply py_lt_false in E1. apply py_lt_spec in E2. exfalso. Lqa.lra.
Qed.

Lemma filter_le_none (cs : list Q) (v : Q) :
  Forall (fun c => v < c)%Q cs -> length (List.filter (fun c => Qle_bool c v) cs) = 0.
Proof.
  induction 1 as [|c cs Hc _ IH]; cbn [List.filter length]; [reflexivity|].
  destruct (Qle_bool c v) eqn:E; [apply Qle_bool_iff in E; exfalso; Lqa.lra|exact IH].
Qed.

Lemma cutoff_sorted_aux (cs : list Q) (v : Q) :
  StronglySorted Qle cs ->
  cutoff_into_bucket py_lt cs v = length (List.filter (fun c => Qle_bool c v) cs).
Proof.
  induction 1 as [|c cs _ IH Hall]; cbn [cutoff_into_bucket List.filter]; [reflexivity|].
  destruct (py_lt v c) eqn:E.
  - apply py_lt_spec in E.
    destruct (Qle_bool c v) eqn:E'; [apply Qle_bool_iff in E'; exfalso; Lqa.lra|].
    symmetry. apply filter_le_none.
    eapply Forall_impl; [exact Hall|]. cbn. intros x Hx. Lqa.lra.
  - apply py_lt_false in E. replace (Qle_bool c v) with true by (symmetry; apply Qle_bool_iff; exact E).
    cbn [length]. rewrite IH. reflexivity.
Qed.

Lemma length_enumerate {A} (l : list A) : length (enumerate l) = length l.
Proof. unfold enumerate. rewrite length_zip_with, length_seq. lia. Qed.

Lemma bucket_strs_length (cs : list nat) :
  cs <> [] ->
  exists strs, bucket_strs_of_cutoffs cs = Ok strs /\ length strs = S (length cs).
Proof.
  destruct cs as [|c cs]; [congruence|]. intros _.
  eexists. split; [reflexivity|].
  rewrite length_app, length_map, length_enumerate. cbn. lia.
Qed.

Lemma bucket_strs_cover_aux (cs : list nat) :
  (cs = [] -> bucket_strs_of_cutoffs cs = Raise NameError) /\
  (cs <> [] ->
   exists strs, bucket_strs_of_cutoffs cs = Ok strs /\ length strs = S (length cs) /\
     forall v, cutoff_into_bucket Nat.ltb cs v < length strs).
Proof.
  split; [intros ->; reflexivity|].
  intros Hne. destruct (bucket_strs_length cs Hne) as (strs & E & Hl).
  exists strs. split; [exact E|]. split; [exact Hl|].
  intros v. rewrite Hl. pose proof (cutoff_le Nat.ltb cs v). lia.
Qed.

Definition no_freq_source (freq_counts : option (gmap string nat))
    (freq_data : option corpus) : Prop :=
  match freq_counts with Some fc => fc = ∅ | None => True end /\ truthy freq_data = None.

Lemma freq_bucketer_source_aux fc fd cutoffs ci :
  (no_freq_source fc fd ->
   FreqWordBucketer fc fd cutoffs ci
   = Raise (ValueError "Must have at least one source of frequency counts for FreqWordBucketer"))
  /\ (~ no_freq_source fc fd -> cutoffs = Some [] ->
      FreqWordBucketer fc fd cutoffs ci = Raise NameError)
  /\ (~ no_freq_source fc fd -> cutoffs <> Some [] ->
      exists b, FreqWordBucketer fc fd cutoffs ci = Ok b).
Proof.
  assert (Hstrs : cutoffs <> Some [] ->
            exists strs, bucket_strs_of_cutoffs (default [1; 2; 3; 4; 5; 10; 100; 1000] cutoffs) = Ok strs).
  { intros Hc. destruct cutoffs as [[|c cs]|]; cbn; [congruence|eexists; reflexivity|eexists; reflexivity]. }
  unfold no_freq_source, FreqWordBucketer.
  destruct fc as [m|]; [destruct (decide (m = ∅)) as [Hm|Hm]|];
    destruct (truthy fd) as [d|] eqn:Ed; cbn;
    (split; [|split]); intros H; try intros Hc;
    try (destruct H; congruence); try (exfalso; apply H; tauto);
    try (subst cutoffs; reflexivity);
    try (destruct (Hstrs Hc) as [strs ->]; cbn; eexists; reflexivity).
Qed.

Lemma freq_bucketer_valid_aux fc fd cutoffs ci b w l :
  cutoffs <> Some [] ->
  FreqWordBucketer fc fd cutoffs ci = Ok b ->
  exists i, calc_bucket b (Some w) l = Ok (BId i) /\ i < length (bucket_strs b).
Proof.
  intros Hc. unfold FreqWordBucketer.
  destruct (match match fc with Some fc => if decide (fc = ∅) then None else Some fc | None => None end,
                  truthy fd with
            | Some fc, _ => Ok fc
            | None, Some d => Ok (Counter (map (fun w => if ci then lower w else w) (concat d)))
            | None, None => Raise (ValueError "Must have at least one source of frequency counts for FreqWordBucketer")
            end) as [f|e]; cbn; [|discriminate].
  assert (Hne : default [1; 2; 3; 4; 5; 10; 100; 1000] cutoffs <> []).
  { destruct cutoffs as [cs|]; cbn; [|discriminate]. intros ->. apply Hc. reflexivity. }
  destruct (proj2 (bucket_strs_cover_aux _) Hne) as (strs & E & _ & Hv).
  rewrite E. cbn.
  intros Hb. injection Hb as <-. cbn. eexists. split; [reflexivity|]. apply Hv.
Qed.

Lemma elem_of_zip_seq {A} (l : list A) (k : nat) (i : nat) (x : A) :
  (i, x) ∈ zip (seq k (length l)) l -> l !! (i - k) = Some x /\ k <= i.
Proof.
  intros Hin. apply list_elem_of_lookup_1 in Hin as [n Hn].
  apply lookup_zip_with_Some in Hn as (a & b & Hab & Ha & Hb).
  cbn in Hab. injection Hab as -> ->. apply lookup_seq in Ha as [-> _].
  replace (k + n - k) with n by lia. split; [exact Hb|lia].
Qed.

Lemma ref_positions_fold (r : sentence) (L : list (nat * string)) (m : gmap string (list nat)) :
  (forall w ps p, m !! w = Some ps -> p ∈ ps -> r !! p = Some w) ->
  (forall i w, (i, w) ∈ L -> r !! i = Some w) ->
  forall w ps p,
    foldl (fun m '(ri, w) => <[w := default [] (m !! w) ++ [ri]]> m) m L !! w = Some ps ->
    p ∈ ps -> r !! p = Some w.
Proof.
  revert m. induction L as [|[ri x] L IH]; intros m Hm HL; cbn [foldl]; [exact Hm|].
  apply IH.
  - intros w ps p Hw Hp. destruct (decide (w = x)) as [->|Hne].
    + rewrite lookup_insert_eq in Hw. injection Hw as <-.
      apply elem_of_app in Hp as [Hp|Hp].
      * destruct (m !! x) as [ps0|] eqn:E; cbn in Hp; [exact (Hm x ps0 p E Hp)|].
        apply not_elem_of_nil in Hp. contradiction.
      * apply list_elem_of_singleton in Hp as ->. apply HL. left.
    + rewrite lookup_insert_ne in Hw by congruence. exact (Hm w ps p Hw Hp).
  - intros i w Hi. apply HL. right. exact Hi.
Qed.

Lemma ref_positions_sound (r : sentence) (w : string) (ps : list nat) (p : nat) :
  ref_positions r !! w = Some ps -> p ∈ ps -> r !! p = Some w.
Proof.
  unfold ref_positions. apply ref_positions_fold.
  - intros w' ps' p' H. rewrite lookup_empty in H. discriminate H.
  - intros i x Hi. apply elem_of_zip_seq in Hi as [Hi _]. rewrite Nat.sub_0_r in Hi. exact Hi.
Qed.

(** The invariant of the loop over one output sentence. *)
Definition match_inv (r o : sentence) (om rm : list Z) : Prop :=
  length om = length o /\ length rm = length r /\
  (forall i z, om !! i = Some z ->
     z = (-1)%Z \/ exists j w, z = Z.of_nat j /\ o !! i = Some w /\ r !! j = Some w) /\
  (forall j z, rm !! j = Some z ->
     z = (-1)%Z \/ exists i w, z = Z.of_nat i /\ o !! i = Some w /\ r !! j = Some w).

Lemma zip_seq_snoc {A} (l : list A) (x : A) :
  zip (seq 0 (length (l ++ [x]))) (l ++ [x]) = zip (seq 0 (length l)) l ++ [(length l, x)].
Proof.
  rewrite length_app. cbn [length]. rewrite Nat.add_1_r, seq_S.
  rewrite zip_with_app by (rewrite length_seq; reflexivity). reflexivity.
Qed.

Lemma lookup_om_snoc (om : list Z) (z z' : Z) (i : nat) :
  (om ++ [z]) !! i = Some z' -> om !! i = Some z' \/ (i = length om /\ z' = z).
Proof.
  intros H. destruct (decide (i < length om)).
  - left. rewrite lookup_app_l in H by lia. exact H.
  - right. rewrite lookup_app_r in H by lia.
    destruct (i - length om) as [|k] eqn:E; cbn in H; [|discriminate H].
    injection H as <-. split; [lia|reflexivity].
Qed.

Lemma match_one_aux (r o : sentence) :
  let '(_, om, rm) :=
    foldl (match_step (ref_positions r)) (∅, [], replicate (length r) (-1)%Z)
          (zip (seq 0 (length o)) o) in
  match_inv r o om rm.
Proof.
  induction o as [|x o IH] using rev_ind.
  - cbn. unfold match_inv. split; [reflexivity|]. rewrite length_replicate. split; [reflexivity|].
    split; [intros i z Hz; rewrite lookup_nil in Hz; discriminate Hz|].
    intros j z Hz. left. apply lookup_replicate in Hz as [-> _]. reflexivity.
  - rewrite zip_seq_snoc, foldl_app. cbn [foldl].
    destruct (foldl (match_step (ref_positions r)) (∅, [], replicate (length r) (-1)%Z)
                (zip (seq 0 (length o)) o)) as [[cnts om] rm].
    assert (Hs : forall i w, o !! i = Some w -> (o ++ [x]) !! i = Some w)
      by (intros i w Hw; apply lookup_app_l_Some; exact Hw).
    assert (Hx : (o ++ [x]) !! length o = Some x)
      by (rewrite lookup_app_r by lia; rewrite Nat.sub_diag; reflexivity).
    destruct IH as (H1 & H2 & H3 & H4).
    assert (Hunm : match_inv r (o ++ [x]) (om ++ [(-1)%Z]) rm).
    { split; [rewrite !length_app; cbn; lia|]. split; [exact H2|]. split.
      - intros i z Hz. apply lookup_om_snoc in Hz as [Hz|[_ ->]]; [|left; reflexivity].
        destruct (H3 i z Hz) as [->|(j & w & -> & Ho & Hr)]; [left; reflexivity|].
        right. exists j, w. split; [reflexivity|]. split; [exact (Hs i w Ho)|exact Hr].
      - intros j z Hz. destruct (H4 j z Hz) as [->|(i & w & -> & Ho & Hr)]; [left; reflexivity|].
        right. exists i, w. split; [reflexivity|]. split; [exact (Hs i w Ho)|exact Hr]. }
    cbn [match_step].
    destruct (ref_positions r !! x) as [ps|] eqn:Eps; [|exact Hunm].
    destruct (decide (ps = [])); [exact Hunm|].
    destruct (decide (counter_get cnts x < length ps)) as [Hlt|]; [|exact Hunm].
    assert (Hp : r !! (ps !!! counter_get cnts x) = Some x).
    { apply (ref_positions_sound r x ps); [exact Eps|].
      rewrite list_lookup_total_alt.
      destruct (ps !! counter_get cnts x) as [p|] eqn:Ep; cbn;
        [exact (list_elem_of_lookup_2 _ _ _ Ep)|].
      apply lookup_ge_None in Ep. lia. }
    split; [rewrite !length_app; cbn; lia|].
    split; [rewrite length_insert; exact H2|]. split.
    + intros i z Hz. apply lookup_om_snoc in Hz as [Hz|[-> ->]].
      * destruct (H3 i z Hz) as [->|(j & w & -> & Ho & Hr)]; [left; reflexivity|].
        right. exists j, w. split; [reflexivity|]. split; [exact (Hs i w Ho)|exact Hr].
      * right. exists (ps !!! counter_get cnts x), x. split; [reflexivity|].
        split; [rewrite H1; exact Hx|exact Hp].
    + intros j z Hz. destruct (decide (j = ps !!! counter_get cnts x)) as [->|Hne].
      * rewrite list_lookup_insert_eq in Hz.
        2: { rewrite H2. eapply lookup_lt_Some. exact Hp. }
        injection Hz as <-. right. exists (length o), x. split; [reflexivity|].
        split; [exact Hx|exact Hp].
      * rewrite list_lookup_insert_ne in Hz by congruence.
        destruct (H4 j z Hz) as [->|(i & w & -> & Ho & Hr)]; [left; reflexivity|].
        right. exists i, w. split; [reflexivity|]. split; [exact (Hs i w Ho)|exact Hr].
Qed.

Lemma calc_trg_matches_aux (r : sentence) (outs : list sentence) :
  length (fst (_calc_trg_matches r outs)) = length outs /\
  length (snd (_calc_trg_matches r outs)) = length outs /\
  forall k o, outs !! k = Some o ->
    exists om rm, fst (_calc_trg_matches r outs) !! k = Some om /\
                  snd (_calc_trg_matches r outs) !! k = Some rm /\ match_inv r o om rm.
Proof.
  unfold _calc_trg_matches. cbn [fst snd]. rewrite !length_map.
  split; [reflexivity|]. split; [reflexivity|].
  intros k o Hk. rewrite !list_lookup_fmap, Hk. cbn.
  exists (fst (match_one r o)), (snd (match_one r o)).
  split; [reflexivity|]. split; [reflexivity|].
  pose proof (match_one_aux r o) as H. unfold match_one.
  destruct (foldl (match_step (ref_positions r)) (∅, [], replicate (length r) (-1)%Z)
              (zip (seq 0 (length o)) o)) as [[c om] rm]. exact H.
Qed.

(** [Bucketer.cutoff_into_bucket] with ascending cutoffs (ints, negative
    ones included, or floats) puts a value in the bucket numbered by how
    many cutoffs are at most the value. *)
Theorem cutoff_into_bucket_sorted (cs : list Q) (v : Q) :
  StronglySorted Qle cs ->
  cutoff_into_bucket py_lt cs v = length (List.filter (fun c => Qle_bool c v) cs).
Proof. exact (cutoff_sorted_aux cs v). Qed.

(** For any int or float cutoffs, [cutoff_into_bucket] returns at most the
    number of cutoffs and never moves a larger value to a lower bucket. *)
Theorem cutoff_into_bucket_monotone (cs : list Q) :
  (forall v, cutoff_into_bucket py_lt cs v <= length cs) /\
  (forall v1 v2, (v1 <= v2)%Q -> cutoff_into_bucket py_lt cs v1 <= cutoff_into_bucket py_lt cs v2).
Proof. split; [exact (cutoff_le py_lt cs)|exact (cutoff_mono cs)]. Qed.

(** [set_bucket_cutoffs] in int mode on non-negative int cutoffs (those of
    a [FreqWordBucketer]) raises [NameError] on no cutoffs; otherwise it
    makes one label more than there are cutoffs, so every bucket id from
    [cutoff_into_bucket] names a label. *)
Theorem bucket_strs_cover_cutoffs (cs : list nat) :
  (cs = [] -> bucket_strs_of_cutoffs cs = Raise NameError) /\
  (cs <> [] ->
   exists strs, bucket_strs_of_cutoffs cs = Ok strs /\ length strs = S (length cs) /\
     forall v, cutoff_into_bucket Nat.ltb cs v < length strs).
Proof. exact (bucket_strs_cover_aux cs). Qed.

(** [FreqWordBucketer.__init__] (without count files) raises its
    [ValueError] exactly when it has neither non-empty counts nor non-empty
    data; with a source, it raises [NameError] on an empty cutoff list and
    succeeds otherwise. *)
Theorem freq_bucketer_source fc fd cutoffs ci :
  (no_freq_source fc fd ->
   FreqWordBucketer fc fd cutoffs ci
   = Raise (ValueError "Must have at least one source of frequency counts for FreqWordBucketer"))
  /\ (~ no_freq_source fc fd -> cutoffs = Some [] ->
      FreqWordBucketer fc fd cutoffs ci = Raise NameError)
  /\ (~ no_freq_source fc fd -> cutoffs <> Some [] ->
      exists b, FreqWordBucketer fc fd cutoffs ci = Ok b).
Proof. exact (freq_bucketer_source_aux fc fd cutoffs ci). Qed.

(** A [FreqWordBucketer] whose cutoffs are not an empty list puts every
    word in a single bucket whose id is a valid index of its labels. *)
Theorem freq_bucketer_bucket_valid fc fd cutoffs ci b w l :
  cutoffs <> Some [] ->
  FreqWordBucketer fc fd cutoffs ci = Ok b ->
  exists i, calc_bucket b (Some w) l = Ok (BId i) /\ i < length (bucket_strs b).
Proof. exact (freq_bucketer_valid_aux fc fd cutoffs ci b w l). Qed.

(** [_calc_trg_matches] returns one match list per output sentence; an
    output position is either unmatched ([-1]) or matched to a reference
    position holding the same word, and a reference position is either
    unmatched or matched to an output position holding the same word. *)
Theorem calc_trg_matches_sound (r : sentence) (outs : list sentence) :
  length (fst (_calc_trg_matches r outs)) = length outs /\
  length (snd (_calc_trg_matches r outs)) = length outs /\
  forall k o, outs !! k = Some o ->
    exists om rm, fst (_calc_trg_matches r outs) !! k = Some om /\
                  snd (_calc_trg_matches r outs) !! k = Some rm /\ match_inv r o om rm.
Proof. exact (calc_trg_matches_aux r outs). Qed.

Lemma cutoff_into_bucket_sorted_witness :
  StronglySorted Qle [-20; -10; -5; 0; 1#4; 5]%Q /\
  cutoff_into_bucket py_lt [-20; -10; -5; 0; 1#4; 5]%Q (-7)%Q
  = length (List.filter (fun c => Qle_bool c (-7)%Q) [-20; -10; -5; 0; 1#4; 5]%Q).
Proof.
  assert (Hs : StronglySorted Qle [-20; -10; -5; 0; 1#4; 5]%Q).
  { repeat constructor; unfold Qle; cbn; lia. }
  split; [exact Hs|]. exact (cutoff_into_bucket_sorted _ (-7)%Q Hs).
Defined.

Lemma freq_bucketer_bucket_valid_witness :
  exists b, FreqWordBucketer (Some (<["a" := 3]> ∅)) None None false = Ok b /\
  (None : option (list nat)) <> Some [] /\
  exists i, calc_bucket b (Some "a") None = Ok (BId i) /\ i < length (bucket_strs b).
Proof.
  eexists. split; [reflexivity|].
  assert (Hc : (None : option (list nat)) <> Some []) by discriminate.
  split; [exact Hc|].
  exact (freq_bucketer_bucket_valid (Some (<["a" := 3]> ∅)) None None false _ "a" None Hc eq_refl).
Defined.

End BucketExtraProofs.
Module IdsProofs.

Lemma foldM_get_ids {A S} (c : list S) (g : A -> S -> res A)
    (Hg : forall a st, st ∈ c -> exists a', g a st = Ok a') (ids : list nat) (a : A) :
  (Forall (fun i => i < length c) ids ->
   exists b, foldM (fun a i => st ← py_get c i; g a st) ids a = Ok b) /\
  (Exists (fun i => length c <= i) ids ->
   foldM (fun a i => st ← py_get c i; g a st) ids a = Raise IndexError).
Proof.
  revert a. induction ids as [|i ids IH]; intros a.
  - split; [intros _; exists a; reflexivity|]. intros H. inversion H.
  - cbn [foldM]. unfold py_get.
    destruct (c !! i) as [st|] eqn:E.
    + assert (Hi : i < length c) by (apply lookup_lt_is_Some_1; rewrite E; eexists; reflexivity).
      destruct (Hg a st (list_elem_of_lookup_2 _ _ _ E)) as [a' Ha'].
      cbn [mbind res_bind]. rewrite Ha'. destruct (IH a') as [IH1 IH2]. split.
      * intros Hall. apply Forall_cons in Hall as [_ Hall]. exact (IH1 Hall).
      * intros Hex. apply Exists_cons in Hex as [Hle|Hex]; [lia|exact (IH2 Hex)].
    + apply lookup_ge_None in E. cbn [mbind res_bind]. split; [|reflexivity].
      intros Hall. apply Forall_cons in Hall as [Hi _]. lia.
Qed.

Section BleuIds.
Import Bleu.

Lemma bleu_add_stat_ok (self : BleuScorer) (a : acc) (r o : sentence) :
  exists a', add_stat self a (sent_stats self (r, o)) = Ok a'.
Proof.
  unfold add_stat, sent_stats.
  destruct (AlignProofs.foldM_ok (fun _ => True)
              (add_prec (map (fun n => _precision r o n) (seq 1 (length (weights self)))))
              (seq 1 (length (weights self)))
              (mkAcc (ref_len a + length r) (out_len a + length o) (num_prec a) (denom_prec a)) I)
    as [b [Hb _]].
  - intros n a0 Hn _. apply in_seq in Hn. unfold add_prec, py_get.
    rewrite list_lookup_fmap, lookup_seq_lt by lia. cbn.
    destruct (_precision r o (S (n - 1))). eexists. split; [reflexivity|exact I].
  - exists b. exact Hb.
Qed.

Lemma bleu_ids_aux (self : BleuScorer) (ref out : corpus) (ids : list nat) :
  Forall (fun w => 0 <= w)%R (weights self) ->
  cache_stats self ref out <> [] ->
  (Forall (fun i => i < length (cache_stats self ref out)) ids ->
   exists v, score_cached_corpus self ids (cache_stats self ref out) = Ok (v, None)) /\
  (Exists (fun i => length (cache_stats self ref out) <= i) ids ->
   score_cached_corpus self ids (cache_stats self ref out) = Raise IndexError).
Proof.
  intros Hw Hne. rewrite BleuProofs.score_cached_corpus_cons by exact Hne.
  assert (Hg : forall a st, st ∈ cache_stats self ref out -> exists a', add_stat self a st = Ok a').
  { intros a st Hst. unfold cache_stats in Hst. apply list_elem_of_In, in_map_iff in Hst as [[r o] [<- _]].
    apply bleu_add_stat_ok. }
  destruct (foldM_get_ids (cache_stats self ref out) (add_stat self) Hg ids acc0) as [H1 H2].
  unfold loop_step. split.
  - intros Hall. destruct (H1 Hall) as [b Hb].
    assert (Hle : BleuPrecProofs.acc_le b)
      by (apply (BleuPrecProofs.fold_loop_le self ref out ids acc0); [intros i; cbn; lia|exact Hb]).
    rewrite Hb. cbn [mbind res_bind].
    destruct (decide _); [eexists; reflexivity|].
    rewrite (BleuProofs.py_exp_nonpos _ (BleuPrecProofs.log_prec_nonpos self b Hw Hle)).
    eexists; reflexivity.
  - intros Hex. rewrite (H2 Hex). reflexivity.
Qed.

End BleuIds.

Section WERIds.
Import WER.

Lemma wer_ids_aux (self : WERScorer) (c : list (nat * Q)) (ids : list nat) :
  c <> [] ->
  (Forall (fun i => i < length c) ids -> exists v, score_cached_corpus self ids c = Ok (v, None)) /\
  (Exists (fun i => length c <= i) ids -> score_cached_corpus self ids c = Raise IndexError).
Proof.
  intros Hne. destruct c as [|st0 c0]; [congruence|].
  set (c := st0 :: c0). change (score_cached_corpus self ids c) with
    (denom ← sum_at (fun st => inject_Z (Z.of_nat (fst st))) c ids;
     num ← sum_at snd c ids;
     let wer := if Qeq_bool denom 0 then 0%Q else (num / denom)%Q in
     Ok ((global_scorer_scale * wer)%Q, (None : option string))).
  unfold sum_at.
  destruct (foldM_get_ids c (fun acc x => Ok (acc + inject_Z (Z.of_nat (fst x)))%Q)
              (fun a st _ => ex_intro _ _ eq_refl) ids 0%Q) as [D1 D2].
  destruct (foldM_get_ids c (fun acc x => Ok (acc + snd x)%Q)
              (fun a st _ => ex_intro _ _ eq_refl) ids 0%Q) as [N1 N2].
  split.
  - intros Hall. destruct (D1 Hall) as [d Hd]. destruct (N1 Hall) as [n Hn].
    rewrite Hd. cbn [mbind res_bind]. rewrite Hn. cbn [mbind res_bind]. eexists. reflexivity.
  - intros Hex. rewrite (D2 Hex). reflexivity.
Qed.

End WERIds.

(** [BleuScorer.score_cached_corpus] on non-empty statistics from
    [cache_stats], with non-negative weights, succeeds with no auxiliary
    information when every sentence id is in range, and raises
    [IndexError] when one is not. *)
Theorem bleu_score_cached_ids (self : Bleu.BleuScorer) (ref out : corpus) (ids : list nat) :
  Forall (fun w => 0 <= w)%R (Bleu.weights self) ->
  Bleu.cache_stats self ref out <> [] ->
  (Forall (fun i => i < length (Bleu.cache_stats self ref out)) ids ->
   exists v, Bleu.score_cached_corpus self ids (Bleu.cache_stats self ref out) = Ok (v, None)) /\
  (Exists (fun i => length (Bleu.cache_stats self ref out) <= i) ids ->
   Bleu.score_cached_corpus self ids (Bleu.cache_stats self ref out) = Raise IndexError).
Proof. exact (bleu_ids_aux self ref out ids). Qed.

(** [WERScorer.score_cached_corpus] on non-empty statistics succeeds, with
    no auxiliary information, when every sentence id is in range, and
    raises [IndexError] when one is not. *)
Theorem wer_score_cached_ids (self : WER.WERScorer) (c : list (nat * Q)) (ids : list nat) :
  c <> [] ->
  (Forall (fun i => i < length c) ids -> exists v, WER.score_cached_corpus self ids c = Ok (v, None)) /\
  (Exists (fun i => length c <= i) ids -> WER.score_cached_corpus self ids c = Raise IndexError).
Proof. exact (wer_ids_aux self c ids). Qed.

Lemma bleu_score_cached_ids_witness :
  Forall (fun w => 0 <= w)%R (Bleu.weights (Bleu.mkBleuScorer [1%R] false)) /\
  Bleu.cache_stats (Bleu.mkBleuScorer [1%R] false) [["a"; "b"]] [["a"]] <> [] /\
  Bleu.score_cached_corpus (Bleu.mkBleuScorer [1%R] false) [0; 1]
    (Bleu.cache_stats (Bleu.mkBleuScorer [1%R] false) [["a"; "b"]] [["a"]]) = Raise IndexError.
Proof.
  assert (Hne : Bleu.cache_stats (Bleu.mkBleuScorer [1%R] false) [["a"; "b"]] [["a"]] <> [])
    by discriminate.
  assert (Hw : Forall (fun w => 0 <= w)%R (Bleu.weights (Bleu.mkBleuScorer [1%R] false)))
    by (repeat constructor; cbn; lra).
  split; [exact Hw|]. split; [exact Hne|].
  apply (proj2 (bleu_score_cached_ids _ _ _ [0; 1] Hw Hne)).
  apply Exists_cons. right. apply Exists_cons. left. cbn. lia.
Defined.

Lemma wer_score_cached_ids_witness :
  [(2, 1%Q)] <> [] /\
  exists v, WER.score_cached_corpus (WER.WERScorer_init 1 1 1 false) [0; 0] [(2, 1%Q)] = Ok (v, None).
Proof.
  assert (Hne : [(2, 1%Q)] <> []) by discriminate.
  split; [exact Hne|].
  apply (proj1 (wer_score_cached_ids _ _ [0; 0] Hne)).
  repeat constructor.
Defined.

End IdsProofs.
